(** * KOSMIndoorMap: a shallow embedding of the OSM element model, the hit
    detector, the painter renderer, the navigation mesh builder and the
    floor level change model, with the properties their specification
    states about them.

    Conventions of the embedding.
    - C++ integers are [Z]; where the source computes on a fixed width the
      wrap-around is written out ([wrap32], [wrap64], [to_int32]).
    - [qreal]/[double]/[float] quantities that the source compares or
      multiplies are rationals ([Q]); no rounding is modelled.
    - [QString], [QByteArray] and C strings are [string]; the null string and
      the empty string are both [""] ([isEmpty] cannot tell them apart).
    - A pointer into a [std::vector] owned by the [DataSet] or the
      [SceneGraph] is the pointed-to value, or an index where the source
      writes through the pointer.
    - Library code that is not part of the sources (Qt geometry, the view
      transforms, [std::sort]) enters through type classes. *)

From Stdlib Require Import ZArith QArith List String Lia Bool Permutation Sorted DecimalString.
From stdpp Require Import gmap strings list.
Import ListNotations.

Local Open Scope Z_scope.

(* ================================================================== *)
(** * Part I: the embedding                                            *)
(* ================================================================== *)

(** ** Machine integers *)

Definition wrap32 (z : Z) : Z := z mod 2 ^ 32.
Definition wrap64 (z : Z) : Z := z mod 2 ^ 64.

(** Conversion of an unsigned 32 bit pattern to [int]. *)
Definition to_int32 (z : Z) : Z :=
  let u := wrap32 z in if u <? 2 ^ 31 then u else u - 2 ^ 32.

(** [std::numeric_limits<int>::min()] and [std::numeric_limits<int32_t>::max()]. *)
Definition INT_MIN : Z := - 2 ^ 31.
Definition INT32_MAX : Z := 2 ^ 31 - 1.

(** ** [std::sort]

    [std::sort] is not stable and leaves the relative order of equivalent
    elements unspecified.  What it guarantees, for a comparator that is a
    strict weak ordering, is that the result is a permutation of the input
    in which no element is less than an element before it. *)

Record StrictWeakOrder {A : Type} (lt : A -> A -> bool) : Prop := {
  swo_irrefl : forall a, lt a a = false;
  swo_trans : forall a b c, lt a b = true -> lt b c = true -> lt a c = true;
  swo_incomp_trans : forall a b c,
      lt a b = false -> lt b a = false ->
      lt b c = false -> lt c b = false ->
      lt a c = false /\ lt c a = false
}.

Definition sorted_by {A : Type} (lt : A -> A -> bool) : list A -> Prop :=
  StronglySorted (fun a b => lt b a = false).

Class StdSort := {
  std_sort : forall A : Type, (A -> A -> bool) -> list A -> list A;
  std_sort_perm : forall A lt (l : list A), Permutation l (std_sort A lt l);
  std_sort_sorted : forall A lt (l : list A),
      StrictWeakOrder lt -> sorted_by lt (std_sort A lt l)
}.
Arguments std_sort {_} {A} lt l.

(** One conforming implementation: insertion sort. *)
Fixpoint insert_sorted {A : Type} (lt : A -> A -> bool) (x : A) (l : list A) : list A :=
  match l with
  | [] => [x]
  | y :: r => if lt x y then x :: y :: r else y :: insert_sorted lt x r
  end.

Fixpoint insertion_sort {A : Type} (lt : A -> A -> bool) (l : list A) : list A :=
  match l with
  | [] => []
  | x :: r => insert_sorted lt x (insertion_sort lt r)
  end.

(** ** OSM data types (osm/datatypes.h) *)

Module OSM.

(** [typedef int64_t Id]. *)
Abbreviation Id := Z (only parsing).

(** Latitude and longitude in units of 1e-7 degree ([int32_t]); a default
    constructed coordinate is the invalid one. *)
Record Coordinate := mkCoordinate { latitude : Z; longitude : Z }.

Definition Coordinate_default : Coordinate :=
  {| latitude := INT32_MAX; longitude := INT32_MAX |}.

Definition Coordinate_isValid (c : Coordinate) : bool :=
  negb (latitude c =? INT32_MAX) && negb (longitude c =? INT32_MAX).

Record BoundingBox := mkBoundingBox { bbox_min : Coordinate; bbox_max : Coordinate }.

Definition BoundingBox_default : BoundingBox :=
  {| bbox_min := Coordinate_default; bbox_max := Coordinate_default |}.

Definition BoundingBox_isValid (b : BoundingBox) : bool :=
  Coordinate_isValid (bbox_min b) && Coordinate_isValid (bbox_max b).

Definition unite (bbox1 bbox2 : BoundingBox) : BoundingBox :=
  if negb (BoundingBox_isValid bbox1) then bbox2
  else if negb (BoundingBox_isValid bbox2) then bbox1
  else {| bbox_min := {| latitude := Z.min (latitude (bbox_min bbox1)) (latitude (bbox_min bbox2));
                         longitude := Z.min (longitude (bbox_min bbox1)) (longitude (bbox_min bbox2)) |};
          bbox_max := {| latitude := Z.max (latitude (bbox_max bbox1)) (latitude (bbox_max bbox2));
                         longitude := Z.max (longitude (bbox_max bbox1)) (longitude (bbox_max bbox2)) |} |}.

Record Tag := mkTag { key : string; value : string }.

Record Node := mkNode { node_id : Id; coordinate : Coordinate; node_tags : list Tag }.

(** [Element::center] and [Element::boundingBox] read [way()->bbox], so the
    way carries its cached bounding box. *)
Record Way := mkWay { way_id : Id; way_bbox : BoundingBox; way_nodes : list Id; way_tags : list Tag }.

Inductive Type_ := TNull | TNode | TWay | TRelation.

Record Member := mkMember { member_id : Id; role : string; member_type : Type_ }.

Record Relation := mkRelation {
  relation_id : Id; relation_bbox : BoundingBox;
  members : list Member; relation_tags : list Tag }.

(** Three vectors, each sorted by id. *)
Record DataSet := mkDataSet { nodes : list Node; ways : list Way; relations : list Relation }.

(** [OSM::tagValue(elem, key)]: [std::find_if] over the tags, the value of
    the first tag with that key, the null string when there is none. *)
Fixpoint tagValue (tags : list Tag) (k : string) : string :=
  match tags with
  | [] => ""
  | t :: r => if String.eqb (key t) k then value t else tagValue r k
  end.

Definition isEmpty (s : string) : bool := String.eqb s "".

(** A locale, as far as tag lookup reads it: its language code and its
    region code. *)
Record Locale := mkLocale { language : string; region : string }.

(** Modelled from the spec: [OSM::tagValue(elem, keyName, locale)] is not
    part of the listed sources.  The locale-qualified lookup tries
    [key:language_Region], then [key:language], then [key]. *)
Definition tagValue_locale (tags : list Tag) (k : string) (loc : Locale) : string :=
  let v1 := tagValue tags (k +:+ ":" +:+ language loc +:+ "_" +:+ region loc) in
  if negb (isEmpty v1) then v1
  else let v2 := tagValue tags (k +:+ ":" +:+ language loc) in
       if negb (isEmpty v2) then v2 else tagValue tags k.

(** [std::lower_bound(begin, end, id)] with [operator<(elem, id)]: the
    iterator to the partition point, kept here as the suffix it starts.
    On a vector sorted by id that is the first element whose id is not
    below [id]. *)
Fixpoint lower_bound {A : Type} (id_of : A -> Id) (l : list A) (id : Id) : list A :=
  match l with
  | [] => []
  | x :: r => if id_of x <? id then lower_bound id_of r id else l
  end.

(** The lookup idiom of the sources:
    [it != end && it->id == id]. *)
Definition lookup_id {A : Type} (id_of : A -> Id) (l : list A) (id : Id) : option A :=
  match lower_bound id_of l id with
  | [] => None
  | x :: _ => if id_of x =? id then Some x else None
  end.

(** What the element sources use of declarations outside them. *)
Class Externals := {
  BoundingBox_center : BoundingBox -> Coordinate;
  Node_url : Node -> string;
  Way_url : Way -> string;
  Relation_url : Relation -> string
}.

(** ** [OSM::Element] (osm/element.h, osm/element.cpp)

    The tagged pointer is a discriminated reference. *)
Inductive Element :=
| Null
| ENode (n : Node)
| EWay (w : Way)
| ERelation (r : Relation).

#[export] Instance Coordinate_eq_dec : EqDecision Coordinate.
Proof. solve_decision. Defined.
#[export] Instance BoundingBox_eq_dec : EqDecision BoundingBox.
Proof. solve_decision. Defined.
#[export] Instance Tag_eq_dec : EqDecision Tag.
Proof. solve_decision. Defined.
#[export] Instance Node_eq_dec : EqDecision Node.
Proof. solve_decision. Defined.
#[export] Instance Way_eq_dec : EqDecision Way.
Proof. solve_decision. Defined.
#[export] Instance Type_eq_dec : EqDecision Type_.
Proof. solve_decision. Defined.
#[export] Instance Member_eq_dec : EqDecision Member.
Proof. solve_decision. Defined.
#[export] Instance Relation_eq_dec : EqDecision Relation.
Proof. solve_decision. Defined.
#[export] Instance Element_eq_dec : EqDecision Element.
Proof. solve_decision. Defined.

Definition type (e : Element) : Type_ :=
  match e with
  | Null => TNull | ENode _ => TNode | EWay _ => TWay | ERelation _ => TRelation
  end.

Definition id (e : Element) : Id :=
  match e with
  | Null => 0
  | ENode n => node_id n
  | EWay w => way_id w
  | ERelation r => relation_id r
  end.

Definition center `{Externals} (e : Element) : Coordinate :=
  match e with
  | Null => Coordinate_default
  | ENode n => coordinate n
  | EWay w => BoundingBox_center (way_bbox w)
  | ERelation r => BoundingBox_center (relation_bbox r)
  end.

Definition boundingBox (e : Element) : BoundingBox :=
  match e with
  | Null => BoundingBox_default
  | ENode n => {| bbox_min := coordinate n; bbox_max := coordinate n |}
  | EWay w => way_bbox w
  | ERelation r => relation_bbox r
  end.

Definition tags (e : Element) : list Tag :=
  match e with
  | Null => []
  | ENode n => node_tags n
  | EWay w => way_tags w
  | ERelation r => relation_tags r
  end.

(** An interned key compares like the string it interns. *)
Definition TagKey := string.

(** [Element::tagValue] with an interned key. *)
Definition Element_tagValue_key (e : Element) (k : TagKey) : string :=
  match e with
  | Null => ""
  | ENode n => tagValue (node_tags n) k
  | EWay w => tagValue (way_tags w) k
  | ERelation r => tagValue (relation_tags r) k
  end.

(** [Element::tagValue] with a key name. *)
Definition Element_tagValue (e : Element) (keyName : string) : string :=
  match e with
  | Null => ""
  | ENode n => tagValue (node_tags n) keyName
  | EWay w => tagValue (way_tags w) keyName
  | ERelation r => tagValue (relation_tags r) keyName
  end.

(** [Element::tagValue] with a key name and a locale. *)
Definition Element_tagValue_locale (e : Element) (keyName : string) (loc : Locale) : string :=
  match e with
  | Null => ""
  | ENode n => tagValue_locale (node_tags n) keyName loc
  | EWay w => tagValue_locale (way_tags w) keyName loc
  | ERelation r => tagValue_locale (relation_tags r) keyName loc
  end.

(** [Element::tagsBegin]/[tagsEnd] are [Q_UNREACHABLE] on a null element:
    the tag range is only defined for the three other kinds. *)
Definition tagsRange (e : Element) : option (list Tag) :=
  match e with
  | Null => None
  | ENode n => Some (node_tags n)
  | EWay w => Some (way_tags w)
  | ERelation r => Some (relation_tags r)
  end.

Definition url `{Externals} (e : Element) : string :=
  match e with
  | Null => ""
  | ENode n => Node_url n
  | EWay w => Way_url w
  | ERelation r => Relation_url r
  end.

(** [appendNodesFromWay]: node ids that do not resolve are skipped. *)
Fixpoint appendNodesFromWay (dataSet : DataSet) (nodes_ : list Node) (ids : list Id) : list Node :=
  match ids with
  | [] => nodes_
  | i :: r =>
      match lookup_id node_id (nodes dataSet) i with
      | None => appendNodesFromWay dataSet nodes_ r
      | Some n => appendNodesFromWay dataSet (nodes_ ++ [n]) r
      end
  end.

(** [nodes.front()] and [nodes.back()] of a way; the callers only hold ways
    with a node. *)
Definition front (w : Way) : Id := hd 0 (way_nodes w).
Definition back (w : Way) : Id := List.last (way_nodes w) 0.

(** The [for] loop of [appendNextPath], from iterator [it] on: [pre] are the
    ways before [it], [rest] the ways from [it].  The result is the returned
    node id, the node vector and the way vector after the call. *)
Fixpoint appendNextPath_from (dataSet : DataSet) (nodes_ : list Node) (startNode : Id)
         (pre rest : list Way) : Id * list Node * list Way :=
  match rest with
  | [] => (0, nodes_, pre)
  | w :: r =>
      if front w =? startNode then
        (back w, appendNodesFromWay dataSet nodes_ (way_nodes w), pre ++ r)
      else if back w =? startNode then
        (front w, appendNodesFromWay dataSet nodes_ (rev (way_nodes w)), pre ++ r)
      else appendNextPath_from dataSet nodes_ startNode (pre ++ [w]) r
  end.

Definition appendNextPath (dataSet : DataSet) (nodes_ : list Node) (startNode : Id)
           (ways_ : list Way) : Id * list Node * list Way :=
  match ways_ with
  | [] => (0, nodes_, ways_)
  | w0 :: r => appendNextPath_from dataSet nodes_ startNode [w0] r
  end.

(** [do { lastNode = appendNextPath(...); } while (lastNode && lastNode != startNode);]
    Every iteration but the last erases a way, so [length ways_] iterations
    are enough (see [stitchLoop_fuel]). *)
Fixpoint stitchLoop (fuel : nat) (dataSet : DataSet) (nodes_ : list Node)
         (startNode lastNode : Id) (ways_ : list Way) : list Node * list Way :=
  match fuel with
  | O => (nodes_, ways_)
  | S fuel' =>
      let '(lastNode', nodes', ways') := appendNextPath dataSet nodes_ lastNode ways_ in
      if negb (lastNode' =? 0) && negb (lastNode' =? startNode)
      then stitchLoop fuel' dataSet nodes' startNode lastNode' ways'
      else (nodes', ways')
  end.

(** The stitching loop [for (auto it = ways.begin(); it != ways.end();)].
    [appendNextPath] erases behind [it] only, and [it = ways.erase(it)] is
    [ways.begin()] again, so [it] is [ways.begin()] throughout. *)
Fixpoint stitchWays (fuel : nat) (dataSet : DataSet) (nodes_ : list Node)
         (ways_ : list Way) : list Node :=
  match fuel with
  | O => nodes_
  | S fuel' =>
      match ways_ with
      | [] => nodes_
      | w :: _ =>
          let nodes1 := appendNodesFromWay dataSet nodes_ (way_nodes w) in
          let '(nodes2, ways2) :=
            stitchLoop (length ways_) dataSet nodes1 (front w) (back w) ways_ in
          stitchWays fuel' dataSet nodes2 (tl ways2)
      end
  end.

(** "collect the relevant ways": the outer members that resolve to a way
    with at least one node, in member order. *)
Fixpoint collectOuterWays (dataSet : DataSet) (ms : list Member) : list Way :=
  match ms with
  | [] => []
  | member :: r =>
      if negb (String.eqb (role member) "outer") then collectOuterWays dataSet r
      else match lookup_id way_id (ways dataSet) (member_id member) with
           | Some w =>
               if negb (length (way_nodes w) =? 0)%nat
               then w :: collectOuterWays dataSet r
               else collectOuterWays dataSet r
           | None => collectOuterWays dataSet r
           end
  end.

Definition outerPath (dataSet : DataSet) (e : Element) : list Node :=
  match e with
  | Null => []
  | ENode n => [n]
  | EWay w => appendNodesFromWay dataSet [] (way_nodes w)
  | ERelation r =>
      if negb (String.eqb (Element_tagValue e "type") "multipolygon") then []
      else
        let ways_ := collectOuterWays dataSet (members r) in
        stitchWays (length ways_) dataSet [] ways_
  end.

(** [Element::recomputeBoundingBox] for a way: the union over the nodes
    that resolve. *)
Definition recomputeBoundingBox_way (dataSet : DataSet) (w : Way) : BoundingBox :=
  fold_left (fun bbox nodeId =>
               match lookup_id node_id (nodes dataSet) nodeId with
               | None => bbox
               | Some n => unite bbox {| bbox_min := coordinate n; bbox_max := coordinate n |}
               end) (way_nodes w) BoundingBox_default.

(** *** Vocabulary for the stitching properties *)

(** The nodes a list of node ids resolves to. *)
Definition resolve (dataSet : DataSet) (ids : list Id) : list Node :=
  appendNodesFromWay dataSet [] ids.

(** A closed loop: at least two nodes, the first and the last with the same
    id. *)
Definition closedLoop (l : list Node) : Prop :=
  (2 <= length l)%nat /\ node_id <$> head l = node_id <$> last l.

Definition concatOfClosedLoops (l : list Node) : Prop :=
  exists loops : list (list Node), l = concat loops /\ Forall closedLoop loops.

(** A way whose node sequence is a ring. *)
Definition closedWay (w : Way) : Prop :=
  (2 <= length (way_nodes w))%nat /\ front w = back w.

(** Every node id of the list is the id of a node of the data set. *)
Definition allResolve (ds : DataSet) (ids : list Id) : Prop :=
  Forall (fun i => is_Some (lookup_id node_id (nodes ds) i)) ids.

(** The nodes one consumed way contributes: its resolved nodes, in way
    order or ([true]) reversed. *)
Definition piece (ds : DataSet) (c : Way * bool) : list Node :=
  resolve ds (if snd c then rev (way_nodes (fst c)) else way_nodes (fst c)).

(** The way [appendNextPath] picks among [rest] for the end node [s], the
    direction it appends it in, and the ways it leaves. *)
Fixpoint pick (s : Id) (rest : list Way) : option (Way * bool * list Way) :=
  match rest with
  | [] => None
  | w :: r =>
      if front w =? s then Some (w, false, r)
      else if back w =? s then Some (w, true, r)
      else match pick s r with
           | Some (w', d, r') => Some (w', d, w :: r')
           | None => None
           end
  end.

(** *** Vocabulary for lookups, bounding boxes and chains of ways *)

(** The vectors of a data set are kept sorted by id. *)
Definition sortedById {A : Type} (id_of : A -> Id) (l : list A) : Prop :=
  StronglySorted (fun a b => id_of a <= id_of b) l.

(** The coordinate lies within the bounding box. *)
Definition covers (b : BoundingBox) (c : Coordinate) : Prop :=
  latitude (bbox_min b) <= latitude c <= latitude (bbox_max b) /\
  longitude (bbox_min b) <= longitude c <= longitude (bbox_max b).

(** [BoundingBox(node->coordinate, node->coordinate)]. *)
Definition pointBox (n : Node) : BoundingBox :=
  {| bbox_min := coordinate n; bbox_max := coordinate n |}.

(** Each way starts at the node id the way before it ends at. *)
Fixpoint chained (ws : list Way) : Prop :=
  match ws with
  | w1 :: ((w2 :: _) as r) => front w2 = back w1 /\ chained r
  | _ => True
  end.

(** *** Vocabulary for the sub-loops of the stitching *)

(** The node ids at which a way appended forward or ([true]) reversed is
    entered and left. *)
Definition entry (c : Way * bool) : Id := if snd c then back (fst c) else front (fst c).
Definition exit (c : Way * bool) : Id := if snd c then front (fst c) else back (fst c).

(** The rule of [appendNextPath] at the end node [e]: a way is appended
    forward when its first node is [e], and reversed when its first node is
    not [e] but its last node is. *)
Definition appendedAt (e : Id) (c : Way * bool) : Prop :=
  if snd c then front (fst c) <> e /\ back (fst c) = e else front (fst c) = e.

(** Each way is appended, by that rule, at the end node the one before it
    leaves. *)
Fixpoint linkedFrom (e : Id) (cs : list (Way * bool)) : Prop :=
  match cs with
  | [] => True
  | c :: r => appendedAt e c /\ linkedFrom (exit c) r
  end.

(** The end node after the ways [cs], starting from the end node [e]. *)
Fixpoint endFrom (e : Id) (cs : list (Way * bool)) : Id :=
  match cs with
  | [] => e
  | c :: r => endFrom (exit c) r
  end.

(** A sub-loop: a first way, appended forward, and the ways stitched to
    it. *)
Definition subLoop (lp : list (Way * bool)) : Prop :=
  match lp with
  | [] => False
  | c :: r => snd c = false /\ linkedFrom (exit c) r
  end.

Definition loopStart (lp : list (Way * bool)) : Id :=
  match lp with
  | [] => 0
  | c :: _ => entry c
  end.

Definition loopEnd (lp : list (Way * bool)) : Id :=
  match lp with
  | [] => 0
  | c :: r => endFrom (exit c) r
  end.

(** The sub-loop ends at the node it started from. *)
Definition closes (lp : list (Way * bool)) : Prop := loopEnd lp = loopStart lp.

(** The nodes a sub-loop contributes. *)
Definition loopNodes (ds : DataSet) (lp : list (Way * bool)) : list Node :=
  concat (map (piece ds) lp).

(** The ways the sub-loops start with. *)
Definition loopStarts (loops : list (list (Way * bool))) : list Way :=
  omap (fun lp => fst <$> head lp) loops.

(** No sub-loop ends early: it ends at its start node, at the node id 0
    (which the loop condition reads as "none"), or at a node at which none
    of the ways left for the later sub-loops starts or ends. *)
Fixpoint maximalLoops (loops : list (list (Way * bool))) : Prop :=
  match loops with
  | [] => True
  | lp :: post =>
      (loopEnd lp = loopStart lp \/ loopEnd lp = 0 \/
       Forall (fun w => front w <> loopEnd lp /\ back w <> loopEnd lp)
              (map fst (concat post))) /\
      maximalLoops post
  end.

(** The first and last node ids of the ways, and how often a node id is
    among them. *)
Definition ends (ws : list Way) : list Id := flat_map (fun w => [front w; back w]) ws.

Definition endCount (i : Id) (ws : list Way) : nat := count_occ Z.eq_dec (ends ws) i.

(** The ways can close: every node id is the first or last node of an even
    number of way ends, and none of them is the node id 0. *)
Definition canClose (ws : list Way) : bool :=
  forallb (fun i => negb (i =? 0) && Nat.even (endCount i ws)) (ends ws).

(** The node ids of a way in the direction it is appended in. *)
Definition directed (c : Way * bool) : list Id :=
  if snd c then rev (way_nodes (fst c)) else way_nodes (fst c).

End OSM.

(** *** Sample data: two disjoint rings, and an open way *)

Module OSMSamples.
Import OSM.

Definition sampleNode (i : Id) : Node :=
  {| node_id := i; coordinate := {| latitude := i; longitude := i |}; node_tags := [] |}.

Definition sampleWay (i : Id) (ids : list Id) : Way :=
  {| way_id := i; way_bbox := BoundingBox_default; way_nodes := ids; way_tags := [] |}.

Definition sampleDataSet : DataSet :=
  {| nodes := map sampleNode [1; 2; 3; 4; 5; 6];
     ways := [sampleWay 10 [1; 2; 3; 1]; sampleWay 11 [4; 5; 6; 4]; sampleWay 12 [1; 2; 3]];
     relations := [] |}.

Definition sampleMultipolygon (outer : list Id) : Relation :=
  {| relation_id := 100; relation_bbox := BoundingBox_default;
     members := map (fun i => {| member_id := i; role := "outer"; member_type := TWay |}) outer;
     relation_tags := [{| key := "type"; value := "multipolygon" |}] |}.

(** A ring cut in two: way 20 from node 1 to node 3, way 21 back from node
    3 to node 1, and way 22, which is way 21 the other way round. *)
Definition splitRing : DataSet :=
  {| nodes := map sampleNode [1; 2; 3; 4];
     ways := [sampleWay 20 [1; 2; 3]; sampleWay 21 [3; 4; 1]; sampleWay 22 [1; 4; 3]];
     relations := [] |}.

(** A way one of whose node ids, 7, is not in the sample data set. *)
Definition gapWay : Way := sampleWay 13 [1; 7; 3].


(** Two overlapping boxes. *)
Definition boxA : BoundingBox :=
  {| bbox_min := {| latitude := 0; longitude := 0 |};
     bbox_max := {| latitude := 2; longitude := 2 |} |}.
Definition boxB : BoundingBox :=
  {| bbox_min := {| latitude := 1; longitude := 1 |};
     bbox_max := {| latitude := 5; longitude := 3 |} |}.

(** Tags that repeat a key. *)
Definition repeatedTags : list Tag :=
  [ {| key := "name"; value := "Hall" |}; {| key := "level"; value := "0" |};
    {| key := "level"; value := "1" |} ].

End OSMSamples.

(** ** Qt value types and the view *)

Module Qt.
Local Open Scope Q_scope.

Record QPointF := mkQPointF { x : Q; y : Q }.
Record QSizeF := mkQSizeF { width : Q; height : Q }.

(** [QRectF] as Qt stores it: top left corner, width and height. *)
Record QRectF := mkQRectF { xp : Q; yp : Q; w : Q; h : Q }.

Record QLineF := mkQLineF { p1 : QPointF; p2 : QPointF }.

Abbreviation QPolygonF := (list QPointF) (only parsing).

(** [a < b] on [qreal]. *)
Definition Qltb (a b : Q) : bool := negb (Qle_bool b a).

(** [std::min] and [std::max]: [(b < a) ? b : a] and [(a < b) ? b : a]. *)
Definition qmin (a b : Q) : Q := if Qltb b a then b else a.
Definition qmax (a b : Q) : Q := if Qltb a b then b else a.

Definition QRectF_null : QRectF := {| xp := 0; yp := 0; w := 0; h := 0 |}.

Definition QRectF_center (r : QRectF) : QPointF :=
  {| x := xp r + w r / 2; y := yp r + h r / 2 |}.

Definition QRectF_moveCenter (r : QRectF) (c : QPointF) : QRectF :=
  {| xp := x c - w r / 2; yp := y c - h r / 2; w := w r; h := h r |}.

Definition QRectF_adjusted (r : QRectF) (dx1 dy1 dx2 dy2 : Q) : QRectF :=
  {| xp := xp r + dx1; yp := yp r + dy1; w := w r + dx2 - dx1; h := h r + dy2 - dy1 |}.

Definition QRectF_fromPointSize (p : QPointF) (s : QSizeF) : QRectF :=
  {| xp := x p; yp := y p; w := width s; h := height s |}.

(** The parts of Qt and of [View] that the sources call and do not define. *)
Class Env := {
  QColor : Type;
  QColor_alphaF : QColor -> Q;
  QColor_alpha : QColor -> Z;
  QColor_setAlphaF : QColor -> Q -> QColor;
  Qt_transparent : QColor;
  QFont : Type;
  QIcon : Type;
  QIcon_isNull : QIcon -> bool;
  QPainterPath : Type;
  QPainterPath_contains : QPainterPath -> QPointF -> bool;
  QPolygonF_containsPoint : QPolygonF -> QPointF -> bool;
  QRectF_contains : QRectF -> QPointF -> bool;
  QRectF_intersects : QRectF -> QRectF -> bool;
  QRectF_united : QRectF -> QRectF -> QRectF;
  QRectF_intersected : QRectF -> QRectF -> QRectF;
  QRectF_toRect : QRectF -> QRectF;
  QFontMetrics_horizontalAdvance : QFont -> string -> Q;
  QPainter_boundingRect : QFont -> QRectF -> Z -> string -> QRectF;
  SceneGeometry_distanceToLine : QLineF -> QPointF -> Q;
  QTransform : Type;
  QTransform_identity : QTransform;
  View : Type;
  mapScreenToScene : View -> QPointF -> QPointF;
  mapSceneToScreen : View -> QPointF -> QPointF;
  mapSceneToScreen_rect : View -> QRectF -> QRectF;
  mapScreenDistanceToSceneDistance : View -> Q -> Q;
  mapMetersToScene : View -> Q -> Q;
  viewport : View -> QRectF;
  sceneBoundingBox : View -> QRectF;
  screenWidth : View -> Q;
  screenHeight : View -> Q;
  sceneToScreenTransform : View -> QTransform
}.

End Qt.

(** ** The scene graph (scene/scenegraph.h, scene/scenegraphitem.h as the
    renderer and the hit detector use them) *)

Module Scene.
Import Qt.

Inductive Unit_ := Pixel | Meter.

Inductive RenderPhase := FillPhase | CasingPhase | StrokePhase | LabelPhase.

Section Payload.
Context `{Env}.

Record QPen := mkQPen { pen_color : QColor; pen_widthF : Q }.
Record QBrush := mkQBrush { brush_color : QColor }.

Definition QPen_setWidthF (p : QPen) (wd : Q) : QPen :=
  {| pen_color := pen_color p; pen_widthF := wd |}.

Record PolygonItem := mkPolygonItem {
  polygon : QPolygonF;
  polygon_brush : QBrush;
  polygon_pen : QPen;
  polygon_penWidthUnit : Unit_ }.

Record MultiPolygonItem := mkMultiPolygonItem {
  multi_path : QPainterPath;
  multi_brush : QBrush;
  multi_pen : QPen;
  multi_penWidthUnit : Unit_ }.

Record PolylineItem := mkPolylineItem {
  polyline_path : QPolygonF;
  polyline_pen : QPen;
  polyline_casingPen : QPen;
  polyline_penWidthUnit : Unit_;
  polyline_casingPenWidthUnit : Unit_ }.

(** [text] with the width [QStaticText::textWidth] it was laid out for. *)
Record LabelItem := mkLabelItem {
  pos : QPointF;
  angle : Q;
  maxWidth : Q;
  offset : Q;
  text : string;
  textWidth : Q;
  font : QFont;
  color : QColor;
  icon : QIcon;
  iconSize : QSizeF;
  casingWidth : Q;
  casingColor : QColor;
  frameWidth : Q;
  frameColor : QColor;
  shieldColor : QColor;
  haloRadius : Q;
  bbox : QRectF;
  hasFineBbox : bool }.

(** The payload of a scene graph item; [dynamic_cast] is the match on the
    constructor, [OtherItem] a payload of none of the four classes. *)
Inductive Payload :=
| Polygon (i : PolygonItem)
| MultiPolygon (i : MultiPolygonItem)
| Polyline (i : PolylineItem)
| Label (i : LabelItem)
| OtherItem.

(** The virtual methods of [SceneGraphItemPayload]; their definitions are
    not part of the sources. *)
Class PayloadMethods := {
  renderPhases : Payload -> RenderPhase -> bool;
  boundingRect : Payload -> QRectF;
  inSceneSpace : Payload -> bool;
  inHUDSpace : Payload -> bool
}.

(** [renderPhases() == NoPhase]. *)
Definition noPhase `{PayloadMethods} (p : Payload) : bool :=
  negb (renderPhases p FillPhase || renderPhases p CasingPhase
        || renderPhases p StrokePhase || renderPhases p LabelPhase).

Record SceneGraphItem := mkSceneGraphItem {
  element : OSM.Element;
  layer : Z;
  payload : Payload }.

(** [items()] in scene order, the half-open index ranges of the layers and
    the canvas colour. *)
Record SceneGraph := mkSceneGraph {
  items : list SceneGraphItem;
  layerOffsets : list (nat * nat);
  backgroundColor : QColor }.

(** A [const SceneGraphItem*] into [items()]: the position and the item at
    it. *)
Record ItemPtr := mkItemPtr { ptr_index : nat; ptr_item : SceneGraphItem }.

End Payload.
End Scene.

(** ** The hit detector (map/renderer/hitdetector.cpp) *)

Module HitDetector.
Import Qt Scene.
Local Open Scope Q_scope.

Section HitDetector.
Context `{Env} `{!PayloadMethods} `{StdSort}.

(** [itemContainsPoint(const PolygonItem*, scenePos)]. *)
Definition polygonContainsPoint (item : PolygonItem) (scenePos : QPointF) : bool :=
  QPolygonF_containsPoint (polygon item) scenePos.

(** [itemContainsPoint(const MultiPolygonItem*, scenePos)]. *)
Definition multiPolygonContainsPoint (item : MultiPolygonItem) (scenePos : QPointF) : bool :=
  QPainterPath_contains (multi_path item) scenePos.

(** The loop over the segments of a polyline: [dist] starts at the largest
    [double], here [None]. *)
Fixpoint minDistance (prev : QPointF) (rest : list QPointF) (scenePos : QPointF)
         (dist : option Q) : option Q :=
  match rest with
  | [] => dist
  | p :: r =>
      let d := SceneGeometry_distanceToLine {| p1 := prev; p2 := p |} scenePos in
      minDistance p r scenePos (Some (match dist with None => d | Some d0 => qmin d0 d end))
  end.

(** [itemContainsPoint(const PolylineItem*, scenePos, view)]. *)
Definition polylineContainsPoint (item : PolylineItem) (scenePos : QPointF) (view : View) : bool :=
  match polyline_path item with
  | [] | [_] => false
  | p0 :: rest =>
      let lineWidth := mapMetersToScene view (pen_widthF (polyline_pen item))
                       + mapScreenDistanceToSceneDistance view (pen_widthF (polyline_casingPen item)) in
      match minDistance p0 rest scenePos None with
      | None => false
      | Some dist => Qle_bool dist lineWidth
      end
  end.

(** [itemContainsPoint(const LabelItem*, screenPos, view)]. *)
Definition labelContainsPoint (item : LabelItem) (screenPos : QPointF) (view : View) : bool :=
  let hitBox := boundingRect (Label item) in
  let hitBox :=
    if Qltb 0 (textWidth item) then
      let width := QFontMetrics_horizontalAdvance (font item) (text item) in
      let width := if negb (QIcon_isNull (icon item))
                   then qmax width (Qt.width (iconSize item)) else width in
      let width := width + qmax (frameWidth item) (haloRadius item) + casingWidth item in
      let widthDelta := (w hitBox - width) / 2 in
      QRectF_adjusted hitBox widthDelta 0 (- widthDelta) 0
    else hitBox in
  let hitBox := QRectF_moveCenter hitBox (mapSceneToScreen view (QRectF_center hitBox)) in
  QRectF_contains hitBox screenPos.

(** [itemContainsPoint(const SceneGraphItem&, screenPos, view)]. *)
Definition itemContainsPoint (item : SceneGraphItem) (screenPos : QPointF) (view : View) : bool :=
  match payload item with
  | Polygon i => polygonContainsPoint i (mapScreenToScene view screenPos)
  | MultiPolygon i => multiPolygonContainsPoint i (mapScreenToScene view screenPos)
  | Polyline i => polylineContainsPoint i (mapScreenToScene view screenPos) view
  | Label i => labelContainsPoint i screenPos view
  | OtherItem => true
  end.

(** The test an item passes to become a candidate. *)
Definition isCandidate (pos : QPointF) (view : View) (item : SceneGraphItem) : bool :=
  if noPhase (payload item)
     || negb (QRectF_contains (boundingRect (payload item)) (mapScreenToScene view pos))
  then false
  else if negb (itemContainsPoint item pos view) then false
  else true.

(** The loop of [itemsAt] from position [i] on. *)
Fixpoint itemsAt_from (i : nat) (pos : QPointF) (l : list SceneGraphItem) (view : View)
  : list ItemPtr :=
  match l with
  | [] => []
  | item :: r =>
      if isCandidate pos view item
      then {| ptr_index := i; ptr_item := item |} :: itemsAt_from (S i) pos r view
      else itemsAt_from (S i) pos r view
  end.

Definition itemsAt (pos : QPointF) (sg : SceneGraph) (view : View) : list ItemPtr :=
  itemsAt_from 0 pos (items sg) view.

Definition itemFillAlpha (item : ItemPtr) : Q :=
  match payload (ptr_item item) with
  | Polygon i => QColor_alphaF (brush_color (polygon_brush i))
  | MultiPolygon i => QColor_alphaF (brush_color (multi_brush i))
  | _ => 1
  end.

(** The area [boundingRect().width() * boundingRect().height()] the
    candidates are sorted by. *)
Definition bboxArea (item : ItemPtr) : Q :=
  w (boundingRect (payload (ptr_item item))) * h (boundingRect (payload (ptr_item item))).

(** The comparator handed to [std::sort]. *)
Definition smallerBbox (lhs rhs : ItemPtr) : bool := Qltb (bboxArea lhs) (bboxArea rhs).

Definition itemAt (pos : QPointF) (sg : SceneGraph) (view : View) : option ItemPtr :=
  let items_ := itemsAt pos sg view in
  match items_ with
  | [] => None
  | [item] => Some item
  | _ =>
      match last items_ with
      | None => None
      | Some top =>
          if Qle_bool (1 # 2) (itemFillAlpha top) then Some top
          else head (std_sort smallerBbox items_)
      end
  end.

(** *** The selection rule as the specification words it

    "Prefer the topmost candidate with fill alpha >= 0.5; otherwise return
    the candidate with the smallest bounding-box area": the last candidate
    among those that are at least half opaque, and a candidate of least
    area only when there is none. *)
Definition opaqueCandidates (l : list ItemPtr) : list ItemPtr :=
  List.filter (fun c => Qle_bool (1 # 2) (itemFillAlpha c)) l.

Definition leastArea (l : list ItemPtr) (c : ItemPtr) : Prop :=
  In c l /\ forall c', In c' l -> (bboxArea c <= bboxArea c')%Q.

Definition selectedAsSpecified (l : list ItemPtr) (result : option ItemPtr) : Prop :=
  match last (opaqueCandidates l) with
  | Some c => result = Some c
  | None => exists c, result = Some c /\ leastArea l c
  end.

(** *** Vocabulary for the polyline test *)

(** The segments the loop of the polyline test goes through: from the
    point before to each point of [rest]. *)
Fixpoint segmentsFrom (prev : QPointF) (rest : list QPointF) : list QLineF :=
  match rest with
  | [] => []
  | p :: r => {| p1 := prev; p2 := p |} :: segmentsFrom p r
  end.

Definition pathSegments (path : QPolygonF) : list QLineF :=
  match path with
  | [] => []
  | p :: r => segmentsFrom p r
  end.
(** *** Vocabulary for the label test *)

(** The width the label test gives the hit box of a label whose text is
    laid out for a width. *)
Definition labelHitWidth (item : LabelItem) : Q :=
  (if negb (QIcon_isNull (icon item))
   then qmax (QFontMetrics_horizontalAdvance (font item) (text item)) (Qt.width (iconSize item))
   else QFontMetrics_horizontalAdvance (font item) (text item))
  + qmax (frameWidth item) (haloRadius item) + casingWidth item.

(** The hit box of the label test before it is moved to the screen. *)
Definition labelHitBox (item : LabelItem) : QRectF :=
  let hitBox := boundingRect (Label item) in
  if Qltb 0 (textWidth item)
  then QRectF_adjusted hitBox ((w hitBox - labelHitWidth item) / 2) 0
                       (- ((w hitBox - labelHitWidth item) / 2)) 0
  else hitBox.

End HitDetector.
End HitDetector.

(** ** The painter renderer (map/renderer/painterrenderer.cpp) *)

Module PainterRenderer.
Import Qt Scene.
Local Open Scope Q_scope.

Section PainterRenderer.
Context `{Env} `{!PayloadMethods}.

(** What the renderer asks of its [QPainter], in call order. *)
Inductive PaintOp :=
| Save
| Restore
| FillRect (r : QRectF) (c : QColor)
| FillRectGradient (r : QRectF) (start finalStop : QPointF) (stops : list (Q * QColor))
| SetNoPen
| SetPen (p : QPen)
| SetPenColor (c : QColor)
| SetNoBrush
| SetBrush (b : QBrush)
| SetTransform (t : QTransform)
| SetClipRect (r : QRectF)
| SetAntialiasing (on : bool)
| DrawPolygon (p : QPolygonF)
| DrawPath (p : QPainterPath)
| DrawPolyline (p : QPolygonF)
| Translate (p : QPointF)
| Rotate (a : Q)
| SetFont (f : QFont)
| DrawText (box : QRectF) (flags : Z) (s : string)
| PaintIcon (i : QIcon) (r : QRectF).

(** The objects a render pass can reach: the scene graph items, whose
    payloads [m_renderBatch] points into, and the painter. *)
Record RenderState := mkRenderState {
  store : list SceneGraphItem;
  painted : list PaintOp }.

Definition paint (op : PaintOp) (st : RenderState) : RenderState :=
  {| store := store st; painted := painted st ++ [op] |}.

(** Writing through a payload pointer of the batch. *)
Definition setPayload (i : nat) (p : Payload) (st : RenderState) : RenderState :=
  match store st !! i with
  | None => st
  | Some item =>
      {| store := <[i := {| element := element item; layer := layer item; payload := p |}]> (store st);
         painted := painted st |}
  end.

Definition mapToSceneWidth (view : View) (wd : Q) (unit : Unit_) : Q :=
  match unit with
  | Pixel => mapScreenDistanceToSceneDistance view wd
  | Meter => mapMetersToScene view wd
  end.

Definition beginRender (st : RenderState) : RenderState := paint Save st.

Definition renderBackground (view : View) (bgColor : QColor) (st : RenderState) : RenderState :=
  paint (FillRect {| xp := 0; yp := 0; w := screenWidth view; h := screenHeight view |} bgColor) st.

Definition beginPhase (view : View) (phase : RenderPhase) (st : RenderState) : RenderState :=
  match phase with
  | FillPhase =>
      paint (SetAntialiasing false)
        (paint (SetClipRect (QRectF_intersected (viewport view) (sceneBoundingBox view)))
           (paint (SetTransform (sceneToScreenTransform view)) (paint SetNoPen st)))
  | CasingPhase | StrokePhase =>
      paint (SetAntialiasing true)
        (paint (SetClipRect (QRectF_intersected (viewport view) (sceneBoundingBox view)))
           (paint (SetTransform (sceneToScreenTransform view)) (paint SetNoBrush st)))
  | LabelPhase =>
      paint (SetAntialiasing true) (paint (SetTransform QTransform_identity) st)
  end.

Definition renderPolygon (view : View) (item : PolygonItem) (phase : RenderPhase)
           (st : RenderState) : RenderState :=
  match phase with
  | FillPhase => paint (DrawPolygon (polygon item)) (paint (SetBrush (polygon_brush item)) st)
  | _ =>
      let p := QPen_setWidthF (polygon_pen item)
                 (mapToSceneWidth view (pen_widthF (polygon_pen item)) (polygon_penWidthUnit item)) in
      paint (DrawPolygon (polygon item)) (paint (SetPen p) st)
  end.

Definition renderMultiPolygon (view : View) (item : MultiPolygonItem) (phase : RenderPhase)
           (st : RenderState) : RenderState :=
  match phase with
  | FillPhase => paint (DrawPath (multi_path item)) (paint (SetBrush (multi_brush item)) st)
  | _ =>
      let p := QPen_setWidthF (multi_pen item)
                 (mapToSceneWidth view (pen_widthF (multi_pen item)) (multi_penWidthUnit item)) in
      paint (DrawPath (multi_path item)) (paint (SetPen p) st)
  end.

Definition renderPolyline (view : View) (item : PolylineItem) (phase : RenderPhase)
           (st : RenderState) : RenderState :=
  match phase with
  | StrokePhase =>
      let p := QPen_setWidthF (polyline_pen item)
                 (mapToSceneWidth view (pen_widthF (polyline_pen item)) (polyline_penWidthUnit item)) in
      paint (DrawPolyline (polyline_path item)) (paint (SetPen p) st)
  | _ =>
      let p := QPen_setWidthF (polyline_casingPen item)
                 (mapToSceneWidth view (pen_widthF (polyline_pen item)) (polyline_penWidthUnit item)
                  + mapToSceneWidth view (pen_widthF (polyline_casingPen item))
                      (polyline_casingPenWidthUnit item)) in
      paint (DrawPolyline (polyline_path item)) (paint (SetPen p) st)
  end.

(** [Qt::AlignHCenter], [Qt::TextSingleLine], [Qt::TextWordWrap]. *)
Definition AlignHCenter : Z := 4.
Definition TextSingleLine : Z := 256.
Definition TextWordWrap : Z := 4096.

Definition textFlagsOf (item : LabelItem) : Z :=
  Z.lor AlignHCenter (if Qltb 0 (maxWidth item) then TextWordWrap else TextSingleLine).

Definition setLabelBbox (item : LabelItem) (b : QRectF) (fine : bool) : LabelItem :=
  {| pos := pos item; angle := angle item; maxWidth := maxWidth item; offset := offset item;
     text := text item; textWidth := textWidth item; font := font item; color := color item;
     icon := icon item; iconSize := iconSize item;
     casingWidth := casingWidth item; casingColor := casingColor item;
     frameWidth := frameWidth item; frameColor := frameColor item;
     shieldColor := shieldColor item; haloRadius := haloRadius item;
     bbox := b; hasFineBbox := fine |}.

(** The block under [if (!item->hasFineBbox)]: the label after it, and
    whether the painter's font was set. *)
Definition computeFineBbox (item : LabelItem) : LabelItem * bool :=
  let textFlags := textFlagsOf item in
  let '(b, fontSet) :=
    if negb (OSM.isEmpty (text item))
    then (QPainter_boundingRect (font item)
            (QRectF_fromPointSize {| x := 0; y := 0 |} {| width := maxWidth item; height := 0 |})
            textFlags (text item), true)
    else (QRectF_null, false) in
  let b := if negb (QIcon_isNull (icon item))
           then QRectF_united b (QRectF_fromPointSize {| x := 0; y := 0 |} (iconSize item))
           else b in
  (setLabelBbox item (QRectF_moveCenter b (pos item)) true, fontSet).

(** [renderLabel(item)], [item] being the payload of the item at position
    [i]. *)
Definition renderLabel (view : View) (i : nat) (item : LabelItem) (st : RenderState) : RenderState :=
  let st := paint Save st in
  let st := paint (Translate (mapSceneToScreen view (pos item))) st in
  let st := paint (Rotate (angle item)) st in
  let textFlags := textFlagsOf item in
  let '(item, st) :=
    if negb (hasFineBbox item) then
      let '(item', fontSet) := computeFineBbox item in
      let st := if fontSet then paint (SetFont (font item)) st else st in
      (item', setPayload i (Label item') st)
    else (item, st) in
  let box := QRectF_moveCenter (bbox item) {| x := 0; y := offset item |} in
  let wd := casingWidth item + frameWidth item + 2 in
  let st := if Qltb 0 (casingWidth item) && (0 <? QColor_alpha (casingColor item))%Z
            then paint (FillRect (QRectF_adjusted box (- wd) (- wd) wd wd) (casingColor item)) st
            else st in
  let wd := wd - casingWidth item in
  let st := if Qltb 0 (frameWidth item) && (0 <? QColor_alpha (frameColor item))%Z
            then paint (FillRect (QRectF_adjusted box (- wd) (- wd) wd wd) (frameColor item)) st
            else st in
  let wd := wd - frameWidth item in
  let st := if (0 <? QColor_alpha (shieldColor item))%Z
            then paint (FillRect (QRectF_adjusted box (- wd) (- wd) wd wd) (shieldColor item)) st
            else st in
  let st := if negb (QIcon_isNull (icon item))
            then paint (PaintIcon (icon item)
                          (QRectF_toRect (QRectF_moveCenter
                                            (QRectF_fromPointSize {| x := 0; y := 0 |} (iconSize item))
                                            {| x := 0; y := 0 |}))) st
            else st in
  let st := if negb (OSM.isEmpty (text item))
            then paint (DrawText box textFlags (text item))
                   (paint (SetFont (font item)) (paint (SetPenColor (color item)) st))
            else st in
  paint Restore st.

(** One element of [m_renderBatch] in one phase. *)
Definition renderItem (view : View) (phase : RenderPhase) (i : nat) (st : RenderState) : RenderState :=
  match store st !! i with
  | None => st
  | Some item =>
      if negb (renderPhases (payload item) phase) then st
      else match payload item with
           | Polygon p => renderPolygon view p phase st
           | MultiPolygon p => renderMultiPolygon view p phase st
           | Polyline p => renderPolyline view p phase st
           | Label p => renderLabel view i p st
           | OtherItem => st
           end
  end.

(** "select elements currently in view": the batch entries position [i]
    contributes. *)
Definition selectItem (view : View) (st : RenderState) (i : nat) : list nat :=
  match store st !! i with
  | None => []
  | Some item =>
      let screenRect := {| xp := 0; yp := 0; w := screenWidth view; h := screenHeight view |} in
      (if inSceneSpace (payload item)
          && QRectF_intersects (viewport view) (boundingRect (payload item))
       then [i] else [])
      ++ (if inHUDSpace (payload item)
          then let b := boundingRect (payload item) in
               let b := QRectF_moveCenter b (mapSceneToScreen view (QRectF_center b)) in
               if QRectF_intersects screenRect b then [i] else []
          else [])
  end.

Definition renderPhase_ (view : View) (batch : list nat) (st : RenderState) (phase : RenderPhase)
  : RenderState :=
  fold_left (fun st i => renderItem view phase i st) batch (beginPhase view phase st).

(** One layer: the items at positions [first, second). *)
Definition renderLayer (view : View) (st : RenderState) (layerOffsets : nat * nat) : RenderState :=
  let batch := List.concat (List.map (selectItem view st)
                                     (seq (fst layerOffsets) (snd layerOffsets - fst layerOffsets))) in
  fold_left (renderPhase_ view batch) [FillPhase; CasingPhase; StrokePhase; LabelPhase] st.

Definition gradientStops (bgColor : QColor) : list (Q * QColor) :=
  [(0, bgColor); (2 # 10, QColor_setAlphaF bgColor (75 # 100)); (1, Qt_transparent)].

Definition renderForeground (view : View) (bgColor : QColor) (st : RenderState) : RenderState :=
  let borderWidth := 10 in
  let st := paint (SetClipRect (mapSceneToScreen_rect view (viewport view))) st in
  let r0 := mapSceneToScreen_rect view (sceneBoundingBox view) in
  (* r.setBottom(r.top() + borderWidth) *)
  let r := {| xp := xp r0; yp := yp r0; w := w r0; h := yp r0 + borderWidth - yp r0 |} in
  let st := paint (FillRectGradient r {| x := xp r; y := yp r |} {| x := xp r; y := yp r + h r |}
                     (gradientStops bgColor)) st in
  (* r.setTop(r.bottom() - borderWidth) *)
  let r := {| xp := xp r0; yp := yp r0 + h r0 - borderWidth; w := w r0;
              h := h r0 - (yp r0 + h r0 - borderWidth - yp r0) |} in
  let st := paint (FillRectGradient r {| x := xp r; y := yp r + h r |} {| x := xp r; y := yp r |}
                     (gradientStops bgColor)) st in
  (* r.setRight(r.left() + borderWidth) *)
  let r := {| xp := xp r0; yp := yp r0; w := xp r0 + borderWidth - xp r0; h := h r0 |} in
  let st := paint (FillRectGradient r {| x := xp r; y := yp r |} {| x := xp r + w r; y := yp r |}
                     (gradientStops bgColor)) st in
  (* r.setLeft(r.right() - borderWidth) *)
  let r := {| xp := xp r0 + w r0 - borderWidth; yp := yp r0;
              w := w r0 - (xp r0 + w r0 - borderWidth - xp r0); h := h r0 |} in
  paint (FillRectGradient r {| x := xp r + w r; y := yp r |} {| x := xp r; y := yp r |}
           (gradientStops bgColor)) st.

Definition endRender (st : RenderState) : RenderState := paint Restore st.

(** [PainterRenderer::render(sg, view)] from a painter that has painted
    [before]. *)
Definition render (sg : SceneGraph) (view : View) (before : list PaintOp) : RenderState :=
  let st := {| store := items sg; painted := before |} in
  let st := renderBackground view (backgroundColor sg) (beginRender st) in
  let st := fold_left (renderLayer view) (layerOffsets sg) st in
  endRender (renderForeground view (backgroundColor sg) st).

(** *** The frame condition of a render pass *)

(** [after] is [before] up to the memoized bounding box: equal, or
    [before] had no fine bounding box and [after] has one and differs in
    nothing else. *)
Definition labelCacheOnly (before after : LabelItem) : Prop :=
  after = before \/
  (hasFineBbox before = false /\ hasFineBbox after = true /\
   after = setLabelBbox before (bbox after) true).

Definition payloadFrame (before after : Payload) : Prop :=
  match before with
  | Label lb => exists la, after = Label la /\ labelCacheOnly lb la
  | _ => after = before
  end.

Definition itemFrame (before after : SceneGraphItem) : Prop :=
  element after = element before /\ layer after = layer before /\
  payloadFrame (payload before) (payload after).

(** The frame condition on the whole store. *)
Definition storeFrame (before after : list SceneGraphItem) : Prop :=
  Forall2 itemFrame before after.

(** *** Vocabulary for the painter state and for items out of view *)

(** The depth of the painter's state stack after [ops], from depth
    [depth] on; [None] when a [restore] finds the stack empty. *)
Fixpoint saveDepth (depth : nat) (ops : list PaintOp) : option nat :=
  match ops with
  | [] => Some depth
  | Save :: r => saveDepth (S depth) r
  | Restore :: r => match depth with O => None | S d => saveDepth d r end
  | _ :: r => saveDepth depth r
  end.

(** Every [save] of [ops] has its [restore] and the other way round. *)
Definition nested (ops : list PaintOp) : Prop := forall d, saveDepth d ops = Some d.

(** The operations that draw an item. *)
Definition drawsItem (op : PaintOp) : bool :=
  match op with
  | DrawPolygon _ | DrawPath _ | DrawPolyline _ | DrawText _ _ _ | PaintIcon _ _
  | Translate _ | Rotate _ | SetFont _ | SetPen _ | SetPenColor _ | SetBrush _ => true
  | _ => false
  end.

(** The two tests of "select elements currently in view". *)
Definition inView (view : View) (item : SceneGraphItem) : bool :=
  (inSceneSpace (payload item)
   && QRectF_intersects (viewport view) (boundingRect (payload item)))
  || (inHUDSpace (payload item)
      && QRectF_intersects {| xp := 0; yp := 0; w := screenWidth view; h := screenHeight view |}
           (QRectF_moveCenter (boundingRect (payload item))
              (mapSceneToScreen view (QRectF_center (boundingRect (payload item)))))).
(** [st] is [st0] after further painting, well nested. *)
Definition paintsNested (st0 st : RenderState) : Prop :=
  exists ops, painted st = painted st0 ++ ops /\ nested ops.

(** The scene graph without its items. *)
Definition withoutItems (sg : SceneGraph) : SceneGraph :=
  {| items := []; layerOffsets := layerOffsets sg; backgroundColor := backgroundColor sg |}.

End PainterRenderer.
End PainterRenderer.

(** ** A concrete environment and scene

    Axis-parallel rectangles, the identity view, colours that are their
    alpha: enough to run the hit detector and the renderer on data. *)

Module Samples.
Import Qt Scene.
Local Open Scope Q_scope.

Definition rectContains (r : QRectF) (p : QPointF) : bool :=
  Qle_bool (xp r) (x p) && Qle_bool (x p) (xp r + w r)
  && Qle_bool (yp r) (y p) && Qle_bool (y p) (yp r + h r).

Definition rectIntersects (r1 r2 : QRectF) : bool :=
  Qltb (xp r1) (xp r2 + w r2) && Qltb (xp r2) (xp r1 + w r1)
  && Qltb (yp r1) (yp r2 + h r2) && Qltb (yp r2) (yp r1 + h r1).

Definition rectUnited (r1 r2 : QRectF) : QRectF :=
  let l := qmin (xp r1) (xp r2) in
  let t := qmin (yp r1) (yp r2) in
  {| xp := l; yp := t;
     w := qmax (xp r1 + w r1) (xp r2 + w r2) - l;
     h := qmax (yp r1 + h r1) (yp r2 + h r2) - t |}.

(** The bounding rectangle of the points of a polygon. *)
Definition pointsBounds (l : list QPointF) : QRectF :=
  match l with
  | [] => QRectF_null
  | p :: r =>
      fold_left (fun b q => rectUnited b {| xp := x q; yp := y q; w := 0; h := 0 |}) r
                {| xp := x p; yp := y p; w := 0; h := 0 |}
  end.

#[export] Instance sampleEnv : Env := {|
  QColor := Q;
  QColor_alphaF := fun c => c;
  QColor_alpha := fun c => if Qltb 0 c then 255%Z else 0%Z;
  QColor_setAlphaF := fun _ a => a;
  Qt_transparent := 0;
  QFont := unit;
  QIcon := bool;
  QIcon_isNull := fun i => negb i;
  QPainterPath := list QPointF;
  QPainterPath_contains := fun path p => rectContains (pointsBounds path) p;
  QPolygonF_containsPoint := fun poly p => rectContains (pointsBounds poly) p;
  QRectF_contains := rectContains;
  QRectF_intersects := rectIntersects;
  QRectF_united := rectUnited;
  QRectF_intersected := fun r _ => r;
  QRectF_toRect := fun r => r;
  QFontMetrics_horizontalAdvance := fun _ s => inject_Z (Z.of_nat (String.length s));
  QPainter_boundingRect := fun _ r _ s =>
    {| xp := xp r; yp := yp r; w := inject_Z (Z.of_nat (String.length s)); h := 1 |};
  SceneGeometry_distanceToLine := fun l p => qmax (y p - y (p1 l)) (y (p1 l) - y p);
  QTransform := unit;
  QTransform_identity := tt;
  View := unit;
  mapScreenToScene := fun _ p => p;
  mapSceneToScreen := fun _ p => p;
  mapSceneToScreen_rect := fun _ r => r;
  mapScreenDistanceToSceneDistance := fun _ d => d;
  mapMetersToScene := fun _ d => d;
  viewport := fun _ => {| xp := 0; yp := 0; w := 100; h := 100 |};
  sceneBoundingBox := fun _ => {| xp := 0; yp := 0; w := 100; h := 100 |};
  screenWidth := fun _ => 100;
  screenHeight := fun _ => 100;
  sceneToScreenTransform := fun _ => tt
|}.

#[export] Instance samplePayloadMethods : PayloadMethods := {|
  renderPhases := fun p phase =>
    match p, phase with
    | Polygon _, (FillPhase | StrokePhase) => true
    | MultiPolygon _, (FillPhase | StrokePhase) => true
    | Polyline _, (CasingPhase | StrokePhase) => true
    | Label _, LabelPhase => true
    | _, _ => false
    end;
  boundingRect := fun p =>
    match p with
    | Polygon i => pointsBounds (polygon i)
    | MultiPolygon i => pointsBounds (multi_path i)
    | Polyline i => pointsBounds (polyline_path i)
    | Label i => bbox i
    | OtherItem => QRectF_null
    end;
  inSceneSpace := fun p => match p with Label _ | OtherItem => false | _ => true end;
  inHUDSpace := fun p => match p with Label _ => true | _ => false end
|}.

(** The square with corners [(a, a)] and [(b, b)], filled with alpha
    [alpha]. *)
Definition square (a b alpha : Q) : SceneGraphItem :=
  {| element := OSM.Null; layer := 0%Z;
     payload := Polygon {|
       polygon := [ {| x := a; y := a |}; {| x := b; y := a |};
                    {| x := b; y := b |}; {| x := a; y := b |} ];
       polygon_brush := {| brush_color := alpha |};
       polygon_pen := {| pen_color := 1; pen_widthF := 1 |};
       polygon_penWidthUnit := Pixel |} |}.

Definition sampleLabel (s : string) (fine : bool) : SceneGraphItem :=
  {| element := OSM.Null; layer := 1%Z;
     payload := Label {|
       pos := {| x := 4; y := 4 |}; angle := 0; maxWidth := 0; offset := 0;
       text := s; textWidth := 0; font := tt; color := 1;
       icon := false; iconSize := {| width := 0; height := 0 |};
       casingWidth := 0; casingColor := 0; frameWidth := 0; frameColor := 0;
       shieldColor := 0; haloRadius := 0;
       bbox := {| xp := 3; yp := 3; w := 2; h := 2 |};
       hasFineBbox := fine |} |}.

(** A large opaque square below a small translucent one. *)
Definition opaqueBelowTranslucent : SceneGraph :=
  {| items := [square 0 10 (9 # 10); square 2 6 (3 # 10)];
     layerOffsets := [(0, 2)%nat];
     backgroundColor := 1 |}.

(** The same two squares, the opaque one on top. *)
Definition translucentBelowOpaque : SceneGraph :=
  {| items := [square 2 6 (3 # 10); square 0 10 (9 # 10)];
     layerOffsets := [(0, 2)%nat];
     backgroundColor := 1 |}.

Definition samplePos : QPointF := {| x := 4; y := 4 |}.

(** A square that lies outside the viewport. *)
Definition offscreen : SceneGraph :=
  {| items := [square 200 300 1];
     layerOffsets := [(0, 1)%nat];
     backgroundColor := 1 |}.


(** A label whose text is laid out for a width of 10. *)
Definition wrappedLabel : LabelItem :=
  {| pos := {| x := 4; y := 4 |}; angle := 0; maxWidth := 10; offset := 0;
     text := "Exit"; textWidth := 10; font := tt; color := 1;
     icon := false; iconSize := {| width := 0; height := 0 |};
     casingWidth := 1; casingColor := 0; frameWidth := 0; frameColor := 0;
     shieldColor := 0; haloRadius := 2;
     bbox := {| xp := 0; yp := 3; w := 10; h := 2 |};
     hasFineBbox := true |}.

(** A position inside the large square only. *)
Definition cornerPos : QPointF := {| x := 8; y := 8 |}.

End Samples.

(** ** Map levels and map data (as the sources use [KOSMIndoorMap::MapLevel]
    and [KOSMIndoorMap::MapData]) *)

Module Map.

(** A level is ten times the human floor number; [name] is its label. *)
Record MapLevel := mkMapLevel { numericLevel : Z; name : string }.

(** Modelled from the spec: [MapLevel]'s definition is not part of the
    sources.  "the predicate isFullLevel(l) is l mod 10 = 0.  For a non-full
    level l, fullLevelBelow = 10 floor(l/10), fullLevelAbove = 10 ceil(l/10)." *)
Definition isFullLevel (l : Z) : bool := l mod 10 =? 0.
Definition fullLevelBelow (l : Z) : Z := 10 * (l / 10).
Definition fullLevelAbove (l : Z) : Z := 10 * - ((- l) / 10).

(** [MapData]: the data set and the level map, an ordered map from level to
    the elements on it, here its entries in key order. *)
Record MapData := mkMapData {
  dataSet : OSM.DataSet;
  levelMap : list (MapLevel * list OSM.Element);
  boundingBox : OSM.BoundingBox }.

End Map.

(** ** The navigation mesh builder (routing/navmeshbuilder.cpp) *)

Module NavMeshBuilder.
Import Qt OSM Map.

Inductive LinkDirection := Forward | Backward | Bidirectional.

#[export] Instance LinkDirection_eq_dec : EqDecision LinkDirection.
Proof. solve_decision. Defined.

(** A MapCSS declaration, as far as the builder reads it. *)
Record MapCSSDeclaration := mkDeclaration { doubleValue : Q }.

(** One result layer of the filter style: its layer selector (the null
    selector is [None]), the property classes it has, and the three
    declarations the builder asks for. *)
Record MapCSSResultLayer := mkResultLayer {
  layerSelector : option string;
  hasAreaProperties : bool;
  hasLineProperties : bool;
  hasExtrudeProperties : bool;
  declaration_FillOpacity : option MapCSSDeclaration;
  declaration_Width : option MapCSSDeclaration;
  declaration_Extrude : option MapCSSDeclaration }.

(** The triangle set [qTriangulate] returns: vertex coordinates and, three
    per triangle, vertex indices. *)
Record QTriangleSet := mkTriangleSet { tri_vertices : list QPointF; tri_indices : list Z }.

(** What the builder uses of [NavMeshTransform], of Qt's triangulator and
    stroker, of the style engine and of the level parser. *)
Class Env := {
  AreaType : Type;
  Elevator : AreaType;
  Escalator : AreaType;
  qToUnderlying : AreaType -> Z;
  number : Q -> string;
  number_int : Z -> string;
  mapHeightToNav : Z -> Q;
  mapGeoToNav : Coordinate -> QPointF;
  mapGeoToNav_point : QPointF -> QPointF;
  QPolygonF_united : QPolygonF -> QPolygonF -> QPolygonF;
  qTriangulate : list QPolygonF -> QTriangleSet;
  stroke : QPolygonF -> Q -> list QPointF;
  penWidth : Element -> MapCSSDeclaration -> Q;
  LevelParser_parse : string -> Element -> list Z;
  evaluate : Element -> list MapCSSResultLayer
}.

Section NavMeshBuilder.
Context `{OSM.Externals} `{Env}.

(** The members of [NavMeshBuilderPrivate] the main-thread half writes:
    the node level index, the running vertex index of the obj output and
    the three output buffers. *)
Record State := mkState {
  m_nodeLevelMap : gmap Z Z;
  m_vertexOffset : Z;
  m_objVertices : string;
  m_objFaces : string;
  m_gsetData : string }.

Definition set_nodeLevelMap (m : gmap Z Z) (st : State) : State :=
  {| m_nodeLevelMap := m; m_vertexOffset := m_vertexOffset st;
     m_objVertices := m_objVertices st; m_objFaces := m_objFaces st;
     m_gsetData := m_gsetData st |}.

Definition nl : string := String (Ascii.ascii_of_nat 10) "".

(** [isDoor]. *)
Definition isDoor (node : Node) : bool := negb (isEmpty (tagValue (node_tags node) "door")).

(** [levelForNode]. *)
Definition levelForNode (m : gmap Z Z) (nodeId : Id) : Z :=
  match m !! nodeId with
  | Some l => l
  | None => 0
  end.

(** [addNodeToLevelIndex]. *)
Definition addNodeToLevelIndex (m : gmap Z Z) (nodeId : Id) (level : Z) : gmap Z Z :=
  match m !! nodeId with
  | None => <[nodeId := level]> m
  | Some l => if negb (l =? level) then <[nodeId := INT_MIN]> m else m
  end.

(** [lvl.contains(';')]. *)
Fixpoint contains (s : string) (c : Ascii.ascii) : bool :=
  match s with
  | EmptyString => false
  | String a r => Ascii.eqb a c || contains r c
  end.

(** The body of the loop over the elements of one level; a null element
    is [Q_UNREACHABLE] ([None]). *)
Definition indexElement (level : Z) (m : gmap Z Z) (elem : Element) : option (gmap Z Z) :=
  match elem with
  | Null => None
  | ENode _ => Some m
  | EWay w =>
      let lvl := Element_tagValue elem "level" in
      if isEmpty lvl || contains lvl (Ascii.ascii_of_nat 59) then Some m
      else Some (fold_left (fun m nodeId => addNodeToLevelIndex m nodeId level) (way_nodes w) m)
  | ERelation _ => Some m
  end.

Fixpoint indexElements (level : Z) (m : gmap Z Z) (elems : list Element) : option (gmap Z Z) :=
  match elems with
  | [] => Some m
  | elem :: r =>
      match indexElement level m elem with
      | None => None
      | Some m' => indexElements level m' r
      end
  end.

(** [indexNodeLevels] over the entries of the level map. *)
Fixpoint indexLevels (m : gmap Z Z) (levels : list (MapLevel * list Element)) : option (gmap Z Z) :=
  match levels with
  | [] => Some m
  | (level, elems) :: r =>
      if numericLevel level =? 0 then indexLevels m r
      else match indexElements (numericLevel level) m elems with
           | None => None
           | Some m' => indexLevels m' r
           end
  end.

Definition indexNodeLevels (m_data : MapData) (st : State) : option State :=
  match indexLevels (m_nodeLevelMap st) (levelMap m_data) with
  | None => None
  | Some m => Some (set_nodeLevelMap m st)
  end.

(** [Coordinate::lonF] and [latF]: degrees. *)
Definition lonF (c : Coordinate) : Q := inject_Z (longitude c) / inject_Z 10000000.
Definition latF (c : Coordinate) : Q := inject_Z (latitude c) / inject_Z 10000000.

(** The inner loop of [createPolygon]: the points up to and including the
    node that closes the sub-polygon, and the nodes after it.  [first]
    tells whether [subIt == it]. *)
Fixpoint takeSubPolygon (pathBegin : Id) (first : bool) (rest : list Node)
  : QPolygonF * list Node :=
  match rest with
  | [] => ([], [])
  | n :: r =>
      let pt := {| x := lonF (coordinate n); y := latF (coordinate n) |} in
      if (node_id n =? pathBegin) && negb first && negb (length r =? 0)%nat
      then ([pt], r)
      else let '(sub, rest') := takeSubPolygon pathBegin false r in (pt :: sub, rest')
  end.

(** The outer loop of [createPolygon]; each round takes at least one node,
    so [length path] rounds are enough. *)
Fixpoint mergeSubPolygons (fuel : nat) (poly : QPolygonF) (path : list Node) : QPolygonF :=
  match fuel with
  | O => poly
  | S fuel' =>
      match path with
      | [] => poly
      | n :: _ =>
          let '(subPoly, rest) := takeSubPolygon (node_id n) true path in
          mergeSubPolygons fuel'
            (match poly with [] => subPoly | _ => QPolygonF_united poly subPoly end) rest
      end
  end.

Definition createPolygon (ds : DataSet) (e : Element) : QPolygonF :=
  let path := outerPath ds e in
  mergeSubPolygons (length path) [] path.

(** [createPath]: one closed subpath per inner or outer member way with a
    non-empty polygon. *)
Definition createPath (ds : DataSet) (r : Relation) : list QPolygonF :=
  flat_map (fun mem =>
              let isInner := String.eqb (role mem) "inner" in
              let isOuter := String.eqb (role mem) "outer" in
              match member_type mem with
              | TWay =>
                  if negb isInner && negb isOuter then []
                  else match lookup_id way_id (ways ds) (member_id mem) with
                       | None => []
                       | Some way =>
                           match createPolygon ds (EWay way) with
                           | [] => []
                           | subPoly => [subPoly]
                           end
                       end
              | _ => []
              end) (members r).

Definition vertexLine (vx vy vz : Q) : string :=
  "v " +:+ number vx +:+ " " +:+ number vy +:+ " " +:+ number vz +:+ nl.

Definition faceLine (i j k : Z) : string :=
  "f " +:+ number_int i +:+ " " +:+ number_int j +:+ " " +:+ number_int k +:+ nl.

(** [addVertex]. *)
Definition addVertex (vx vy vz : Q) (st : State) : State :=
  {| m_nodeLevelMap := m_nodeLevelMap st; m_vertexOffset := m_vertexOffset st;
     m_objVertices := m_objVertices st +:+ vertexLine vx vy vz;
     m_objFaces := m_objFaces st; m_gsetData := m_gsetData st |}.

(** [addFace]; the indices are [std::size_t]. *)
Definition addFace (i j k : Z) (st : State) : State :=
  {| m_nodeLevelMap := m_nodeLevelMap st; m_vertexOffset := m_vertexOffset st;
     m_objVertices := m_objVertices st;
     m_objFaces := m_objFaces st +:+ faceLine (wrap64 i) (wrap64 j) (wrap64 k);
     m_gsetData := m_gsetData st |}.

Definition addToVertexOffset (d : Z) (st : State) : State :=
  {| m_nodeLevelMap := m_nodeLevelMap st; m_vertexOffset := m_vertexOffset st + d;
     m_objVertices := m_objVertices st; m_objFaces := m_objFaces st;
     m_gsetData := m_gsetData st |}.

(** The lines [addOffMeshConnection] writes once the direction is
    normalized. *)
Definition offMeshLine (x1 y1 z1 x2 y2 z2 : Q) (linkDir : LinkDirection) (areaType : AreaType)
  : string :=
  "c " +:+ number x1 +:+ " " +:+ number y1 +:+ " " +:+ number z1 +:+ "  "
  +:+ number x2 +:+ " " +:+ number y2 +:+ " " +:+ number z2
  +:+ " 0.6 "
  +:+ (match linkDir with Bidirectional => "1" | _ => "0" end)
  +:+ " " +:+ number_int (qToUnderlying areaType) +:+ " 8" +:+ nl.

(** [addOffMeshConnection]. *)
Definition addOffMeshConnection (x1 y1 z1 x2 y2 z2 : Q) (linkDir : LinkDirection)
           (areaType : AreaType) (st : State) : State :=
  let '(x1, y1, z1, x2, y2, z2, linkDir) :=
    match linkDir with
    | Backward => (x2, y2, z2, x1, y1, z1, Forward)
    | _ => (x1, y1, z1, x2, y2, z2, linkDir)
    end in
  {| m_nodeLevelMap := m_nodeLevelMap st; m_vertexOffset := m_vertexOffset st;
     m_objVertices := m_objVertices st; m_objFaces := m_objFaces st;
     m_gsetData := m_gsetData st +:+ offMeshLine x1 y1 z1 x2 y2 z2 linkDir areaType |}.

(** The off-mesh connection arrays of the later revision of the builder,
    and its [addOffMeshConnection]. *)
Record OffMeshCon := mkOffMeshCon {
  verts : list Q; rads : list Q; flags : list Z; areas : list Z; dir : list Z; userId : list Z }.

Definition addOffMeshConnection_arrays (x1 y1 z1 x2 y2 z2 : Q) (linkDir : LinkDirection)
           (areaType : AreaType) (c : OffMeshCon) : OffMeshCon :=
  let '(x1, y1, z1, x2, y2, z2, linkDir) :=
    match linkDir with
    | Backward => (x2, y2, z2, x1, y1, z1, Forward)
    | _ => (x1, y1, z1, x2, y2, z2, linkDir)
    end in
  {| verts := verts c ++ [x1; y1; z1; x2; y2; z2];
     rads := rads c ++ [6 # 10];
     flags := flags c ++ [8];
     areas := areas c ++ [qToUnderlying areaType];
     dir := dir c ++ [match linkDir with Bidirectional => 1 | _ => 0 end];
     userId := userId c ++ [0] |}.

(** *** [processGeometry] *)

(** The area pass. *)
Definition processArea (m_data : MapData) (elem : Element) (floorLevel : Z)
           (res : MapCSSResultLayer) (st : State) : State :=
  if hasAreaProperties res then
    match declaration_FillOpacity res with
    | Some prop =>
        if Qltb 0 (doubleValue prop) then
          let path := match elem with
                      | ERelation r => createPath (dataSet m_data) r
                      | _ => [createPolygon (dataSet m_data) elem]
                      end in
          let triSet := qTriangulate (List.map (List.map mapGeoToNav_point) path) in
          let st := fold_left (fun st v => addVertex (x v) (mapHeightToNav floorLevel) (y v) st)
                              (tri_vertices triSet) st in
          let fix faces (l : list Z) (st : State) : State :=
            match l with
            | i :: j :: k :: r =>
                faces r (addFace (i + m_vertexOffset st) (j + m_vertexOffset st)
                                 (k + m_vertexOffset st) st)
            | _ => st
            end in
          addToVertexOffset (Z.of_nat (length (tri_vertices triSet)))
                            (faces (tri_indices triSet) st)
        else st
    | None => st
    end
  else st.

(** [QLineF(a, p).length() < QLineF(b, p).length()].  A length is the
    square root of the sum of the squared coordinate differences, so the
    lengths compare as their squares do. *)
Definition lengthSquared (a p : QPointF) : Q :=
  (x p - x a) * (x p - x a) + (y p - y a) * (y p - y a).

Definition closerTo (a b p : QPointF) : bool := Qltb (lengthSquared a p) (lengthSquared b p).

(** The level a stroke vertex [p] is put on; [nodes.at(k)] throws past the
    end ([None]). *)
Definition strokeVertexLevel (poly : QPolygonF) (elem : Element) (floorLevel : Z)
           (m : gmap Z Z) (p : QPointF) : option Z :=
  match poly, elem with
  | [poly0; poly1], EWay way =>
      match way_nodes way !! 0%nat, way_nodes way !! 1%nat with
      | Some n0, Some n1 =>
          let l1 := levelForNode m n0 in
          let l2 := levelForNode m n1 in
          if negb (l1 =? l2) && negb (l1 =? INT_MIN) && negb (l2 =? INT_MIN)
          then Some (if closerTo poly0 poly1 p then l1 else l2)
          else Some floorLevel
      | _, _ => None
      end
  | _, _ => Some floorLevel
  end.

(** The loop that adds the stroke vertices. *)
Fixpoint addStrokeVertices (poly : QPolygonF) (elem : Element) (floorLevel : Z)
         (vertices : list QPointF) (st : State) : option State :=
  match vertices with
  | [] => Some st
  | p :: r =>
      match strokeVertexLevel poly elem floorLevel (m_nodeLevelMap st) p with
      | None => None
      | Some l => addStrokeVertices poly elem floorLevel r (addVertex (x p) (mapHeightToNav l) (y p) st)
      end
  end.

(** The triangle strip faces, [i] from [0] while [i < count - 2]. *)
Fixpoint addStripFaces (n : nat) (i : Z) (st : State) : State :=
  match n with
  | O => st
  | S n' =>
      let o := m_vertexOffset st in
      addStripFaces n' (i + 1)
        (if negb (i mod 2 =? 0)
         then addFace (o + i) (o + i + 1) (o + i + 2) st
         else addFace (o + i + 1) (o + i) (o + i + 2) st)
  end.

(** The line pass. *)
Definition processLine (m_data : MapData) (elem : Element) (floorLevel : Z)
           (res : MapCSSResultLayer) (st : State) : option State :=
  if hasLineProperties res then
    let pw := match declaration_Width res with
              | Some prop => penWidth elem prop
              | None => 0%Q
              end in
    if Qltb 0 pw then
      let poly := List.map mapGeoToNav_point (createPolygon (dataSet m_data) elem) in
      let vertices := stroke poly pw in
      match addStrokeVertices poly elem floorLevel vertices st with
      | None => None
      | Some st =>
          let count := Z.of_nat (length vertices) in
          Some (addToVertexOffset count (addStripFaces (Z.to_nat (count - 2)) 0 st))
      end
    else Some st
  else Some st.

(** One wall segment of the extrude pass. *)
Definition addWall (a b : Node) (floorLevel : Z) (st : State) : State :=
  let p1 := mapGeoToNav (coordinate a) in
  let p2 := mapGeoToNav (coordinate b) in
  let st := addVertex (x p1) (mapHeightToNav floorLevel) (y p1) st in
  let st := addVertex (x p2) (mapHeightToNav floorLevel) (y p2) st in
  let st := addVertex (x p1) (mapHeightToNav (floorLevel + 10)) (y p1) st in
  let st := addVertex (x p2) (mapHeightToNav (floorLevel + 10)) (y p2) st in
  let o := m_vertexOffset st in
  let st := addFace o (o + 1) (o + 2) st in
  let st := addFace (o + 1) (o + 3) (o + 2) st in
  addToVertexOffset 4 st.

(** [for (std::size_t i = 0; i < way.size() - 1; ++i)]: the bound is
    computed in [std::size_t]; [way[i]] past the end is undefined
    ([None]).  With a node in [way] the loop ends after [length way - 1]
    rounds; without one the first round already reads past the end. *)
Fixpoint extrudeLoop (fuel : nat) (i : Z) (way : list Node) (floorLevel : Z) (st : State)
  : option State :=
  match fuel with
  | O => Some st
  | S fuel' =>
      if i <? wrap64 (Z.of_nat (length way) - 1) then
        match way !! Z.to_nat i, way !! Z.to_nat (i + 1) with
        | Some a, Some b =>
            if isDoor a || isDoor b
            then extrudeLoop fuel' (i + 1) way floorLevel st
            else extrudeLoop fuel' (i + 1) way floorLevel (addWall a b floorLevel st)
        | _, _ => None
        end
      else Some st
  end.

(** The extrude pass. *)
Definition processExtrude (m_data : MapData) (elem : Element) (floorLevel : Z)
           (res : MapCSSResultLayer) (st : State) : option State :=
  if hasExtrudeProperties res then
    match declaration_Extrude res with
    | Some prop =>
        if Qltb 0 (doubleValue prop) then
          let way := outerPath (dataSet m_data) elem in
          extrudeLoop (S (length way)) 0 way floorLevel st
        else Some st
    | None => Some st
    end
  else Some st.

Definition processGeometry (m_data : MapData) (elem : Element) (floorLevel : Z)
           (res : MapCSSResultLayer) (st : State) : option State :=
  match processLine m_data elem floorLevel res (processArea m_data elem floorLevel res st) with
  | None => None
  | Some st => processExtrude m_data elem floorLevel res st
  end.

(** *** [processLink] *)

Fixpoint addElevatorLinks (p : QPointF) (levels : list Z) (st : State) : State :=
  match levels with
  | l0 :: ((l1 :: _) as r) =>
      addElevatorLinks p r
        (addOffMeshConnection (x p) (mapHeightToNav l0) (y p) (x p) (mapHeightToNav l1) (y p)
                              Bidirectional Elevator st)
  | _ => st
  end.

(** [poly.at(k)] past the end fails ([None]). *)
Definition processLink (m_data : MapData) (elem : Element) (floorLevel : Z)
           (linkDir : LinkDirection) (res : MapCSSResultLayer) (st : State) : option State :=
  let st :=
    if hasAreaProperties res then
      let levels := LevelParser_parse (Element_tagValue elem "level") elem in
      if (1 <? length levels)%nat
      then addElevatorLinks (mapGeoToNav (center elem)) levels st
      else st
    else st in
  match elem with
  | EWay way =>
      if hasLineProperties res then
        match way_nodes way with
        | [n0; n1] =>
            let l1 := levelForNode (m_nodeLevelMap st) n0 in
            let l2 := levelForNode (m_nodeLevelMap st) n1 in
            if negb (l1 =? l2) && negb (l1 =? INT_MIN) && negb (l2 =? INT_MIN) then
              let poly := createPolygon (dataSet m_data) elem in
              match poly !! 0%nat, poly !! 1%nat with
              | Some q1, Some q2 =>
                  let p1 := mapGeoToNav_point q1 in
                  let p2 := mapGeoToNav_point q2 in
                  Some (addOffMeshConnection (x p1) (mapHeightToNav l1) (y p1)
                                             (x p2) (mapHeightToNav l2) (y p2)
                                             linkDir Escalator st)
              | _, _ => None
              end
            else Some st
        | _ => Some st
        end
      else Some st
  | _ => Some st
  end.

(** [processElement]: the null layer selector is geometry, a named one a
    link in the direction its name gives. *)
Definition processElement (m_data : MapData) (elem : Element) (floorLevel : Z) (st : State)
  : option State :=
  fold_left (fun ost res =>
               match ost with
               | None => None
               | Some st =>
                   match layerSelector res with
                   | None => processGeometry m_data elem floorLevel res st
                   | Some name =>
                       let linkDir :=
                         if String.eqb name "link_forward" then Forward
                         else if String.eqb name "link_backward" then Backward
                         else Bidirectional in
                       processLink m_data elem floorLevel linkDir res st
                   end
               end) (evaluate elem) (Some st).

(** *** Vocabulary for the level index *)

(** No element of the list is the null element. *)
Definition noNull (elems : list Element) : Prop := List.Forall (fun e => e <> Null) elems.

(** Node [n] is seen at level [l]: some entry of the level map for a level
    [l] other than 0 holds a way with a non-empty [level] tag without [;]
    that has [n] among its node ids. *)
Definition seenAt (m_data : MapData) (n : Id) (l : Z) : Prop :=
  exists level elems w,
    In (level, elems) (levelMap m_data) /\ numericLevel level = l /\ l <> 0 /\
    In (EWay w) elems /\
    isEmpty (tagValue (way_tags w) "level") = false /\
    contains (tagValue (way_tags w) "level") (Ascii.ascii_of_nat 59) = false /\
    In n (way_nodes w).

(** What one call of [addNodeToLevelIndex] makes of the entry of its node:
    the level when there is none, the entry when it agrees, the ambiguity
    mark when it does not. *)
Definition mergeLevel (entry : option Z) (level : Z) : option Z :=
  match entry with
  | None => Some level
  | Some l => if l =? level then Some l else Some INT_MIN
  end.

(** The level-index pass as the list of calls of [addNodeToLevelIndex] it
    makes, in order. *)
Definition elementCalls (level : Z) (elem : Element) : list (Id * Z) :=
  match elem with
  | EWay w =>
      let lvl := Element_tagValue elem "level" in
      if isEmpty lvl || contains lvl (Ascii.ascii_of_nat 59) then []
      else List.map (fun nodeId => (nodeId, level)) (way_nodes w)
  | _ => []
  end.

Definition levelCalls (entry : MapLevel * list Element) : list (Id * Z) :=
  if numericLevel (fst entry) =? 0 then []
  else flat_map (elementCalls (numericLevel (fst entry))) (snd entry).

Definition applyCalls (m : gmap Z Z) (calls : list (Id * Z)) : gmap Z Z :=
  fold_left (fun m c => addNodeToLevelIndex m (fst c) (snd c)) calls m.

(** The levels the calls name for node [n], in call order. *)
Definition levelsOf (n : Id) (calls : list (Id * Z)) : list Z :=
  List.map snd (List.filter (fun c => fst c =? n) calls).

(** *** Vocabulary for the geometry passes *)

(** The vertex lines of the stroke vertices [vs], each on the level [f]
    gives it. *)
Fixpoint strokeLines (f : QPointF -> Z) (vs : list QPointF) : string :=
  match vs with
  | [] => ""
  | p :: r => vertexLine (x p) (mapHeightToNav (f p)) (y p) +:+ strokeLines f r
  end.

(** The consecutive segments of an outer path. *)
Fixpoint segments (way : list Node) : list (Node * Node) :=
  match way with
  | a :: ((b :: _) as r) => (a, b) :: segments r
  | _ => []
  end.

(** What one segment adds: nothing at a door, its wall otherwise. *)
Definition wallStep (floorLevel : Z) (st : State) (s : Node * Node) : State :=
  if isDoor (fst s) || isDoor (snd s) then st else addWall (fst s) (snd s) floorLevel st.

(** *** Vocabulary for the line pass, the links and the faces *)

(** The point [createPolygon] makes of a node. *)
Definition nodePoint (n : Node) : QPointF :=
  {| x := lonF (coordinate n); y := latF (coordinate n) |}.

(** The level the line pass puts a stroke vertex of a way from node id [a]
    to node id [b] on, [pa] and [pb] being the two points of its polygon. *)
Definition stairLevel (m : gmap Z Z) (a b : Id) (pa pb : QPointF) (floorLevel : Z)
           (p : QPointF) : Z :=
  let l1 := levelForNode m a in
  let l2 := levelForNode m b in
  if negb (l1 =? l2) && negb (l1 =? INT_MIN) && negb (l2 =? INT_MIN)
  then (if closerTo pa pb p then l1 else l2)
  else floorLevel.

(** The pairs of consecutive levels of a level list. *)
Fixpoint consecutive (levels : list Z) : list (Z * Z) :=
  match levels with
  | l0 :: ((l1 :: _) as r) => (l0, l1) :: consecutive r
  | _ => []
  end.

(** The elevator connection between two levels at the point [p]. *)
Definition elevatorLink (p : QPointF) (st : State) (ls : Z * Z) : State :=
  addOffMeshConnection (x p) (mapHeightToNav (fst ls)) (y p)
                       (x p) (mapHeightToNav (snd ls)) (y p) Bidirectional Elevator st.

(** The faces of a triangle strip, [i] running over [n] values from [i]
    on, over vertices numbered from [o]. *)
Fixpoint stripFaces (o i : Z) (n : nat) : list (Z * Z * Z) :=
  match n with
  | O => []
  | S n' =>
      (if negb (i mod 2 =? 0) then (o + i, o + i + 1, o + i + 2)
       else (o + i + 1, o + i, o + i + 2)) :: stripFaces o (i + 1) n'
  end.

(** The lines [addFace] writes for a list of faces. *)
Fixpoint facesText (fs : list (Z * Z * Z)) : string :=
  match fs with
  | [] => ""
  | (a, b, c) :: r => faceLine (wrap64 a) (wrap64 b) (wrap64 c) +:+ facesText r
  end.

(** The three corners of a face are three different vertices numbered
    from [lo] to [hi]. *)
Definition faceWithin (lo hi : Z) (f : Z * Z * Z) : Prop :=
  let '(a, b, c) := f in
  (lo <= a <= hi /\ lo <= b <= hi /\ lo <= c <= hi) /\ a <> b /\ b <> c /\ a <> c.

(** The index triples of a triangle set, each index shifted by [o]. *)
Fixpoint shiftedTriples (o : Z) (l : list Z) : list (Z * Z * Z) :=
  match l with
  | i :: j :: k :: r => (i + o, j + o, k + o) :: shiftedTriples o r
  | _ => []
  end.

(** The path the area pass of [processGeometry] triangulates. *)
Definition areaPath (m_data : MapData) (elem : Element) : list QPolygonF :=
  match elem with
  | ERelation r => createPath (dataSet m_data) r
  | _ => [createPolygon (dataSet m_data) elem]
  end.

End NavMeshBuilder.
End NavMeshBuilder.

(** *** Sample data for the builder *)

Module NavMeshBuilderSamples.
Import Qt OSM Map NavMeshBuilder.

Definition showZ (z : Z) : string := DecimalString.NilZero.string_of_int (Z.to_int z).

(** A rational in lowest terms, as numerator/denominator. *)
Definition showQ (q : Q) : string :=
  showZ (Qnum (Qred q)) +:+ "/" +:+ showZ (Zpos (Qden (Qred q))).

#[export] Instance sampleExternals : OSM.Externals := {|
  BoundingBox_center := fun b =>
    {| latitude := ((latitude (bbox_min b) + latitude (bbox_max b)) / 2)%Z;
       longitude := ((longitude (bbox_min b) + longitude (bbox_max b)) / 2)%Z |};
  Node_url := fun n => "node/" +:+ showZ (node_id n);
  Way_url := fun w => "way/" +:+ showZ (way_id w);
  Relation_url := fun r => "relation/" +:+ showZ (relation_id r)
|}.

(** Levels are 3 apart in height; geographic coordinates are taken as they
    are; the stroke of a two-point line are the four corners of the flat
    capped band around it, the line taken as horizontal. *)
#[export] Instance sampleNavEnv : NavMeshBuilder.Env := {|
  AreaType := Z;
  Elevator := 2%Z;
  Escalator := 3%Z;
  qToUnderlying := fun a => a;
  number := showQ;
  number_int := showZ;
  mapHeightToNav := fun l => (inject_Z l * (3 # 10))%Q;
  mapGeoToNav := fun c => {| x := inject_Z (longitude c); y := inject_Z (latitude c) |};
  mapGeoToNav_point := fun p =>
    {| x := (x p * inject_Z 10000000)%Q; y := (y p * inject_Z 10000000)%Q |};
  QPolygonF_united := fun p q => p ++ q;
  qTriangulate := fun _ => {| tri_vertices := []; tri_indices := [] |};
  stroke := fun poly pw =>
    match poly with
    | [a; b] => [ {| x := x a; y := (y a - pw / 2)%Q |}; {| x := x a; y := (y a + pw / 2)%Q |};
                  {| x := x b; y := (y b - pw / 2)%Q |}; {| x := x b; y := (y b + pw / 2)%Q |} ]
    | _ => []
    end;
  penWidth := fun _ d => doubleValue d;
  LevelParser_parse := fun _ _ => [];
  evaluate := fun _ => []
|}.

Definition emptyState : State :=
  {| m_nodeLevelMap := ∅; m_vertexOffset := 1; m_objVertices := ""; m_objFaces := "";
     m_gsetData := "" |}.

Definition nodeAt (i : Id) (lon : Z) (nodeTags : list Tag) : Node :=
  {| node_id := i; coordinate := {| latitude := 0; longitude := lon |}; node_tags := nodeTags |}.

Definition wayOf (i : Id) (ids : list Id) (wayTags : list Tag) : Way :=
  {| way_id := i; way_bbox := BoundingBox_default; way_nodes := ids; way_tags := wayTags |}.

Definition lineLayer (wd : Q) : MapCSSResultLayer :=
  {| layerSelector := None; hasAreaProperties := false; hasLineProperties := true;
     hasExtrudeProperties := false; declaration_FillOpacity := None;
     declaration_Width := Some {| doubleValue := wd |}; declaration_Extrude := None |}.

Definition extrudeLayer (ht : Q) : MapCSSResultLayer :=
  {| layerSelector := None; hasAreaProperties := false; hasLineProperties := false;
     hasExtrudeProperties := true; declaration_FillOpacity := None;
     declaration_Width := None; declaration_Extrude := Some {| doubleValue := ht |} |}.

(** *** A stair way between level 0 and level 1 *)

Definition stairs : Way := wayOf 30 [1; 2] [].
Definition upperFloor : Way := wayOf 31 [2; 5] [ {| key := "level"; value := "1" |} ].

Definition stairsData : MapData :=
  {| dataSet := {| nodes := [nodeAt 1 0 []; nodeAt 2 10 []; nodeAt 5 20 []];
                   ways := [stairs; upperFloor]; relations := [] |};
     levelMap := [ ({| numericLevel := 10; name := "1" |}, [EWay upperFloor]);
                   ({| numericLevel := 0; name := "0" |}, [EWay stairs]) ];
     boundingBox := BoundingBox_default |}.

Definition stairsIndexed : State :=
  set_nodeLevelMap (<[2 := 10]> (<[5 := 10]> ∅)) emptyState.

(** *** A corridor on level 0 with a node reference that does not resolve

    The corridor runs from node 1 over node 2 to node 3, all on level 0;
    node 2 is not in the data set, but the way on level 1 that also refers
    to it has put it on level 10 in the index. *)

Definition corridor : Way := wayOf 40 [1; 2; 3] [].

Definition corridorData : MapData :=
  {| dataSet := {| nodes := [nodeAt 1 0 []; nodeAt 3 10 []; nodeAt 5 20 []];
                   ways := [upperFloor; corridor]; relations := [] |};
     levelMap := [ ({| numericLevel := 10; name := "1" |}, [EWay upperFloor]);
                   ({| numericLevel := 0; name := "0" |}, [EWay corridor]) ];
     boundingBox := BoundingBox_default |}.

(** *** Walls *)

(** A wall from node 1 over node 2, a door, and node 3 to node 4. *)
Definition wallWithDoor : Way := wayOf 50 [1; 2; 3; 4] [].

(** A building relation over the wall; its type is not [multipolygon]. *)
Definition buildingRelation : Relation :=
  {| relation_id := 60; relation_bbox := BoundingBox_default;
     members := [{| member_id := 50; role := "outer"; member_type := TWay |}];
     relation_tags := [{| key := "type"; value := "building" |}] |}.

Definition wallData : MapData :=
  {| dataSet := {| nodes := [nodeAt 1 0 []; nodeAt 2 10 [ {| key := "door"; value := "yes" |} ];
                             nodeAt 3 20 []; nodeAt 4 30 []];
                   ways := [wallWithDoor]; relations := [buildingRelation] |};
     levelMap := [ ({| numericLevel := 0; name := "0" |},
                    [EWay wallWithDoor; ERelation buildingRelation]) ];
     boundingBox := BoundingBox_default |}.

(** A wall none of whose node ids resolves. *)
Definition wallOutside : Way := wayOf 51 [7; 8] [].

End NavMeshBuilderSamples.

(** ** The floor level change model (map-quick/floorlevelchangemodel.cpp) *)

Module FloorLevelChangeModel.
Import OSM Map.

(** What the model uses of declarations outside the sources.

    [toUInt] is [QByteArray::toUInt], 0 when the text is no number.
    [parse] is [LevelParser::parse], as the list of levels it calls back
    with.  [rowForLevel] and [mapLevelAt] are the floor level model's
    [rowForLevel] and its [MapLevelRole] data at a row; [MapLevel_ctor] is
    the constructor [MapLevel(int)].

    Modelled from the spec: [MapLevel]'s comparison operators are not part
    of the sources.  Levels are their numeric value (ten times the floor
    number), so [operator==] is equality of the numeric levels and
    [operator<] a strict total order on them, [level_before]; which way
    it runs is left open. *)
Class Env := {
  toUInt : string -> Z;
  parse : string -> Element -> list Z;
  FloorLevelModel : Type;
  rowForLevel : FloorLevelModel -> Z -> Z;
  mapLevelAt : FloorLevelModel -> Z -> MapLevel;
  MapLevel_ctor : Z -> MapLevel;
  MapLevel_ctor_level : forall l, numericLevel (MapLevel_ctor l) = l;
  level_before : Z -> Z -> bool;
  level_before_irrefl : forall a, level_before a a = false;
  level_before_trans : forall a b c,
      level_before a b = true -> level_before b c = true -> level_before a c = true;
  level_before_total : forall a b, a <> b -> level_before a b = true \/ level_before b a = true
}.

Section FloorLevelChangeModel.
Context `{Env} `{StdSort}.

(** [MapLevel::operator<] and [operator==]. *)
Definition MapLevel_lt (a b : MapLevel) : bool := level_before (numericLevel a) (numericLevel b).
Definition MapLevel_eq (a b : MapLevel) : bool := numericLevel a =? numericLevel b.

(** The members of the model. *)
Record Model := mkModel {
  m_element : Element;
  m_levels : list MapLevel;
  m_currentFloorLevel : Z;
  m_floorLevelModel : option FloorLevelModel }.

(** A default constructed model. *)
Definition initial : Model :=
  {| m_element := Null; m_levels := []; m_currentFloorLevel := 0; m_floorLevelModel := None |}.

(** [Element::tagValue(key, alternative)]: the value of the first of the
    two keys that has a non-empty one.  (The overload is declared outside
    the listed sources; the model takes its two keys in turn.) *)
Definition Element_tagValue2 (e : Element) (key1 key2 : string) : string :=
  let v := Element_tagValue e key1 in
  if negb (isEmpty v) then v else Element_tagValue e key2.

(** [isLevelChangeElement]. *)
Definition isLevelChangeElement (element : Element) : bool :=
  negb (isEmpty (Element_tagValue element "highway"))
  || negb (isEmpty (Element_tagValue element "elevator"))
  || negb (isEmpty (Element_tagValue element "stairwell"))
  || String.eqb (Element_tagValue element "building:part") "elevator"
  || String.eqb (Element_tagValue element "building") "elevator"
  || String.eqb (Element_tagValue element "room") "elevator"
  || String.eqb (Element_tagValue element "levelpart") "elevator_platform"
  || (negb (isEmpty (Element_tagValue element "indoor"))
      && String.eqb (Element_tagValue element "stairs") "yes")
  || String.eqb (Element_tagValue element "room") "stairs".

(** [appendFullFloorLevel], on the level vector. *)
Definition appendFullFloorLevel (fm : option FloorLevelModel) (levels : list MapLevel) (level : Z)
  : list MapLevel :=
  match fm with
  | None => levels ++ [MapLevel_ctor level]
  | Some m =>
      let row := rowForLevel m level in
      if 0 <=? row then levels ++ [mapLevelAt m row] else levels
  end.

(** [appendFloorLevel]. *)
Definition appendFloorLevel (fm : option FloorLevelModel) (levels : list MapLevel) (level : Z)
  : list MapLevel :=
  if isFullLevel level then appendFullFloorLevel fm levels level
  else appendFullFloorLevel fm (appendFullFloorLevel fm levels (fullLevelBelow level))
                            (fullLevelAbove level).

(** The values [i] takes in [for (auto i = lo; i < hi; ++i)]. *)
Definition countUp (lo hi : Z) : list Z :=
  List.map (fun k => lo + Z.of_nat k) (seq 0 (Z.to_nat (hi - lo))).

(** The values [i] takes in [for (auto i = hi; i > 0; --i)]. *)
Definition countDown (hi : Z) : list Z :=
  List.map (fun k => hi - Z.of_nat k) (seq 0 (Z.to_nat hi)).

(** The levels [setElement] appends for a level change element, before it
    sorts them.  [i * 10] and [-i * 10] are computed in [unsigned int] and
    passed as [int]. *)
Definition appendedLevels (fm : option FloorLevelModel) (element : Element) : list MapLevel :=
  let levels := [] in
  let buildingLevels := toUInt (Element_tagValue element "building:levels") in
  let levels :=
    if 0 <? buildingLevels then
      let buildingMinLevel := toUInt (Element_tagValue2 element "building:min_level" "level") in
      fold_left (fun levels i => appendFullFloorLevel fm levels (to_int32 (i * 10)))
                (countUp buildingMinLevel buildingLevels) levels
    else levels in
  let buildingUndergroundLevel := toUInt (Element_tagValue element "building:levels:underground") in
  let levels :=
    fold_left (fun levels i => appendFullFloorLevel fm levels (to_int32 (wrap32 (- i) * 10)))
              (countDown buildingUndergroundLevel) levels in
  fold_left (appendFloorLevel fm)
            (parse (Element_tagValue2 element "level" "repeat_on") element) levels.

(** [std::unique] with [operator==]: of every run of equal elements the
    first stays. *)
Fixpoint unique_from (prev : MapLevel) (l : list MapLevel) : list MapLevel :=
  match l with
  | [] => []
  | b :: r => if MapLevel_eq prev b then unique_from prev r else b :: unique_from b r
  end.

Definition unique (l : list MapLevel) : list MapLevel :=
  match l with
  | [] => []
  | a :: r => a :: unique_from a r
  end.

(** [m_element == element.element()]: the sources compare the references;
    the model compares what they refer to. *)
Definition Element_eqb (a b : Element) : bool := bool_decide (a = b).

(** [setElement]. *)
Definition setElement (element : Element) (st : Model) : Model :=
  if Element_eqb (m_element st) element then st
  else
    {| m_element := element;
       m_levels :=
         if isLevelChangeElement element
         then unique (std_sort MapLevel_lt (appendedLevels (m_floorLevelModel st) element))
         else [];
       m_currentFloorLevel := m_currentFloorLevel st;
       m_floorLevelModel := m_floorLevelModel st |}.

(** [setCurrentFloorLevel]. *)
Definition setCurrentFloorLevel (level : Z) (st : Model) : Model :=
  if m_currentFloorLevel st =? level then st
  else {| m_element := m_element st; m_levels := m_levels st;
          m_currentFloorLevel := level; m_floorLevelModel := m_floorLevelModel st |}.

(** [setFloorLevelModel]. *)
Definition setFloorLevelModel (fm : FloorLevelModel) (st : Model) : Model :=
  {| m_element := m_element st; m_levels := m_levels st;
     m_currentFloorLevel := m_currentFloorLevel st; m_floorLevelModel := Some fm |}.

(** The slot connected to the floor level model's [modelAboutToBeReset]. *)
Definition floorLevelModelReset (st : Model) : Model :=
  {| m_element := Null; m_levels := [];
     m_currentFloorLevel := m_currentFloorLevel st; m_floorLevelModel := m_floorLevelModel st |}.

(** [hasSingleLevelChange]. *)
Definition hasSingleLevelChange (st : Model) : bool :=
  match m_levels st with
  | [l0; l1] =>
      (numericLevel l0 =? m_currentFloorLevel st) || (numericLevel l1 =? m_currentFloorLevel st)
  | _ => false
  end.

(** [destinationLevel]. *)
Definition destinationLevel (st : Model) : Z :=
  match m_levels st with
  | [l0; l1] =>
      if numericLevel l0 =? m_currentFloorLevel st then numericLevel l1 else numericLevel l0
  | _ => 0
  end.

(** [hasMultipleLevelChanges]. *)
Definition hasMultipleLevelChanges (st : Model) : bool := (1 <? length (m_levels st))%nat.

(** The states a model goes through. *)
Inductive reachable : Model -> Prop :=
| reachable_initial : reachable initial
| reachable_setElement element st : reachable st -> reachable (setElement element st)
| reachable_setCurrentFloorLevel level st :
    reachable st -> reachable (setCurrentFloorLevel level st)
| reachable_setFloorLevelModel fm st : reachable st -> reachable (setFloorLevelModel fm st)
| reachable_reset st : reachable st -> reachable (floorLevelModelReset st).

(** *** The level set as the specification words it

    "the union of the building:levels/building:min_level/
    building:levels:underground ranges and the parsed level/repeat_on
    list": the numeric levels of the two ranges and the parsed levels
    themselves. *)
Definition levelsAsSpecified (element : Element) : list Z :=
  let buildingLevels := toUInt (Element_tagValue element "building:levels") in
  (if 0 <? buildingLevels
   then List.map (fun i => to_int32 (i * 10))
                 (countUp (toUInt (Element_tagValue2 element "building:min_level" "level"))
                          buildingLevels)
   else [])
  ++ List.map (fun i => to_int32 (wrap32 (- i) * 10))
              (countDown (toUInt (Element_tagValue element "building:levels:underground")))
  ++ parse (Element_tagValue2 element "level" "repeat_on") element.

(** The full levels a parsed level stands for in the model. *)
Definition fullLevelsOf (level : Z) : list Z :=
  if isFullLevel level then [level] else [fullLevelBelow level; fullLevelAbove level].

(** The numeric levels the model appends when no floor level model is
    set. *)
Definition levelsAppended (element : Element) : list Z :=
  let buildingLevels := toUInt (Element_tagValue element "building:levels") in
  (if 0 <? buildingLevels
   then List.map (fun i => to_int32 (i * 10))
                 (countUp (toUInt (Element_tagValue2 element "building:min_level" "level"))
                          buildingLevels)
   else [])
  ++ List.map (fun i => to_int32 (wrap32 (- i) * 10))
              (countDown (toUInt (Element_tagValue element "building:levels:underground")))
  ++ flat_map fullLevelsOf (parse (Element_tagValue2 element "level" "repeat_on") element).

(** The floor level model, if there is one, has the level [l]. *)
Definition knowsLevel (fm : option FloorLevelModel) (l : Z) : Prop :=
  match fm with
  | None => True
  | Some m => 0 <= rowForLevel m l /\ numericLevel (mapLevelAt m (rowForLevel m l)) = l
  end.

(** Strictly ascending in the order of [operator<]. *)
Definition strictlySorted : list MapLevel -> Prop :=
  StronglySorted (fun a b => MapLevel_lt a b = true).

(** *** The list model interface, the destination name and the title *)

(** [rowCount]; [parentValid] is [parent.isValid()]. *)
Definition rowCount (parentValid : bool) (st : Model) : Z :=
  if parentValid then 0 else Z.of_nat (length (m_levels st)).

(** The roles [data] answers, any other role being [OtherRole], and the
    values it returns. *)
Inductive Role := DisplayRole | FloorLevelRole | CurrentFloorRole | OtherRole.
Inductive QVariant := Invalid | OfString (s : string) | OfInt (z : Z) | OfBool (b : bool).

(** [data]; an invalid index is [None], a valid one its row.  Reading
    [m_levels] past its end is undefined ([None]). *)
Definition data (index : option nat) (role : Role) (st : Model) : option QVariant :=
  match index with
  | None => Some Invalid
  | Some row =>
      match role with
      | DisplayRole => (fun l => OfString (name l)) <$> m_levels st !! row
      | FloorLevelRole => (fun l => OfInt (numericLevel l)) <$> m_levels st !! row
      | CurrentFloorRole =>
          (fun l => OfBool (numericLevel l =? m_currentFloorLevel st)) <$> m_levels st !! row
      | OtherRole => Some Invalid
      end
  end.

(** [std::find_if] and [std::distance]: the position of the first level
    with the numeric level [l], counted from [i]. *)
Fixpoint findLevel (l : Z) (levels : list MapLevel) (i : Z) : Z :=
  match levels with
  | [] => -1
  | ml :: r => if numericLevel ml =? l then i else findLevel l r (i + 1)
  end.

(** [currentFloorLevelRow]. *)
Definition currentFloorLevelRow (st : Model) : Z :=
  findLevel (m_currentFloorLevel st) (m_levels st) 0.

(** [destinationLevelName]. *)
Definition destinationLevelName (st : Model) : string :=
  match m_levels st with
  | [l0; l1] => if numericLevel l0 =? m_currentFloorLevel st then name l1 else name l0
  | _ => ""
  end.

(** The message [title] hands to [i18n], or no title. *)
Inductive Title := TitleElevator | TitleStaircase | NoTitle.

(** [title]. *)
Definition title (st : Model) : Title :=
  let e := m_element st in
  if String.eqb (Element_tagValue e "highway") "elevator"
     || negb (isEmpty (Element_tagValue e "elevator"))
     || String.eqb (Element_tagValue e "building:part") "elevator"
     || String.eqb (Element_tagValue e "building") "elevator"
     || String.eqb (Element_tagValue e "room") "elevator"
     || String.eqb (Element_tagValue e "levelpart") "elevator_platform"
  then TitleElevator
  else if negb (isEmpty (Element_tagValue e "stairwell"))
          || String.eqb (Element_tagValue e "stairs") "yes"
          || String.eqb (Element_tagValue e "room") "stairs"
  then TitleStaircase
  else NoTitle.

(** The level comes from the floor level model: it is the model's level
    at the row the model gives for some numeric level. *)
Definition fromFloorLevelModel (fm : FloorLevelModel) (ml : MapLevel) : Prop :=
  exists l, 0 <= rowForLevel fm l /\ ml = mapLevelAt fm (rowForLevel fm l).

End FloorLevelChangeModel.
End FloorLevelChangeModel.

(** *** Sample data for the model *)

Module FloorLevelChangeModelSamples.
Import OSM Map FloorLevelChangeModel.

Definition digitOf (c : Ascii.ascii) : option Z :=
  let n := Z.of_nat (Ascii.nat_of_ascii c) in
  if (48 <=? n) && (n <=? 57) then Some (n - 48) else None.

(** The number a non-empty string of decimal digits writes. *)
Fixpoint parseDigits (s : string) (acc : option Z) : option Z :=
  match s with
  | EmptyString => acc
  | String c r =>
      match digitOf c with
      | Some d => parseDigits r (Some (10 * default 0 acc + d))
      | None => None
      end
  end.

Fixpoint splitOn (sep : Ascii.ascii) (s : string) : list string :=
  match s with
  | EmptyString => [EmptyString]
  | String c r =>
      if Ascii.eqb c sep then EmptyString :: splitOn sep r
      else match splitOn sep r with
           | h :: t => String c h :: t
           | [] => [String c EmptyString]
           end
  end.

(** Modelled from the spec: "Levels are represented as 10 x human floor (so
    half-levels like 0.5 become 5)".  One level of a level list: an
    optional sign, the floor number and an optional tenth. *)
Definition parseLevel (s : string) : option Z :=
  let '(sign, body) :=
    match s with
    | String c r => if Ascii.eqb c (Ascii.ascii_of_nat 45) then (-1, r) else (1, s)
    | EmptyString => (1, s)
    end in
  match splitOn (Ascii.ascii_of_nat 46) body with
  | [i] => match parseDigits i None with
           | Some v => Some (sign * (10 * v))
           | None => None
           end
  | [i; f] => match parseDigits i None, parseDigits f None with
              | Some v, Some d => Some (sign * (10 * v + d))
              | _, _ => None
              end
  | _ => None
  end.

(** Modelled from the spec: a level list is its levels separated by [;]
    ("level=a;b[;...]"). *)
Definition parseLevels (s : string) : list Z :=
  omap parseLevel (splitOn (Ascii.ascii_of_nat 59) s).

Definition rowOf (m : list MapLevel) (l : Z) : Z :=
  match list_find (fun ml => numericLevel ml = l) m with
  | Some (i, _) => Z.of_nat i
  | None => -1
  end.

(** The floor level model is the list of its levels; [operator<] puts the
    higher level first, the way the level map is kept (the builder's
    [writeGsetFile] takes the last key of the level map as the lowest
    level). *)
#[export, refine] Instance sampleFloorEnv : FloorLevelChangeModel.Env := {|
  toUInt := fun s => match parseDigits s None with
                     | Some n => if n <? 2 ^ 32 then n else 0
                     | None => 0
                     end;
  parse := fun s _ => parseLevels s;
  FloorLevelModel := list MapLevel;
  rowForLevel := rowOf;
  mapLevelAt := fun m row => default {| numericLevel := 0; name := "" |} (m !! Z.to_nat row);
  MapLevel_ctor := fun l => {| numericLevel := l; name := "" |};
  level_before := fun a b => b <? a
|}.
Proof.
  - reflexivity.
  - intros a. apply Z.ltb_irrefl.
  - intros a b c Hab Hbc. apply Z.ltb_lt in Hab, Hbc. apply Z.ltb_lt. lia.
  - intros a b Hne. destruct (Z.lt_total a b) as [Hlt|[Heq|Hgt]].
    + right. now apply Z.ltb_lt.
    + contradiction.
    + left. now apply Z.ltb_lt.
Defined.

Definition elevator : Element :=
  ENode {| node_id := 7; coordinate := Coordinate_default;
           node_tags := [ {| key := "highway"; value := "elevator" |};
                          {| key := "level"; value := "-1;0;1;2" |} ] |}.

Definition halfLevelStairs : Element :=
  ENode {| node_id := 8; coordinate := Coordinate_default;
           node_tags := [ {| key := "stairwell"; value := "yes" |};
                          {| key := "level"; value := "0.5" |} ] |}.

(** A bench: no level change element. *)
Definition bench : Element :=
  ENode {| node_id := 9; coordinate := Coordinate_default;
           node_tags := [ {| key := "amenity"; value := "bench" |};
                          {| key := "level"; value := "1" |} ] |}.

(** Steps tagged [stairs=yes] without an [indoor] tag. *)
Definition outdoorSteps : Element :=
  ENode {| node_id := 10; coordinate := Coordinate_default;
           node_tags := [ {| key := "stairs"; value := "yes" |} ] |}.

(** A floor level model with the ground floor and the first floor. *)
Definition twoFloors : FloorLevelModel :=
  [ {| numericLevel := 10; name := "First floor" |};
    {| numericLevel := 0; name := "Ground floor" |} ].

End FloorLevelChangeModelSamples.

(** *** Sample data for the links of the navigation mesh builder *)

Module NavMeshBuilderLinkSamples.
Import Qt OSM Map NavMeshBuilder NavMeshBuilderSamples FloorLevelChangeModelSamples.

(** The stair data with the entries of its level map the other way
    round. *)
Definition stairsDataSwapped : MapData :=
  {| dataSet := dataSet stairsData;
     levelMap := [ ({| numericLevel := 0; name := "0" |}, [EWay stairs]);
                   ({| numericLevel := 10; name := "1" |}, [EWay upperFloor]) ];
     boundingBox := BoundingBox_default |}.

(** The sample environment with a level parser that reads level lists. *)
Definition levelNavEnv : NavMeshBuilder.Env :=
  {| AreaType := Z;
     Elevator := 2%Z;
     Escalator := 3%Z;
     qToUnderlying := fun a => a;
     number := showQ;
     number_int := showZ;
     mapHeightToNav := fun l => (inject_Z l * (3 # 10))%Q;
     mapGeoToNav := fun c => {| x := inject_Z (longitude c); y := inject_Z (latitude c) |};
     mapGeoToNav_point := fun p =>
       {| x := (x p * inject_Z 10000000)%Q; y := (y p * inject_Z 10000000)%Q |};
     QPolygonF_united := fun p q => p ++ q;
     qTriangulate := fun _ => {| tri_vertices := []; tri_indices := [] |};
     stroke := fun _ _ => [];
     penWidth := fun _ d => doubleValue d;
     LevelParser_parse := fun s _ => parseLevels s;
     evaluate := fun _ => [] |}.

(** An elevator shaft over three floors. *)
Definition shaft : Way :=
  {| way_id := 70; way_bbox := {| bbox_min := {| latitude := 0; longitude := 0 |};
                                  bbox_max := {| latitude := 4; longitude := 8 |} |};
     way_nodes := [1; 2; 3; 1];
     way_tags := [ {| key := "level"; value := "0;1;2" |} ] |}.

Definition areaLayer : MapCSSResultLayer :=
  {| layerSelector := Some "link"; hasAreaProperties := true; hasLineProperties := false;
     hasExtrudeProperties := false; declaration_FillOpacity := None;
     declaration_Width := None; declaration_Extrude := None |}.

Definition linkLayer (name : string) : MapCSSResultLayer :=
  {| layerSelector := Some name; hasAreaProperties := false; hasLineProperties := true;
     hasExtrudeProperties := false; declaration_FillOpacity := None;
     declaration_Width := None; declaration_Extrude := None |}.


(** The sample environment with a triangulator that returns the points of
    the first polygon and the triangle of its first three points. *)
Definition triangleNavEnv : NavMeshBuilder.Env :=
  {| AreaType := Z;
     Elevator := 2%Z;
     Escalator := 3%Z;
     qToUnderlying := fun a => a;
     number := showQ;
     number_int := showZ;
     mapHeightToNav := fun l => (inject_Z l * (3 # 10))%Q;
     mapGeoToNav := fun c => {| x := inject_Z (longitude c); y := inject_Z (latitude c) |};
     mapGeoToNav_point := fun p =>
       {| x := (x p * inject_Z 10000000)%Q; y := (y p * inject_Z 10000000)%Q |};
     QPolygonF_united := fun p q => p ++ q;
     qTriangulate := fun paths =>
       match paths with
       | p :: _ => {| tri_vertices := p; tri_indices := [0; 1; 2] |}
       | [] => {| tri_vertices := []; tri_indices := [] |}
       end;
     stroke := fun _ _ => [];
     penWidth := fun _ d => doubleValue d;
     LevelParser_parse := fun s _ => [];
     evaluate := fun _ => [] |}.

(** A room over the nodes 1, 2 and 5 of the stair data. *)
Definition room : Way := wayOf 80 [1; 2; 5; 1] [].

Definition fillLayer : MapCSSResultLayer :=
  {| layerSelector := None; hasAreaProperties := true; hasLineProperties := false;
     hasExtrudeProperties := false; declaration_FillOpacity := Some {| doubleValue := 1 |};
     declaration_Width := None; declaration_Extrude := None |}.

End NavMeshBuilderLinkSamples.

(** ** MapCSS conditions (style/mapcsscondition.cpp, style/mapcssstate_p.h) *)

Module MapCSS.
Import OSM.

(** The style evaluation state, as far as conditions read it. *)
Record MapCSSState := mkMapCSSState {
  state_element : Element;
  zoomLevel : Q;
  floorLevel : Z }.

(** [MapCSSCondition::op]. *)
Inductive Operator := OpNone | Equal | NotEqual.

Record MapCSSCondition := mkMapCSSCondition {
  m_key : string;
  m_value : string;
  op : Operator }.

(** [MapCSSCondition::matches]. *)
Definition matches (c : MapCSSCondition) (state : MapCSSState) : bool :=
  let v := Element_tagValue (state_element state) (m_key c) in
  match op c with
  | OpNone => negb (isEmpty v)
  | Equal => String.eqb v (m_value c)
  | NotEqual => negb (String.eqb v (m_value c))
  end.

(** [MapCSSCondition::write], as the text written. *)
Definition write (c : MapCSSCondition) : string :=
  "[" +:+ m_key c
  +:+ match op c with
      | OpNone => "]"
      | Equal => "=" +:+ m_value c +:+ "]"
      | NotEqual => "!=" +:+ m_value c +:+ "]"
      end.

End MapCSS.

(* ================================================================== *)
(** * Part II: properties                                              *)
(* ================================================================== *)

(** ** The OSM element model *)

Module OSMFacts.
Import OSM OSMSamples.

Lemma lookup_id_Some {A : Type} (id_of : A -> Id) (l : list A) (i : Id) (x : A) :
  lookup_id id_of l i = Some x -> id_of x = i /\ In x l.
Proof.
  unfold lookup_id.
  assert (Hs : forall y, In y (lower_bound id_of l i) -> In y l).
  { induction l as [|a l IH]; simpl; [tauto|].
    destruct (id_of a <? i); simpl; intuition. }
  destruct (lower_bound id_of l i) as [|y s] eqn:E; [discriminate|].
  destruct (id_of y =? i) eqn:Ei; [|discriminate].
  intros [= <-]. split; [lia|]. apply Hs. now left.
Qed.

Lemma appendNodesFromWay_app (ds : DataSet) (ids : list Id) :
  forall ns, appendNodesFromWay ds ns ids = ns ++ resolve ds ids.
Proof.
  unfold resolve.
  induction ids as [|i r IH]; intros ns; simpl.
  - now rewrite app_nil_r.
  - destruct (lookup_id node_id (nodes ds) i) as [n|].
    + rewrite (IH (ns ++ [n])), (IH [n]). now rewrite <- app_assoc.
    + apply IH.
Qed.

Lemma resolve_cons (ds : DataSet) (i : Id) (r : list Id) :
  resolve ds (i :: r) =
  match lookup_id node_id (nodes ds) i with
  | Some n => n :: resolve ds r
  | None => resolve ds r
  end.
Proof.
  unfold resolve at 1. simpl.
  destruct (lookup_id node_id (nodes ds) i) as [n|]; [|reflexivity].
  now rewrite appendNodesFromWay_app.
Qed.

Lemma resolve_ids (ds : DataSet) (ids : list Id) :
  allResolve ds ids -> map node_id (resolve ds ids) = ids.
Proof.
  induction 1 as [|i r [n Hn] _ IH]; [reflexivity|].
  rewrite resolve_cons, Hn. simpl. rewrite IH.
  now destruct (lookup_id_Some _ _ _ _ Hn) as [-> _].
Qed.

Lemma appendNextPath_from_pick (ds : DataSet) (ns : list Node) (s : Id) (rest : list Way) :
  forall pre,
    appendNextPath_from ds ns s pre rest =
    match pick s rest with
    | None => (0, ns, pre ++ rest)
    | Some (w, d, rest') =>
        (if d then front w else back w, ns ++ piece ds (w, d), pre ++ rest')
    end.
Proof.
  induction rest as [|w r IH]; intros pre; simpl.
  - now rewrite app_nil_r.
  - destruct (front w =? s); [now rewrite appendNodesFromWay_app|].
    destruct (back w =? s); [now rewrite appendNodesFromWay_app|].
    rewrite IH. destruct (pick s r) as [[[w' d] r']|]; now rewrite <- app_assoc.
Qed.

Lemma pick_Some (s : Id) (rest : list Way) (w : Way) (d : bool) (rest' : list Way) :
  pick s rest = Some (w, d, rest') ->
  Permutation rest (w :: rest') /\
  (if d then back w = s /\ front w <> s else front w = s).
Proof.
  revert rest'. induction rest as [|a r IH]; intros rest'; simpl; [discriminate|].
  destruct (front a =? s) eqn:Ef.
  { intros [= -> <- <-]. split; [reflexivity|lia]. }
  destruct (back a =? s) eqn:Eb.
  { intros [= -> <- <-]. split; [reflexivity|lia]. }
  destruct (pick s r) as [[[w' d'] r']|]; [|discriminate].
  intros [= -> -> <-]. destruct (IH _ eq_refl) as [Hp Hd].
  split; [|exact Hd]. rewrite Hp. apply perm_swap.
Qed.

Lemma pick_None (s : Id) (rest : list Way) :
  Forall (fun w => front w <> s /\ back w <> s) rest -> pick s rest = None.
Proof.
  induction 1 as [|w r [Hf Hb] _ IH]; simpl; [reflexivity|].
  destruct (front w =? s) eqn:Ef; [lia|].
  destruct (back w =? s) eqn:Eb; [lia|]. now rewrite IH.
Qed.

(** The inner loop keeps the way it started from at the head, appends the
    pieces of the ways it consumes and erases exactly those. *)
Lemma stitchLoop_consumes (ds : DataSet) (start : Id) (w0 : Way) :
  forall fuel ns lastNode r,
  exists (cs : list (Way * bool)) (r' : list Way),
    stitchLoop fuel ds ns start lastNode (w0 :: r) =
      (ns ++ concat (map (piece ds) cs), w0 :: r') /\
    Permutation r (map fst cs ++ r').
Proof.
  induction fuel as [|fuel IH]; intros ns lastNode r; simpl.
  - exists [], r. simpl. now rewrite app_nil_r.
  - rewrite appendNextPath_from_pick.
    destruct (pick lastNode r) as [[[w d] r1]|] eqn:Ep; simpl.
    + destruct (pick_Some _ _ _ _ _ Ep) as [Hp _].
      destruct (_ && _).
      * destruct (IH (ns ++ piece ds (w, d)) (if d then front w else back w) r1)
          as (cs & r' & -> & Hp').
        exists ((w, d) :: cs), r'. simpl. rewrite <- app_assoc. split; [reflexivity|].
        rewrite Hp. now constructor.
      * exists [(w, d)], r1. simpl. now rewrite app_nil_r.
    + exists [], r. simpl. now rewrite app_nil_r.
Qed.

(** The fuel of the inner loop is never what ends it: with at least
    [length ways] iterations allowed the loop has ended by its own
    condition, so more fuel changes nothing. *)
Lemma stitchLoop_fuel (ds : DataSet) (start : Id) :
  forall fuel1 fuel2 ns lastNode ws,
    (length ws <= fuel1)%nat -> (length ws <= fuel2)%nat -> ws <> [] ->
    stitchLoop fuel1 ds ns start lastNode ws = stitchLoop fuel2 ds ns start lastNode ws.
Proof.
  induction fuel1 as [|fuel1 IH]; intros fuel2 ns lastNode ws H1 H2 Hne.
  { destruct ws; [congruence|simpl in H1; lia]. }
  destruct fuel2 as [|fuel2]; [destruct ws; [congruence|simpl in H2; lia]|].
  destruct ws as [|w0 r]; [congruence|]. simpl in *.
  rewrite appendNextPath_from_pick.
  destruct (pick lastNode r) as [[[w d] r1]|] eqn:Ep; simpl.
  - destruct (pick_Some _ _ _ _ _ Ep) as [Hp _].
    apply Permutation_length in Hp. simpl in Hp.
    destruct (_ && _); [|reflexivity].
    apply IH; simpl; [lia|lia|discriminate].
  - reflexivity.
Qed.

Lemma stitchWays_consumes (ds : DataSet) :
  forall fuel ns ws, (length ws <= fuel)%nat ->
  exists cs : list (Way * bool),
    stitchWays fuel ds ns ws = ns ++ concat (map (piece ds) cs) /\
    Permutation ws (map fst cs).
Proof.
  induction fuel as [|fuel IH]; intros ns ws Hlen.
  { destruct ws; [|simpl in Hlen; lia]. exists []. simpl. now rewrite app_nil_r. }
  destruct ws as [|w0 r].
  { exists []. simpl. now rewrite app_nil_r. }
  cbn [stitchWays].
  destruct (stitchLoop_consumes ds (front w0) w0 (length (w0 :: r))
              (appendNodesFromWay ds ns (way_nodes w0)) (back w0) r)
    as (cs & r' & -> & Hp).
  cbn [tl].
  destruct (IH (appendNodesFromWay ds ns (way_nodes w0) ++ concat (map (piece ds) cs)) r')
    as (cs' & -> & Hp').
  { apply Permutation_length in Hp. rewrite length_app in Hp. simpl in Hlen. lia. }
  exists ((w0, false) :: cs ++ cs'). split.
  - rewrite appendNodesFromWay_app. simpl. unfold piece at 3. simpl.
    rewrite map_app, concat_app. now rewrite <- !app_assoc.
  - simpl. constructor. rewrite map_app, Hp. apply Permutation_app_head, Hp'.
Qed.

(** The outer loop does not run out of fuel either. *)
Lemma stitchWays_fuel (ds : DataSet) :
  forall fuel1 fuel2 ns ws,
    (length ws <= fuel1)%nat -> (length ws <= fuel2)%nat ->
    stitchWays fuel1 ds ns ws = stitchWays fuel2 ds ns ws.
Proof.
  induction fuel1 as [|fuel1 IH]; intros fuel2 ns ws H1 H2.
  { destruct ws; [|simpl in H1; lia]. now destruct fuel2. }
  destruct fuel2 as [|fuel2]; [destruct ws; [reflexivity|simpl in H2; lia]|].
  destruct ws as [|w0 r]; [reflexivity|]. cbn [stitchWays].
  destruct (stitchLoop_consumes ds (front w0) w0 (length (w0 :: r))
              (appendNodesFromWay ds ns (way_nodes w0)) (back w0) r)
    as (cs & r' & -> & Hp).
  cbn [tl]. apply Permutation_length in Hp. rewrite length_app in Hp.
  simpl in H1, H2. apply IH; lia.
Qed.

Lemma hd_head {A : Type} (d : A) (l : list A) : l <> [] -> head l = Some (hd d l).
Proof. now destruct l. Qed.

Lemma List_last_last {A : Type} (d : A) (l : list A) : l <> [] -> last l = Some (List.last l d).
Proof.
  induction l as [|a [|b l] IH]; intros Hne; [congruence|reflexivity|].
  change (last (a :: b :: l)) with (last (b :: l)).
  change (List.last (a :: b :: l) d) with (List.last (b :: l) d).
  now apply IH.
Qed.

Lemma head_map {A B : Type} (f : A -> B) (l : list A) : head (map f l) = f <$> head l.
Proof. now destruct l. Qed.

Lemma last_map {A B : Type} (f : A -> B) (l : list A) : last (map f l) = f <$> last l.
Proof.
  induction l as [|a [|b l] IH]; [reflexivity|reflexivity|].
  change (last (map f (a :: b :: l))) with (last (map f (b :: l))).
  now rewrite IH.
Qed.

(** A ring whose nodes all resolve contributes a closed loop. *)
Lemma closedWay_closedLoop (ds : DataSet) (w : Way) :
  closedWay w -> allResolve ds (way_nodes w) -> closedLoop (resolve ds (way_nodes w)).
Proof.
  intros [Hlen Hfb] Hres. pose proof (resolve_ids ds _ Hres) as Hids.
  assert (Hne : way_nodes w <> []) by (destruct (way_nodes w); [simpl in Hlen; lia|discriminate]).
  split.
  - rewrite <- (length_map node_id), Hids. exact Hlen.
  - rewrite <- head_map, <- last_map, Hids.
    rewrite (hd_head 0 _ Hne), (List_last_last 0 _ Hne).
    f_equal. exact Hfb.
Qed.

(** Rings that start at pairwise different nodes are never stitched to
    each other: they come out one after another, in the order of the
    ways. *)
Lemma stitchWays_rings (ds : DataSet) :
  forall fuel ns ws, (length ws <= fuel)%nat ->
    Forall closedWay ws -> NoDup (map front ws) ->
    stitchWays fuel ds ns ws = ns ++ concat (map (fun w => resolve ds (way_nodes w)) ws).
Proof.
  induction fuel as [|fuel IH]; intros ns ws Hlen Hc Hnd.
  { destruct ws; [|simpl in Hlen; lia]. simpl. now rewrite app_nil_r. }
  destruct ws as [|w0 r]; [simpl; now rewrite app_nil_r|].
  inversion Hc as [|? ? [_ Hw0] Hr]; subst.
  inversion Hnd as [|? ? Hnotin Hnd']; subst.
  cbn [stitchWays length stitchLoop appendNextPath].
  rewrite appendNextPath_from_pick, pick_None.
  - cbn [Z.eqb negb andb tl app]. rewrite IH; [|simpl in Hlen; lia|assumption|assumption].
    rewrite appendNodesFromWay_app. simpl. now rewrite <- app_assoc.
  - rewrite Forall_forall. intros w Hw.
    assert (Hf : front w <> front w0).
    { intros E. apply Hnotin. rewrite <- E. now apply list_elem_of_In, in_map, list_elem_of_In. }
    rewrite Forall_forall in Hr. destruct (Hr w Hw) as [_ Hwc].
    rewrite <- Hw0, <- Hwc. tauto.
Qed.

Lemma collectOuterWays_nonempty (ds : DataSet) (ms : list Member) :
  Forall (fun w => way_nodes w <> []) (collectOuterWays ds ms).
Proof.
  induction ms as [|m r IH]; simpl; [constructor|].
  destruct (negb (String.eqb (role m) "outer")); [assumption|].
  destruct (lookup_id way_id (ways ds) (member_id m)) as [w|]; [|assumption].
  destruct (way_nodes w) eqn:E; simpl; [assumption|].
  constructor; [now rewrite E|assumption].
Qed.

Example outerPath_two_rings :
  map node_id (outerPath sampleDataSet (ERelation (sampleMultipolygon [10; 11])))
  = [1; 2; 3; 1; 4; 5; 6; 4].
Proof. reflexivity. Qed.

Example outerPath_two_rings_swapped :
  map node_id (outerPath sampleDataSet (ERelation (sampleMultipolygon [11; 10])))
  = [4; 5; 6; 4; 1; 2; 3; 1].
Proof. reflexivity. Qed.

(** C2, as stated, fails: a multipolygon whose single outer way (non-empty,
    all of its nodes in the data set) is not a ring yields that way's nodes,
    which no splitting turns into closed loops. *)
Lemma outerPath_open_way_not_closed :
  Element_tagValue (ERelation (sampleMultipolygon [12])) "type" = "multipolygon" /\
  collectOuterWays sampleDataSet (members (sampleMultipolygon [12])) = [sampleWay 12 [1; 2; 3]] /\
  allResolve sampleDataSet [1; 2; 3] /\
  outerPath sampleDataSet (ERelation (sampleMultipolygon [12])) = map sampleNode [1; 2; 3] /\
  ~ concatOfClosedLoops (outerPath sampleDataSet (ERelation (sampleMultipolygon [12]))).
Proof.
  split; [reflexivity|]. split; [reflexivity|].
  split; [repeat constructor; eexists; reflexivity|].
  split; [reflexivity|].
  change (outerPath sampleDataSet (ERelation (sampleMultipolygon [12])))
    with (map sampleNode [1; 2; 3]).
  intros (loops & Hcat & Hall).
  destruct loops as [|l1 ls]; [discriminate|].
  inversion Hall as [|? ? [Hlen Hends] _]; subst.
  simpl in Hcat.
  destruct l1 as [|a [|b [|c [|d l1]]]]; simpl in Hlen; try lia;
    simpl in Hcat; [| |discriminate];
    injection Hcat as <- <-; try subst; vm_compute in Hends; discriminate.
Qed.

Lemma pick_split (s : Id) (rest : list Way) (w : Way) (d : bool) (rest' : list Way) :
  pick s rest = Some (w, d, rest') ->
  exists pre post, rest = pre ++ w :: post /\ rest' = pre ++ post /\ appendedAt s (w, d).
Proof.
  revert rest'. induction rest as [|a r IH]; intros rest'; simpl; [discriminate|].
  destruct (front a =? s) eqn:Ef.
  { intros [= -> <- <-]. exists [], r. repeat split. unfold appendedAt. simpl. lia. }
  destruct (back a =? s) eqn:Eb.
  { intros [= -> <- <-]. exists [], r. repeat split; unfold appendedAt; simpl; lia. }
  destruct (pick s r) as [[[w' d'] r']|]; [|discriminate].
  intros [= -> -> <-]. destruct (IH _ eq_refl) as (pre & post & -> & -> & Ha).
  exists (a :: pre), post. repeat split; assumption.
Qed.

Lemma pick_no_match (s : Id) (rest : list Way) :
  pick s rest = None -> Forall (fun w => front w <> s /\ back w <> s) rest.
Proof.
  induction rest as [|a r IH]; simpl; [constructor|].
  destruct (front a =? s) eqn:Ef; [discriminate|].
  destruct (back a =? s) eqn:Eb; [discriminate|].
  destruct (pick s r) as [[[w' d'] r']|]; [discriminate|].
  intros _. constructor; [lia|now apply IH].
Qed.

(** The inner loop appends ways by the rule of [appendNextPath], each at
    the end node of the one before, and ends at the start node, at the node
    id 0, or where no way that is left matches. *)
Lemma stitchLoop_trail (ds : DataSet) (start : Id) (w0 : Way) :
  forall fuel ns e r, (length r < fuel)%nat ->
  exists (cs : list (Way * bool)) (r' : list Way),
    stitchLoop fuel ds ns start e (w0 :: r) = (ns ++ concat (map (piece ds) cs), w0 :: r') /\
    Permutation r (map fst cs ++ r') /\
    sublist r' r /\
    linkedFrom e cs /\
    ((cs <> [] /\ (endFrom e cs = start \/ endFrom e cs = 0)) \/
     Forall (fun w => front w <> endFrom e cs /\ back w <> endFrom e cs) r').
Proof.
  induction fuel as [|fuel IH]; intros ns e r Hlen; [lia|].
  simpl. rewrite appendNextPath_from_pick.
  destruct (pick e r) as [[[w d] r1]|] eqn:Ep; simpl.
  - destruct (pick_split _ _ _ _ _ Ep) as (pre & post & -> & -> & Ha).
    assert (Hs : sublist (pre ++ post) (pre ++ w :: post)).
    { apply sublist_app; [reflexivity|]. now apply sublist_cons. }
    assert (Hp : Permutation (pre ++ w :: post) (w :: pre ++ post)).
    { symmetry. apply Permutation_middle. }
    destruct (negb _ && negb _) eqn:Ec.
    + destruct (IH (ns ++ piece ds (w, d)) (if d then front w else back w) (pre ++ post))
        as (cs & r' & -> & Hp' & Hs' & Hl & Hstop).
      { rewrite !length_app in *. simpl in Hlen. lia. }
      exists ((w, d) :: cs), r'. simpl. rewrite <- app_assoc.
      split; [reflexivity|]. split; [rewrite Hp; now constructor|].
      split; [now transitivity (pre ++ post)|].
      split; [split; [exact Ha|exact Hl]|].
      destruct Hstop as [[Hne Hend]|Hno]; [left; split; [discriminate|exact Hend]|now right].
    + exists [(w, d)], (pre ++ post). simpl. rewrite app_nil_r.
      split; [reflexivity|]. split; [exact Hp|]. split; [exact Hs|].
      split; [split; [exact Ha|exact I]|].
      left. split; [discriminate|]. unfold exit. simpl.
      apply andb_false_iff in Ec. destruct Ec as [Ec|Ec]; apply negb_false_iff in Ec; lia.
  - exists [], r. simpl. rewrite app_nil_r.
    split; [reflexivity|]. split; [reflexivity|]. split; [reflexivity|].
    split; [exact I|]. right. now apply pick_no_match.
Qed.

(** The stitching splits the ways into sub-loops. *)
Lemma stitchWays_loops (ds : DataSet) :
  forall fuel ns ws, (length ws <= fuel)%nat ->
  exists loops : list (list (Way * bool)),
    stitchWays fuel ds ns ws = ns ++ concat (map (loopNodes ds) loops) /\
    Permutation ws (map fst (concat loops)) /\
    Forall subLoop loops /\
    sublist (loopStarts loops) ws /\
    maximalLoops loops.
Proof.
  induction fuel as [|fuel IH]; intros ns ws Hlen.
  { destruct ws; [|simpl in Hlen; lia]. exists []. simpl. rewrite app_nil_r.
    repeat split; constructor. }
  destruct ws as [|w0 r].
  { exists []. simpl. rewrite app_nil_r. repeat split; constructor. }
  cbn [stitchWays].
  destruct (stitchLoop_trail ds (front w0) w0 (length (w0 :: r))
              (appendNodesFromWay ds ns (way_nodes w0)) (back w0) r)
    as (cs & r' & -> & Hp & Hs & Hl & Hstop); [simpl; lia|].
  cbn [tl].
  destruct (IH (appendNodesFromWay ds ns (way_nodes w0) ++ concat (map (piece ds) cs)) r')
    as (loops & -> & Hp' & Hsub & Hst & Hmax).
  { apply Permutation_length in Hp. rewrite length_app in Hp. simpl in Hlen. lia. }
  exists (((w0, false) :: cs) :: loops).
  split; [|split; [|split; [|split]]].
  - rewrite appendNodesFromWay_app. cbn [map concat].
    change (loopNodes ds ((w0, false) :: cs))
      with (resolve ds (way_nodes w0) ++ concat (map (piece ds) cs)).
    now rewrite <- !app_assoc.
  - cbn [concat map app fst]. constructor. rewrite map_app, Hp.
    now apply Permutation_app_head.
  - constructor; [split; [reflexivity|exact Hl]|exact Hsub].
  - cbn. apply sublist_skip. now transitivity r'.
  - split; [|exact Hmax]. cbn [loopEnd loopStart entry exit fst snd].
    destruct Hstop as [[_ [He|He]]|Hno]; [now left|right; now left|].
    right. right. revert Hno. apply Permutation_Forall. exact Hp'.
Qed.

Lemma endCount_cons (i : Id) (w : Way) (ws : list Way) :
  endCount i (w :: ws)
  = (Nat.b2n (Z.eqb (front w) i) + Nat.b2n (Z.eqb (back w) i) + endCount i ws)%nat.
Proof.
  unfold endCount, ends. cbn [flat_map app count_occ].
  destruct (Z.eq_dec (front w) i) as [Ef|Ef], (Z.eq_dec (back w) i) as [Eb|Eb];
    [ apply Z.eqb_eq in Ef, Eb | apply Z.eqb_eq in Ef; apply Z.eqb_neq in Eb
    | apply Z.eqb_neq in Ef; apply Z.eqb_eq in Eb | apply Z.eqb_neq in Ef, Eb ];
    rewrite Ef, Eb; reflexivity.
Qed.

Lemma endCount_app (i : Id) (ws1 ws2 : list Way) :
  endCount i (ws1 ++ ws2) = (endCount i ws1 + endCount i ws2)%nat.
Proof.
  induction ws1 as [|w r IH]; [reflexivity|].
  cbn [app]. rewrite !endCount_cons, IH. lia.
Qed.

Lemma ends_perm (ws1 ws2 : list Way) : Permutation ws1 ws2 -> Permutation (ends ws1) (ends ws2).
Proof. intros Hp. unfold ends. now apply Permutation_flat_map. Qed.

Lemma endCount_perm (i : Id) (ws1 ws2 : list Way) :
  Permutation ws1 ws2 -> endCount i ws1 = endCount i ws2.
Proof.
  intros Hp. unfold endCount.
  apply (proj1 (Permutation_count_occ Z.eq_dec _ _) (ends_perm _ _ Hp)).
Qed.

Lemma endCount_zero (i : Id) (ws : list Way) :
  Forall (fun w => front w <> i /\ back w <> i) ws -> endCount i ws = 0%nat.
Proof.
  induction 1 as [|w r [Hf Hb] _ IH]; [reflexivity|].
  rewrite endCount_cons, IH.
  apply Z.eqb_neq in Hf, Hb. now rewrite Hf, Hb.
Qed.

Lemma canClose_spec (ws : list Way) :
  canClose ws = true <->
  ~ In 0 (ends ws) /\ forall i, Nat.even (endCount i ws) = true.
Proof.
  unfold canClose. rewrite forallb_forall. split.
  - intros H. split.
    + intros H0. specialize (H 0 H0). simpl in H. discriminate.
    + intros i. destruct (in_dec Z.eq_dec i (ends ws)) as [Hi|Hi].
      * specialize (H i Hi). now apply andb_true_iff in H.
      * unfold endCount. now rewrite (proj1 (count_occ_not_In Z.eq_dec _ _) Hi).
  - intros [H0 He] i Hi. apply andb_true_iff. split; [|apply He].
    apply negb_true_iff, Z.eqb_neq. intros ->. contradiction.
Qed.

(** A chain of ways from [e] has [e] and the node it ends at as its only
    node ids with an odd number of way ends. *)
Lemma linked_parity (i : Id) (cs : list (Way * bool)) :
  forall e, linkedFrom e cs ->
    Nat.odd (endCount i (map fst cs)) = xorb (i =? e) (i =? endFrom e cs).
Proof.
  induction cs as [|[w d] cs IH]; intros e Hl.
  { cbn. now rewrite xorb_nilpotent. }
  destruct Hl as [Ha Hl]. cbn [map fst endFrom]. rewrite endCount_cons.
  rewrite !Nat.odd_add, (IH _ Hl).
  unfold appendedAt in Ha. unfold exit. cbn [fst snd] in *.
  destruct d.
  - destruct Ha as [Hf <-].
    rewrite (Z.eqb_sym i (back w)), (Z.eqb_sym i (front w)).
    destruct (front w =? i), (back w =? i), (i =? endFrom (front w) cs); reflexivity.
  - subst e.
    rewrite (Z.eqb_sym i (back w)), (Z.eqb_sym i (front w)).
    destruct (front w =? i), (back w =? i), (i =? endFrom (back w) cs); reflexivity.
Qed.

Lemma endFrom_end (cs : list (Way * bool)) :
  forall e, cs <> [] -> In (endFrom e cs) (ends (map fst cs)).
Proof.
  induction cs as [|[w d] cs IH]; intros e Hne; [congruence|].
  cbn [endFrom map fst]. unfold ends. cbn [flat_map]. fold (ends (map fst cs)).
  destruct cs as [|c cs'].
  - cbn. unfold exit. cbn. destruct d; tauto.
  - right. right. apply IH. discriminate.
Qed.

Lemma subLoop_parity (i : Id) (lp : list (Way * bool)) :
  subLoop lp ->
  Nat.odd (endCount i (map fst lp)) = xorb (i =? loopStart lp) (i =? loopEnd lp).
Proof.
  destruct lp as [|[w d] cs]; [contradiction|]. intros [Hd Hl]. cbn in Hd. subst d.
  apply (linked_parity i ((w, false) :: cs) (front w)). split; [reflexivity|exact Hl].
Qed.

(** When the ways can close, every sub-loop does. *)
Lemma loops_close (loops : list (list (Way * bool))) :
  ~ In 0 (ends (map fst (concat loops))) ->
  (forall i, Nat.even (endCount i (map fst (concat loops))) = true) ->
  Forall subLoop loops -> maximalLoops loops -> Forall closes loops.
Proof.
  induction loops as [|lp post IH]; intros H0 He Hsub Hmax; [constructor|].
  inversion Hsub as [|? ? Hlp Hpost]; subst. destruct Hmax as [Hstop Hmax].
  cbn [concat] in H0, He. rewrite map_app in H0, He.
  assert (Hclose : loopEnd lp = loopStart lp).
  { destruct Hstop as [Hc|[Hz|Hno]]; [exact Hc| |].
    - exfalso. apply H0. unfold ends. rewrite flat_map_app. apply in_or_app. left.
      destruct lp as [|c cs]; [contradiction|]. rewrite <- Hz.
      apply (endFrom_end (c :: cs) (entry c)). discriminate.
    - destruct (Z.eq_dec (loopEnd lp) (loopStart lp)) as [E|E]; [exact E|exfalso].
      specialize (He (loopEnd lp)). rewrite endCount_app, (endCount_zero _ _ Hno) in He.
      rewrite Nat.add_0_r in He.
      pose proof (subLoop_parity (loopEnd lp) lp Hlp) as Hodd.
      rewrite Z.eqb_refl in Hodd. apply Z.eqb_neq in E. rewrite E in Hodd. simpl in Hodd.
      rewrite <- Nat.negb_even, He in Hodd. discriminate. }
  constructor; [exact Hclose|]. apply IH; [| |exact Hpost|exact Hmax].
  - intros Hin. apply H0. unfold ends in *. rewrite flat_map_app. apply in_or_app. now right.
  - intros i. specialize (He i). rewrite endCount_app in He.
    pose proof (subLoop_parity i lp Hlp) as Hodd.
    rewrite Hclose, xorb_nilpotent in Hodd.
    rewrite Nat.even_add in He. rewrite <- Nat.negb_even in Hodd.
    destruct (Nat.even (endCount i (map fst lp))); [|discriminate].
    now destruct (Nat.even (endCount i (map fst (concat post)))).
Qed.

Lemma directed_head (c : Way * bool) :
  way_nodes (fst c) <> [] -> head (directed c) = Some (entry c).
Proof.
  destruct c as [w d]. unfold directed, entry, front, back. cbn [fst snd]. intros Hne.
  destruct d; [|now apply hd_head].
  destruct (way_nodes w) as [|a l] using rev_ind; [congruence|].
  rewrite rev_app_distr, last_last. reflexivity.
Qed.

Lemma directed_last (c : Way * bool) :
  way_nodes (fst c) <> [] -> last (directed c) = Some (exit c).
Proof.
  destruct c as [w d]. unfold directed, exit, front, back. cbn [fst snd]. intros Hne.
  destruct d; [|now apply List_last_last].
  destruct (way_nodes w) as [|a l]; [congruence|].
  cbn [rev hd]. now rewrite last_snoc.
Qed.

Lemma piece_ids (ds : DataSet) (c : Way * bool) :
  allResolve ds (way_nodes (fst c)) -> map node_id (piece ds c) = directed c.
Proof.
  intros Hres. unfold piece, directed. destruct (snd c); apply resolve_ids; [|exact Hres].
  now apply List.Forall_rev.
Qed.

Lemma last_concat_directed (cs : list (Way * bool)) :
  forall c, Forall (fun c => way_nodes (fst c) <> []) (c :: cs) ->
    last (concat (map directed (c :: cs))) = Some (endFrom (exit c) cs).
Proof.
  induction cs as [|c' cs IH]; intros c Hne; inversion Hne as [|? ? Hc Hcs]; subst.
  - cbn [map concat endFrom]. rewrite app_nil_r. now apply directed_last.
  - change (concat (map directed (c :: c' :: cs)))
      with (directed c ++ concat (map directed (c' :: cs))).
    rewrite last_app, (IH c' Hcs). reflexivity.
Qed.

(** A sub-loop that closes, of ways with two nodes or more whose nodes all
    resolve, contributes a closed loop. *)
Lemma closes_closedLoop (ds : DataSet) (lp : list (Way * bool)) :
  lp <> [] -> closes lp ->
  Forall (fun c => (2 <= length (way_nodes (fst c)))%nat /\
                   allResolve ds (way_nodes (fst c))) lp ->
  closedLoop (loopNodes ds lp).
Proof.
  intros Hne Hclose Hall.
  assert (Hids : map node_id (loopNodes ds lp) = concat (map directed lp)).
  { unfold loopNodes. rewrite concat_map, map_map.
    f_equal. apply map_ext_Forall. revert Hall. apply List.Forall_impl.
    intros c [_ Hres]. now apply piece_ids. }
  assert (Hnn : Forall (fun c => way_nodes (fst c) <> []) lp).
  { revert Hall. apply List.Forall_impl. intros c [Hlen _] E. rewrite E in Hlen. simpl in Hlen. lia. }
  destruct lp as [|c cs]; [congruence|].
  inversion Hall as [|? ? [Hlen Hres] _]; subst.
  inversion Hnn as [|? ? Hc _]; subst.
  split.
  - rewrite <- (length_map node_id), Hids. cbn [map concat]. rewrite length_app.
    assert (length (directed c) = length (way_nodes (fst c))) as ->
      by (unfold directed; destruct (snd c); [apply length_rev|reflexivity]).
    lia.
  - rewrite <- head_map, <- last_map, Hids, (last_concat_directed cs c Hnn).
    cbn [map concat]. pose proof (directed_head c Hc) as Hh.
    destruct (directed c) as [|a l]; [discriminate|]. cbn [app head] in *.
    rewrite Hh. f_equal. symmetry. exact Hclose.
Qed.


(** C2 (amended).  For a relation tagged type=multipolygon, [outerPath]
    consumes each collected outer way exactly once, in sub-loops: a
    sub-loop starts with a way that is left, appended forward, and each
    further way is appended at the node the one before ends at, forward
    when its first node is that node and reversed when its first node is
    not but its last node is; the sub-loops start in member order, and a
    sub-loop only ends at its start node, at the node id 0 or where none of
    the ways that are left starts or ends.  When the ways can close (every
    node id is the first or last node of an even number of way ends, none
    of them the id 0), every sub-loop ends at its start node, and if
    moreover every way has two nodes or more and all its nodes resolve, the
    result is a concatenation of closed loops.  Rings that start at
    pairwise different nodes and whose nodes all resolve come out one after
    another in member order, each a closed loop. *)
Theorem outerPath_multipolygon (ds : DataSet) (r : Relation) :
  Element_tagValue (ERelation r) "type" = "multipolygon" ->
  (exists loops : list (list (Way * bool)),
      outerPath ds (ERelation r) = concat (map (loopNodes ds) loops) /\
      Permutation (collectOuterWays ds (members r)) (map fst (concat loops)) /\
      Forall subLoop loops /\
      sublist (loopStarts loops) (collectOuterWays ds (members r)) /\
      maximalLoops loops /\
      (canClose (collectOuterWays ds (members r)) = true ->
       Forall closes loops /\
       (Forall (fun w => (2 <= length (way_nodes w))%nat /\ allResolve ds (way_nodes w))
               (collectOuterWays ds (members r)) ->
        Forall closedLoop (map (loopNodes ds) loops)))) /\
  (Forall closedWay (collectOuterWays ds (members r)) ->
   NoDup (map front (collectOuterWays ds (members r))) ->
   Forall (fun w => allResolve ds (way_nodes w)) (collectOuterWays ds (members r)) ->
   outerPath ds (ERelation r)
     = concat (map (fun w => resolve ds (way_nodes w)) (collectOuterWays ds (members r))) /\
   Forall closedLoop (map (fun w => resolve ds (way_nodes w)) (collectOuterWays ds (members r)))).
Proof.
  intros Htype. unfold outerPath. rewrite Htype.
  replace (("multipolygon" =? "multipolygon")%string) with true
    by (symmetry; apply String.eqb_refl).
  cbn [negb]. split.
  - destruct (stitchWays_loops ds _ [] (collectOuterWays ds (members r)) (le_n _))
      as (loops & Heq & Hp & Hsub & Hst & Hmax).
    exists loops. do 5 (split; [assumption|]).
    intros Hcan. apply canClose_spec in Hcan. destruct Hcan as [H0 He].
    assert (Hcl : Forall closes loops).
    { apply loops_close; [| |exact Hsub|exact Hmax].
      - intros Hin. apply H0. revert Hin. apply Permutation_in. symmetry.
        now apply ends_perm.
      - intros i. rewrite <- (endCount_perm i _ _ Hp). apply He. }
    split; [exact Hcl|]. intros Hall.
    assert (Hall' : Forall (fun w => (2 <= length (way_nodes w))%nat /\
                                     allResolve ds (way_nodes w))
                           (map fst (concat loops))).
    { revert Hall. apply Permutation_Forall. exact Hp. }
    clear - Hsub Hcl Hall'.
    induction loops as [|lp post IH]; [constructor|].
    inversion Hsub as [|? ? Hlp Hpost]; subst. inversion Hcl as [|? ? Hc Hcs]; subst.
    cbn [concat] in Hall'. rewrite map_app in Hall'. apply Forall_app in Hall'.
    destruct Hall' as [Ha Hb]. cbn [map]. constructor; [|now apply IH].
    apply closes_closedLoop; [now destruct lp|exact Hc|].
    now apply Forall_map in Ha.
  - intros Hc Hnd Hres. split.
    + now rewrite stitchWays_rings.
    + rewrite Forall_map. rewrite Forall_forall in Hc, Hres |- *.
      intros w Hw. apply closedWay_closedLoop; auto.
Qed.

Lemma outerPath_multipolygon_witness :
  (Element_tagValue (ERelation (sampleMultipolygon [20; 22])) "type" = "multipolygon" /\
   canClose (collectOuterWays splitRing (members (sampleMultipolygon [20; 22]))) = true /\
   Forall (fun w => (2 <= length (way_nodes w))%nat /\ allResolve splitRing (way_nodes w))
          (collectOuterWays splitRing (members (sampleMultipolygon [20; 22]))) /\
   concatOfClosedLoops (outerPath splitRing (ERelation (sampleMultipolygon [20; 22])))) /\
  (outerPath sampleDataSet (ERelation (sampleMultipolygon [11; 10]))
     = concat (map (fun w => resolve sampleDataSet (way_nodes w))
                   (collectOuterWays sampleDataSet (members (sampleMultipolygon [11; 10])))) /\
   Forall closedLoop (map (fun w => resolve sampleDataSet (way_nodes w))
                          (collectOuterWays sampleDataSet (members (sampleMultipolygon [11; 10]))))).
Proof.
  split.
  - assert (Hall : Forall (fun w => (2 <= length (way_nodes w))%nat /\
                                    allResolve splitRing (way_nodes w))
                          (collectOuterWays splitRing (members (sampleMultipolygon [20; 22])))).
    { repeat (constructor;
              [split; [simpl; lia|repeat (constructor; [eexists; reflexivity|]); constructor]|]).
      constructor. }
    split; [reflexivity|]. split; [reflexivity|]. split; [exact Hall|].
    destruct (outerPath_multipolygon splitRing (sampleMultipolygon [20; 22]) eq_refl)
      as [(loops & Heq & _ & _ & _ & _ & Hclose) _].
    exists (map (loopNodes splitRing) loops). split; [exact Heq|].
    exact (proj2 (Hclose eq_refl) Hall).
  - apply (proj2 (outerPath_multipolygon sampleDataSet (sampleMultipolygon [11; 10]) eq_refl)).
    + repeat (constructor; [split; [simpl; lia|reflexivity]|]). constructor.
    + apply (bool_decide_unpack _). vm_compute. reflexivity.
    + repeat (constructor; [repeat (constructor; [eexists; reflexivity|]); constructor|]).
      constructor.
Defined.

(** The two halves of the split ring, both from node 1 to node 3: the
    second is appended reversed, and the loop closes. *)
Example outerPath_stitched_ring :
  map node_id (outerPath splitRing (ERelation (sampleMultipolygon [20; 22])))
  = [1; 2; 3; 3; 4; 1].
Proof. reflexivity. Qed.

(** C10.  Every read operation on a null element returns the default value:
    id 0, the invalid coordinate, the invalid bounding box, the empty
    string for each tag lookup and for the URL, and an empty outer path;
    a relation that is not tagged type=multipolygon has an empty outer
    path too. *)
Theorem null_element_reads_default `{Externals} (ds : DataSet) (k : TagKey)
        (keyName : string) (loc : Locale) :
  id Null = 0 /\
  center Null = Coordinate_default /\
  boundingBox Null = BoundingBox_default /\
  Element_tagValue_key Null k = "" /\
  Element_tagValue Null keyName = "" /\
  Element_tagValue_locale Null keyName loc = "" /\
  url Null = "" /\
  outerPath ds Null = [] /\
  (forall r : Relation,
      Element_tagValue (ERelation r) "type" <> "multipolygon" ->
      outerPath ds (ERelation r) = []).
Proof.
  repeat (split; [reflexivity|]).
  intros r Hr. unfold outerPath.
  destruct (String.eqb_spec (Element_tagValue (ERelation r) "type") "multipolygon");
    [contradiction|reflexivity].
Qed.

End OSMFacts.

(** ** Insertion sort conforms to the contract of [std::sort] *)

Section InsertionSort.
Context {A : Type} (lt : A -> A -> bool).

Lemma insert_sorted_perm (a : A) (l : list A) : Permutation (a :: l) (insert_sorted lt a l).
Proof.
  induction l as [|b l IH]; simpl; [reflexivity|].
  destruct (lt a b); [reflexivity|].
  rewrite perm_swap. now constructor.
Qed.

Lemma insertion_sort_perm (l : list A) : Permutation l (insertion_sort lt l).
Proof.
  induction l as [|a l IH]; simpl; [reflexivity|].
  rewrite <- insert_sorted_perm. now constructor.
Qed.

Hypothesis lt_swo : StrictWeakOrder lt.

Lemma lt_asym (a b : A) : lt a b = true -> lt b a = false.
Proof.
  intros Hab. destruct (lt b a) eqn:Hba; [|reflexivity].
  pose proof (swo_trans lt lt_swo _ _ _ Hab Hba) as Haa.
  rewrite (swo_irrefl lt lt_swo) in Haa. discriminate.
Qed.

Lemma insert_sorted_sorted (a : A) (l : list A) :
  sorted_by lt l -> sorted_by lt (insert_sorted lt a l).
Proof.
  unfold sorted_by. induction 1 as [|b l Hl IH Hb]; simpl.
  - repeat constructor.
  - destruct (lt a b) eqn:Hab.
    + constructor; [now constructor|]. constructor; [now apply lt_asym|].
      rewrite List.Forall_forall in Hb |- *. intros c Hc. specialize (Hb c Hc).
      destruct (lt c a) eqn:Hca; [|reflexivity].
      rewrite (swo_trans lt lt_swo _ _ _ Hca Hab) in Hb. discriminate.
    + constructor; [exact IH|].
      rewrite List.Forall_forall in Hb |- *. intros c Hc.
      apply (Permutation_in _ (Permutation_sym (insert_sorted_perm a l))) in Hc.
      destruct Hc as [<-|Hc]; [exact Hab|now apply Hb].
Qed.

Lemma insertion_sort_sorted (l : list A) : sorted_by lt (insertion_sort lt l).
Proof.
  induction l as [|a l IH]; simpl; [constructor|]. now apply insert_sorted_sorted.
Qed.

End InsertionSort.

#[export] Instance insertionStdSort : StdSort := {|
  std_sort := @insertion_sort;
  std_sort_perm := @insertion_sort_perm;
  std_sort_sorted := fun A lt l Hswo => @insertion_sort_sorted A lt Hswo l
|}.

(** ** The hit detector *)

Module HitDetectorFacts.
Import Qt Scene HitDetector.
Local Open Scope Q_scope.

Lemma Qltb_false (a b : Q) : Qltb a b = false <-> b <= a.
Proof.
  unfold Qltb. rewrite negb_false_iff. apply Qle_bool_iff.
Qed.

Lemma Qltb_true (a b : Q) : Qltb a b = true <-> a < b.
Proof.
  unfold Qltb. rewrite negb_true_iff. split.
  - intros Hf. apply Qnot_le_lt. intros Hle. apply Qle_bool_iff in Hle. congruence.
  - intros Hlt. destruct (Qle_bool b a) eqn:E; [|reflexivity].
    apply Qle_bool_iff in E. exfalso. exact (Qlt_not_le _ _ Hlt E).
Qed.

(** Comparing by a rational key is a strict weak ordering. *)
Lemma Qltb_key_swo {A : Type} (f : A -> Q) : StrictWeakOrder (fun a b => Qltb (f a) (f b)).
Proof.
  split.
  - intros a. apply Qltb_false, Qle_refl.
  - intros a b c Hab Hbc. apply Qltb_true in Hab, Hbc. apply Qltb_true.
    exact (Qlt_trans _ _ _ Hab Hbc).
  - intros a b c H1 H2 H3 H4. apply Qltb_false in H1, H2, H3, H4.
    split; apply Qltb_false; eapply Qle_trans; eassumption.
Qed.

Section Facts.
Context `{Env} `{!PayloadMethods} `{StdSort}.

Lemma smallerBbox_swo : StrictWeakOrder smallerBbox.
Proof. exact (Qltb_key_swo bboxArea). Qed.

(** The head of the sorted candidates is a candidate of least area. *)
Lemma sorted_head_leastArea (l : list ItemPtr) :
  l <> [] -> exists c, head (std_sort smallerBbox l) = Some c /\ leastArea l c.
Proof.
  intros Hne.
  pose proof (std_sort_perm _ smallerBbox l) as Hperm.
  pose proof (std_sort_sorted _ smallerBbox l smallerBbox_swo) as Hsorted.
  destruct (std_sort smallerBbox l) as [|c rest] eqn:E.
  { apply Permutation_sym, Permutation_nil in Hperm. contradiction. }
  exists c. split; [reflexivity|]. split.
  - apply (Permutation_in _ (Permutation_sym Hperm)). now left.
  - intros c' Hc'. apply (Permutation_in _ Hperm) in Hc'.
    destruct Hc' as [<-|Hc']; [apply Qle_refl|].
    inversion Hsorted as [|? ? _ Hall]; subst.
    rewrite List.Forall_forall in Hall. apply Qltb_false. exact (Hall c' Hc').
Qed.

Lemma itemsAt_from_none (pos : QPointF) (view : View) (l : list SceneGraphItem) :
  forall i, List.Forall (fun item => isCandidate pos view item = false) l ->
            itemsAt_from i pos l view = [].
Proof.
  induction l as [|item r IH]; intros i Hall; [reflexivity|].
  inversion Hall as [|? ? Hitem Hr]; subst. simpl. rewrite Hitem. now apply IH.
Qed.

(** The candidates are exactly the items that pass the test, in scene
    order, each with its position. *)
Lemma itemsAt_from_spec (pos : QPointF) (view : View) (l : list SceneGraphItem) :
  forall i c, In c (itemsAt_from i pos l view) <->
              (exists k, ptr_index c = (i + k)%nat /\ l !! k = Some (ptr_item c))
              /\ isCandidate pos view (ptr_item c) = true.
Proof.
  induction l as [|item r IH]; intros i c; simpl.
  - split; [tauto|]. intros [[k [_ Hk]] _]. now rewrite lookup_nil in Hk.
  - destruct (isCandidate pos view item) eqn:Ec; simpl; rewrite (IH (S i) c).
    + split.
      * intros [<-|[[k [Hi Hk]] Hc]].
        -- split; [|exact Ec]. exists 0%nat. simpl. split; [lia|reflexivity].
        -- split; [|exact Hc]. exists (S k). split; [lia|exact Hk].
      * intros [[[|k] [Hi Hk]] Hc].
        -- left. simpl in Hk. injection Hk as Hk. destruct c as [ci cit]. simpl in *.
           subst. f_equal. lia.
        -- right. split; [|exact Hc]. exists k. split; [lia|exact Hk].
    + split.
      * intros [[k [Hi Hk]] Hc]. split; [|exact Hc]. exists (S k). split; [lia|exact Hk].
      * intros [[[|k] [Hi Hk]] Hc].
        -- simpl in Hk. injection Hk as Hk. subst. congruence.
        -- split; [|exact Hc]. exists k. split; [lia|exact Hk].
Qed.

(** When one item only passes the test, the candidate search returns that
    item, with its position, and nothing else. *)
Lemma itemsAt_from_single (pos : QPointF) (view : View) (l : list SceneGraphItem) :
  forall (i k : nat) (item : SceneGraphItem),
    l !! k = Some item ->
    isCandidate pos view item = true ->
    (forall j other, l !! j = Some other -> isCandidate pos view other = true -> j = k) ->
    itemsAt_from i pos l view = [ {| ptr_index := (i + k)%nat; ptr_item := item |} ].
Proof.
  induction l as [|a r IH]; intros i k item Hk Hc Huniq.
  { now rewrite lookup_nil in Hk. }
  cbn [itemsAt_from]. destruct k as [|k].
  - cbn in Hk. injection Hk as ->. rewrite Hc, Nat.add_0_r. f_equal.
    apply itemsAt_from_none. rewrite List.Forall_forall. intros other Hin.
    destruct (isCandidate pos view other) eqn:Eo; [|reflexivity].
    apply list_elem_of_In, list_elem_of_lookup in Hin. destruct Hin as [j Hj].
    specialize (Huniq (S j) other Hj Eo). discriminate.
  - destruct (isCandidate pos view a) eqn:Ea.
    { specialize (Huniq 0%nat a eq_refl Ea). discriminate. }
    rewrite (IH (S i) k item Hk Hc).
    + do 2 f_equal. lia.
    + intros j other Hj Ho. specialize (Huniq (S j) other Hj Ho). lia.
Qed.

(** C8.  When no item of the scene graph contains the point, in particular
    on an empty scene graph, [itemAt] returns the null result; when exactly
    one item of the scene graph contains the point, that item is the only
    candidate and [itemAt] returns it, with its position in the scene
    graph. *)
Theorem itemAt_none_or_single (pos : QPointF) (sg : SceneGraph) (view : View) :
  (List.Forall (fun item => isCandidate pos view item = false) (items sg) ->
   itemAt pos sg view = None) /\
  (items sg = [] -> itemAt pos sg view = None) /\
  (forall (k : nat) (item : SceneGraphItem),
      items sg !! k = Some item ->
      isCandidate pos view item = true ->
      (forall j other, items sg !! j = Some other ->
                       isCandidate pos view other = true -> j = k) ->
      itemsAt pos sg view = [ {| ptr_index := k; ptr_item := item |} ] /\
      itemAt pos sg view = Some {| ptr_index := k; ptr_item := item |}).
Proof.
  split; [|split].
  - intros Hall. unfold itemAt, itemsAt. now rewrite itemsAt_from_none.
  - intros Hnil. unfold itemAt, itemsAt. now rewrite Hnil.
  - intros k item Hk Hc Huniq.
    assert (E : itemsAt pos sg view = [ {| ptr_index := k; ptr_item := item |} ]).
    { unfold itemsAt. now rewrite (itemsAt_from_single pos view (items sg) 0 k item). }
    split; [exact E|]. unfold itemAt. now rewrite E.
Qed.

(** C1 (amended).  With two or more candidates, [itemAt] looks at the
    topmost candidate only: when its fill alpha is at least 0.5 it is the
    result; otherwise the result is a candidate of least bounding-box area
    among all candidates. *)
Theorem itemAt_multiple_candidates (pos : QPointF) (sg : SceneGraph) (view : View) :
  (2 <= length (itemsAt pos sg view))%nat ->
  exists top,
    last (itemsAt pos sg view) = Some top /\
    (if Qle_bool (1 # 2) (itemFillAlpha top)
     then itemAt pos sg view = Some top
     else exists c, itemAt pos sg view = Some c /\ leastArea (itemsAt pos sg view) c).
Proof.
  intros Hlen. unfold itemAt.
  destruct (itemsAt pos sg view) as [|a [|b l]] eqn:E; simpl in Hlen; try lia.
  destruct (last (a :: b :: l)) as [top|] eqn:Elast.
  - exists top. split; [reflexivity|].
    destruct (Qle_bool (1 # 2) (itemFillAlpha top)); [reflexivity|].
    apply sorted_head_leastArea. discriminate.
  - apply last_None in Elast. discriminate.
Qed.

End Facts.
End HitDetectorFacts.

Module HitDetectorSamples.
Import Qt Scene HitDetector HitDetectorFacts Samples.
Local Open Scope Q_scope.

Example itemAt_opaque_top :
  itemAt samplePos translucentBelowOpaque tt
  = Some {| ptr_index := 1; ptr_item := square 0 10 (9 # 10) |}.
Proof. reflexivity. Qed.

(** C1, as stated, fails: of two overlapping polygons with fill alpha 0.9
    and 0.3 under the point, the translucent one on top, [itemAt] returns
    the 0.3 one (the smaller), not the topmost candidate whose alpha is at
    least 0.5. *)
Lemma itemAt_translucent_top_not_as_specified :
  itemsAt samplePos opaqueBelowTranslucent tt
  = [ {| ptr_index := 0; ptr_item := square 0 10 (9 # 10) |};
      {| ptr_index := 1; ptr_item := square 2 6 (3 # 10) |} ] /\
  itemAt samplePos opaqueBelowTranslucent tt
  = Some {| ptr_index := 1; ptr_item := square 2 6 (3 # 10) |} /\
  itemFillAlpha {| ptr_index := 1; ptr_item := square 2 6 (3 # 10) |} = 3 # 10 /\
  ~ selectedAsSpecified (itemsAt samplePos opaqueBelowTranslucent tt)
                        (itemAt samplePos opaqueBelowTranslucent tt).
Proof.
  split; [reflexivity|].
  split; [reflexivity|].
  split; [reflexivity|].
  unfold selectedAsSpecified.
  replace (last (opaqueCandidates (itemsAt samplePos opaqueBelowTranslucent tt)))
    with (Some {| ptr_index := 0; ptr_item := square 0 10 (9 # 10) |})
    by reflexivity.
  replace (itemAt samplePos opaqueBelowTranslucent tt)
    with (Some {| ptr_index := 1; ptr_item := square 2 6 (3 # 10) |})
    by reflexivity.
  intros Heq. injection Heq as Hidx _. discriminate Hidx.
Qed.

Lemma itemAt_multiple_candidates_witness :
  exists top,
    last (itemsAt samplePos opaqueBelowTranslucent tt) = Some top /\
    (if Qle_bool (1 # 2) (itemFillAlpha top)
     then itemAt samplePos opaqueBelowTranslucent tt = Some top
     else exists c, itemAt samplePos opaqueBelowTranslucent tt = Some c /\
                    leastArea (itemsAt samplePos opaqueBelowTranslucent tt) c).
Proof.
  apply (itemAt_multiple_candidates samplePos opaqueBelowTranslucent tt).
  simpl. lia.
Defined.

Lemma itemAt_none_or_single_witness :
  itemAt samplePos {| items := []; layerOffsets := []; backgroundColor := 1 |} tt = None /\
  itemsAt cornerPos opaqueBelowTranslucent tt
  = [ {| ptr_index := 0; ptr_item := square 0 10 (9 # 10) |} ] /\
  itemAt cornerPos opaqueBelowTranslucent tt
  = Some {| ptr_index := 0; ptr_item := square 0 10 (9 # 10) |}.
Proof.
  split.
  - exact (proj1 (proj2 (itemAt_none_or_single samplePos
             {| items := []; layerOffsets := []; backgroundColor := 1 |} tt)) eq_refl).
  - apply (proj2 (proj2 (itemAt_none_or_single cornerPos opaqueBelowTranslucent tt))
             0%nat (square 0 10 (9 # 10))).
    + reflexivity.
    + reflexivity.
    + intros [|[|j]] other Hj Ho; [reflexivity| |].
      * cbn in Hj. injection Hj as <-. discriminate Ho.
      * cbn in Hj. discriminate Hj.
Defined.

End HitDetectorSamples.

(** ** The painter renderer *)

Module PainterRendererFacts.
Import Qt Scene PainterRenderer.
Local Open Scope Q_scope.

Section Facts.
Context `{Env} `{!PayloadMethods}.

Lemma labelCacheOnly_refl (l : LabelItem) : labelCacheOnly l l.
Proof. now left. Qed.

Lemma labelCacheOnly_trans (a b c : LabelItem) :
  labelCacheOnly a b -> labelCacheOnly b c -> labelCacheOnly a c.
Proof.
  intros [->|(Ha & Hb & Hab)] [->|(Hb' & Hc & Hbc)].
  - now left.
  - right. now repeat split.
  - right. now repeat split.
  - congruence.
Qed.

Lemma payloadFrame_refl (p : Payload) : payloadFrame p p.
Proof. destruct p; simpl; try reflexivity. eexists. split; [reflexivity|apply labelCacheOnly_refl]. Qed.

Lemma payloadFrame_trans (p q r : Payload) :
  payloadFrame p q -> payloadFrame q r -> payloadFrame p r.
Proof.
  destruct p; simpl; try (intros -> Hq; exact Hq).
  intros (lq & -> & Hpq). simpl. intros (lr & -> & Hqr).
  exists lr. split; [reflexivity|]. eapply labelCacheOnly_trans; eassumption.
Qed.

Lemma itemFrame_refl (a : SceneGraphItem) : itemFrame a a.
Proof. repeat split. apply payloadFrame_refl. Qed.

Lemma itemFrame_trans (a b c : SceneGraphItem) : itemFrame a b -> itemFrame b c -> itemFrame a c.
Proof.
  intros (He & Hl & Hp) (He' & Hl' & Hp'). repeat split; try congruence.
  eapply payloadFrame_trans; eassumption.
Qed.

Lemma storeFrame_refl (s : list SceneGraphItem) : storeFrame s s.
Proof. induction s; constructor; [apply itemFrame_refl|assumption]. Qed.

Lemma storeFrame_trans (s1 s2 s3 : list SceneGraphItem) :
  storeFrame s1 s2 -> storeFrame s2 s3 -> storeFrame s1 s3.
Proof.
  unfold storeFrame. intros H12. revert s3.
  induction H12 as [|a b s1 s2 Hab _ IH]; intros s3 H23; inversion H23; subst; constructor.
  - eapply itemFrame_trans; eassumption.
  - now apply IH.
Qed.

Lemma store_paint (op : PaintOp) (st : RenderState) : store (paint op st) = store st.
Proof. reflexivity. Qed.

(** Painting does not touch the store, whatever the branches taken. *)
Local Ltac store_paint :=
  repeat first
    [ rewrite store_paint
    | match goal with |- context [if ?b then _ else _] => destruct b end ].

Lemma storeFrame_insert (s : list SceneGraphItem) (i : nat) (a b : SceneGraphItem) :
  s !! i = Some a -> itemFrame a b -> storeFrame s (<[i := b]> s).
Proof.
  revert i. induction s as [|c s IH]; intros [|i] Hi Hab; simpl in *; try discriminate.
  - injection Hi as ->. constructor; [exact Hab|apply storeFrame_refl].
  - constructor; [apply itemFrame_refl|]. now apply IH.
Qed.

Lemma setPayload_store (i : nat) (p : Payload) (st1 st2 : RenderState) :
  store st1 = store st2 -> store (setPayload i p st1) = store (setPayload i p st2).
Proof.
  unfold setPayload. intros Heq. rewrite Heq.
  destruct (store st2 !! i); simpl; congruence.
Qed.

(** Drawing a label whose bounding box is already fine writes nothing. *)
Lemma renderLabel_fine (view : View) (i : nat) (item : LabelItem) (st : RenderState) :
  hasFineBbox item = true -> store (renderLabel view i item st) = store st.
Proof.
  intros Hfine. unfold renderLabel. rewrite Hfine. cbn [negb].
  store_paint; reflexivity.
Qed.

(** The first draw of a label stores the computed bounding box and sets
    the flag, in the payload of that item and nowhere else. *)
Lemma renderLabel_first (view : View) (i : nat) (item : LabelItem) (st : RenderState) :
  hasFineBbox item = false ->
  store (renderLabel view i item st)
  = store (setPayload i (Label (fst (computeFineBbox item))) st).
Proof.
  intros Hfine. unfold renderLabel. rewrite Hfine. cbn [negb].
  destruct (computeFineBbox item) as [item' fontSet]. cbn [fst].
  store_paint; apply setPayload_store; now rewrite ?store_paint.
Qed.

Lemma computeFineBbox_cacheOnly (item : LabelItem) :
  hasFineBbox item = false -> labelCacheOnly item (fst (computeFineBbox item)).
Proof.
  intros Hfine. right. unfold computeFineBbox.
  destruct (negb (OSM.isEmpty (text item))); cbn [fst]; now repeat split.
Qed.

Lemma renderLabel_frame (view : View) (i : nat) (it : SceneGraphItem) (item : LabelItem)
      (st : RenderState) :
  store st !! i = Some it -> payload it = Label item ->
  storeFrame (store st) (store (renderLabel view i item st)).
Proof.
  intros Hi Hp. destruct (hasFineBbox item) eqn:Hfine.
  - rewrite renderLabel_fine by assumption. apply storeFrame_refl.
  - rewrite renderLabel_first by assumption. unfold setPayload. rewrite Hi. simpl.
    eapply storeFrame_insert; [exact Hi|]. repeat split. simpl. rewrite Hp. simpl.
    eexists. split; [reflexivity|]. now apply computeFineBbox_cacheOnly.
Qed.

Lemma renderItem_frame (view : View) (phase : RenderPhase) (i : nat) (st : RenderState) :
  storeFrame (store st) (store (renderItem view phase i st)).
Proof.
  unfold renderItem. destruct (store st !! i) as [it|] eqn:Hi; [|apply storeFrame_refl].
  destruct (negb (renderPhases (payload it) phase)); [apply storeFrame_refl|].
  destruct (payload it) as [p|p|p|p|] eqn:Hp.
  - unfold renderPolygon. destruct phase; apply storeFrame_refl.
  - unfold renderMultiPolygon. destruct phase; apply storeFrame_refl.
  - unfold renderPolyline. destruct phase; apply storeFrame_refl.
  - eapply renderLabel_frame; eassumption.
  - apply storeFrame_refl.
Qed.

Lemma fold_left_frame {A : Type} (f : RenderState -> A -> RenderState) (l : list A) :
  (forall st a, storeFrame (store st) (store (f st a))) ->
  forall st, storeFrame (store st) (store (fold_left f l st)).
Proof.
  intros Hf. induction l as [|a l IH]; intros st; simpl; [apply storeFrame_refl|].
  eapply storeFrame_trans; [apply Hf|apply IH].
Qed.

Lemma beginPhase_store (view : View) (phase : RenderPhase) (st : RenderState) :
  store (beginPhase view phase st) = store st.
Proof. now destruct phase. Qed.

Lemma renderLayer_frame (view : View) (st : RenderState) (layerOffsets : nat * nat) :
  storeFrame (store st) (store (renderLayer view st layerOffsets)).
Proof.
  unfold renderLayer. apply fold_left_frame. intros st' phase. unfold renderPhase_.
  rewrite <- (beginPhase_store view phase st') at 1.
  apply fold_left_frame. intros st'' i. apply renderItem_frame.
Qed.

(** C9.  A render pass leaves every scene graph item as it was, except
    that a label drawn for the first time gets its memoized bounding box
    and the flag that marks it valid: positions, elements and layers are
    kept, polygon, multi-polygon and polyline payloads are equal before
    and after, and a label payload differs, if at all, in [bbox] and
    [hasFineBbox] only, and only when the flag was unset before.  Drawing
    a label whose flag is set writes nothing; drawing one whose flag is
    unset writes the computed box and the flag to that label. *)
Theorem render_frame (sg : SceneGraph) (view : View) (before : list PaintOp) :
  Forall2 itemFrame (items sg) (store (render sg view before)) /\
  (forall i item st, hasFineBbox item = true -> store (renderLabel view i item st) = store st) /\
  (forall i item st, hasFineBbox item = false ->
     store (renderLabel view i item st)
     = store (setPayload i (Label (setLabelBbox item (bbox (fst (computeFineBbox item))) true)) st)).
Proof.
  split; [|split].
  - unfold render, endRender, renderForeground. rewrite !store_paint.
    change (items sg) with
      (store (renderBackground view (backgroundColor sg)
                (beginRender {| store := items sg; painted := before |}))).
    apply (fold_left_frame (renderLayer view)). intros st lo. apply renderLayer_frame.
  - intros i item st. apply renderLabel_fine.
  - intros i item st Hfine. rewrite renderLabel_first by assumption.
    destruct (computeFineBbox_cacheOnly item Hfine) as [Heq|(_ & _ & Heq)].
    + rewrite Heq at 2. unfold computeFineBbox in Heq |- *.
      destruct (negb (OSM.isEmpty (text item))); cbn [fst] in *;
        rewrite <- Heq in Hfine; discriminate Hfine.
    + now rewrite <- Heq.
Qed.

End Facts.
End PainterRendererFacts.

(** ** The navigation mesh builder *)

Module NavMeshBuilderFacts.
Import Qt OSM Map NavMeshBuilder.

Lemma append_assoc (s1 s2 s3 : string) : (s1 +:+ s2) +:+ s3 = s1 +:+ (s2 +:+ s3).
Proof.
  induction s1 as [|c s1 IH]; [reflexivity|].
  change (String c ((s1 +:+ s2) +:+ s3) = String c (s1 +:+ (s2 +:+ s3))).
  now rewrite IH.
Qed.

Lemma append_nil_r (s : string) : s +:+ "" = s.
Proof.
  induction s as [|c s IH]; [reflexivity|].
  change (String c (s +:+ "") = String c s). now rewrite IH.
Qed.

(** *** The node level index *)

Lemma addNodeToLevelIndex_lookup (m : gmap Z Z) (nodeId : Id) (level : Z) (n : Id) :
  addNodeToLevelIndex m nodeId level !! n
  = if decide (nodeId = n) then mergeLevel (m !! n) level else m !! n.
Proof.
  unfold addNodeToLevelIndex, mergeLevel. case_decide as Hn.
  - subst n. destruct (m !! nodeId) as [l|] eqn:E.
    + destruct (l =? level); simpl; [exact E|apply lookup_insert_eq].
    + apply lookup_insert_eq.
  - destruct (m !! nodeId) as [l|] eqn:E.
    + destruct (l =? level); simpl; [reflexivity|now apply lookup_insert_ne].
    + now apply lookup_insert_ne.
Qed.

Lemma applyCalls_app (m : gmap Z Z) (c1 c2 : list (Id * Z)) :
  applyCalls m (c1 ++ c2) = applyCalls (applyCalls m c1) c2.
Proof. apply fold_left_app. Qed.

Lemma indexElement_calls (level : Z) (m : gmap Z Z) (elem : Element) :
  elem <> Null -> indexElement level m elem = Some (applyCalls m (elementCalls level elem)).
Proof.
  intros Hn. destruct elem as [|n|w|r]; try reflexivity; [congruence|].
  unfold indexElement, elementCalls.
  destruct (isEmpty _ || contains _ _); [reflexivity|].
  unfold applyCalls. generalize m. induction (way_nodes w) as [|i r IH]; intros m0;
    [reflexivity|]. simpl. apply IH.
Qed.

Lemma indexElements_calls (level : Z) (elems : list Element) :
  forall m, noNull elems ->
            indexElements level m elems = Some (applyCalls m (flat_map (elementCalls level) elems)).
Proof.
  induction elems as [|e r IH]; intros m Hn; [reflexivity|].
  inversion Hn as [|? ? He Hr]; subst. simpl.
  rewrite indexElement_calls by assumption. rewrite IH by assumption.
  now rewrite applyCalls_app.
Qed.

Lemma indexLevels_calls (levels : list (MapLevel * list Element)) :
  forall m, List.Forall (fun entry => noNull (snd entry)) levels ->
            indexLevels m levels = Some (applyCalls m (flat_map levelCalls levels)).
Proof.
  induction levels as [|[level elems] r IH]; intros m Hn; [reflexivity|].
  inversion Hn as [|? ? He Hr]; subst. simpl in He |- *.
  unfold levelCalls at 1. simpl.
  destruct (numericLevel level =? 0); [now apply IH|].
  rewrite indexElements_calls by assumption. rewrite IH by assumption.
  now rewrite applyCalls_app.
Qed.

Lemma applyCalls_lookup (n : Id) (calls : list (Id * Z)) :
  forall m, applyCalls m calls !! n = fold_left mergeLevel (levelsOf n calls) (m !! n).
Proof.
  induction calls as [|[i l] r IH]; intros m; [reflexivity|].
  unfold applyCalls in *. simpl. rewrite IH. rewrite addNodeToLevelIndex_lookup.
  unfold levelsOf. simpl. case_decide as Hi.
  - subst i. now rewrite Z.eqb_refl.
  - destruct (i =? n) eqn:E; [lia|reflexivity].
Qed.

Lemma mergeLevel_ambiguous (ls : list Z) : fold_left mergeLevel ls (Some INT_MIN) = Some INT_MIN.
Proof.
  induction ls as [|l ls IH]; [reflexivity|]. cbn [fold_left mergeLevel].
  destruct (INT_MIN =? l); exact IH.
Qed.

Lemma mergeLevel_from (ls : list Z) (l : Z) :
  (List.Forall (fun l' => l' = l) ls -> fold_left mergeLevel ls (Some l) = Some l) /\
  (~ List.Forall (fun l' => l' = l) ls -> fold_left mergeLevel ls (Some l) = Some INT_MIN).
Proof.
  induction ls as [|l' ls [IH1 IH2]]; cbn [fold_left mergeLevel].
  - split; [reflexivity|]. intros Hn. exfalso. apply Hn. constructor.
  - destruct (l =? l') eqn:E.
    + split.
      * intros Hall. inversion Hall; subst. now apply IH1.
      * intros Hn. apply IH2. intros Hall. apply Hn. constructor; [lia|assumption].
    + split.
      * intros Hall. inversion Hall; subst. lia.
      * intros _. apply mergeLevel_ambiguous.
Qed.

Lemma seenAt_calls (m_data : MapData) (n : Id) (l : Z) :
  seenAt m_data n l <-> In l (levelsOf n (flat_map levelCalls (levelMap m_data))).
Proof.
  unfold levelsOf. rewrite in_map_iff. split.
  - intros (level & elems & w & Hin & Hl & Hnz & Hw & Hne & Hsc & Hn).
    exists (n, l). split; [reflexivity|]. apply filter_In. split; [|simpl; lia].
    apply in_flat_map. exists (level, elems). split; [exact Hin|].
    unfold levelCalls. simpl. destruct (numericLevel level =? 0) eqn:E; [lia|].
    apply in_flat_map. exists (EWay w). split; [exact Hw|].
    unfold elementCalls. simpl. rewrite Hne, Hsc. simpl.
    apply in_map_iff. exists n. split; [now rewrite Hl|exact Hn].
  - intros ([i l'] & Hl & Hin). simpl in Hl. subst l'.
    apply filter_In in Hin. destruct Hin as [Hin Hi]. simpl in Hi.
    assert (i = n) by lia. subst i.
    apply in_flat_map in Hin. destruct Hin as ([level elems] & Hlm & Hin).
    unfold levelCalls in Hin. simpl in Hin.
    destruct (numericLevel level =? 0) eqn:E; [contradiction|].
    apply in_flat_map in Hin. destruct Hin as (elem & Helem & Hin).
    destruct elem as [|nd|w|r]; try contradiction.
    unfold elementCalls in Hin. simpl in Hin.
    destruct (isEmpty (tagValue (way_tags w) "level")) eqn:Hne; [contradiction|].
    destruct (contains (tagValue (way_tags w) "level") (Ascii.ascii_of_nat 59)) eqn:Hsc;
      [contradiction|].
    simpl in Hin. apply in_map_iff in Hin. destruct Hin as (n' & Heq & Hn).
    injection Heq as -> <-.
    exists level, elems, w. repeat split; try assumption. lia.
Qed.

Section Facts.
Context `{OSM.Externals} `{Env}.

(** C5.  On a level map without null elements the level-index pass ends,
    and in the node-to-level map it leaves (started from the empty map):
    every node id seen at some level has an entry; a node id seen at one
    level only maps to that level; a node id seen at two different levels
    maps to [INT_MIN]; a node id never seen has no entry and
    [levelForNode] gives 0 for it. *)
Theorem indexNodeLevels_index (m_data : MapData) (st : State) :
  List.Forall (fun entry => noNull (snd entry)) (levelMap m_data) ->
  m_nodeLevelMap st = ∅ ->
  exists st',
    indexNodeLevels m_data st = Some st' /\
    forall n : Id,
      (forall l, seenAt m_data n l -> is_Some (m_nodeLevelMap st' !! n)) /\
      (forall l, seenAt m_data n l -> (forall l', seenAt m_data n l' -> l' = l) ->
                 m_nodeLevelMap st' !! n = Some l /\ levelForNode (m_nodeLevelMap st') n = l) /\
      (forall l l', seenAt m_data n l -> seenAt m_data n l' -> l <> l' ->
                    m_nodeLevelMap st' !! n = Some INT_MIN /\
                    levelForNode (m_nodeLevelMap st') n = INT_MIN) /\
      ((forall l, ~ seenAt m_data n l) ->
       m_nodeLevelMap st' !! n = None /\ levelForNode (m_nodeLevelMap st') n = 0).
Proof.
  intros Hnull Hempty. unfold indexNodeLevels.
  rewrite indexLevels_calls by assumption. eexists. split; [reflexivity|].
  intros n. cbn [m_nodeLevelMap set_nodeLevelMap]. unfold levelForNode.
  rewrite applyCalls_lookup, Hempty, lookup_empty.
  set (ls := levelsOf n (flat_map levelCalls (levelMap m_data))).
  assert (Hseen : forall l, seenAt m_data n l <-> In l ls) by (intros l; apply seenAt_calls).
  clearbody ls. destruct ls as [|l0 ls]; simpl.
  - split; [|split; [|split]].
    + intros l Hl. apply Hseen in Hl. contradiction.
    + intros l Hl. apply Hseen in Hl. contradiction.
    + intros l l' Hl. apply Hseen in Hl. contradiction.
    + intros _. now split.
  - destruct (mergeLevel_from ls l0) as [Hsame Hdiff].
    split; [|split; [|split]].
    + intros l _. destruct (decide (Forall (fun l' => l' = l0) ls)) as [Ha|Hn].
      * rewrite Hsame by assumption. now eexists.
      * rewrite Hdiff by assumption. now eexists.
    + intros l Hl Huniq.
      assert (l0 = l) by (apply Huniq, Hseen; now left). subst l0.
      rewrite Hsame; [now split|]. apply List.Forall_forall. intros l' Hl'.
      apply Huniq, Hseen. now right.
    + intros l l' Hl Hl' Hne.
      rewrite Hdiff; [now split|]. intros Hall. rewrite List.Forall_forall in Hall.
      apply Hseen in Hl, Hl'.
      assert (l = l0) by (destruct Hl as [|Hl]; [congruence|now apply Hall]).
      assert (l' = l0) by (destruct Hl' as [|Hl']; [congruence|now apply Hall]).
      congruence.
    + intros Hnone. exfalso. apply (Hnone l0), Hseen. now left.
Qed.

(** C6.  Adding an off-mesh connection with direction [Backward] writes
    what adding it [Forward] with the two endpoints exchanged writes, in the
    text output and in the connection arrays alike; the direction flag
    written is 1 for [Bidirectional] and 0 for the two other directions. *)
Theorem addOffMeshConnection_backward (x1 y1 z1 x2 y2 z2 : Q) (areaType : AreaType)
        (st : State) (c : OffMeshCon) :
  addOffMeshConnection x1 y1 z1 x2 y2 z2 Backward areaType st
  = addOffMeshConnection x2 y2 z2 x1 y1 z1 Forward areaType st /\
  addOffMeshConnection_arrays x1 y1 z1 x2 y2 z2 Backward areaType c
  = addOffMeshConnection_arrays x2 y2 z2 x1 y1 z1 Forward areaType c /\
  (forall linkDir,
      dir (addOffMeshConnection_arrays x1 y1 z1 x2 y2 z2 linkDir areaType c)
      = dir c ++ [if decide (linkDir = Bidirectional) then 1 else 0] /\
      m_gsetData (addOffMeshConnection x1 y1 z1 x2 y2 z2 linkDir areaType st)
      = m_gsetData st
        +:+ (if decide (linkDir = Backward)
             then offMeshLine x2 y2 z2 x1 y1 z1 Forward areaType
             else offMeshLine x1 y1 z1 x2 y2 z2 linkDir areaType) /\
      (forall a1 b1 c1 a2 b2 c2,
          offMeshLine a1 b1 c1 a2 b2 c2 linkDir areaType
          = "c " +:+ number a1 +:+ " " +:+ number b1 +:+ " " +:+ number c1 +:+ "  "
            +:+ number a2 +:+ " " +:+ number b2 +:+ " " +:+ number c2 +:+ " 0.6 "
            +:+ (if decide (linkDir = Bidirectional) then "1" else "0")
            +:+ " " +:+ number_int (qToUnderlying areaType) +:+ " 8" +:+ nl)).
Proof.
  split; [reflexivity|]. split; [reflexivity|].
  intros linkDir. destruct linkDir; repeat split; reflexivity.
Qed.

End Facts.

End NavMeshBuilderFacts.


Module NavMeshBuilderExamples.
Import Qt OSM Map NavMeshBuilder NavMeshBuilderFacts NavMeshBuilderSamples.

Example stairs_index : indexNodeLevels stairsData emptyState = Some stairsIndexed.
Proof. unfold indexNodeLevels. f_equal. Qed.

(** The stair way of scenario 5: node 1 on level 0, node 2 on level 10.
    The two stroke vertices at node 1 are put on level 0, the two at node 2
    on level 10. *)
Example processGeometry_stairs :
  m_objVertices <$> processGeometry stairsData (EWay stairs) 0 (lineLayer 2) stairsIndexed
  = Some (vertexLine 0 (mapHeightToNav 0) (-1) +:+ vertexLine 0 (mapHeightToNav 0) 1
          +:+ vertexLine 10 (mapHeightToNav 10) (-1) +:+ vertexLine 10 (mapHeightToNav 10) 1).
Proof. vm_compute. reflexivity. Qed.

(** C3, where the code departs from it.  The corridor has three node ids
    and its two nodes in the data set are both on level 0, yet the stroke
    vertices at node 3 are put on level 10: the polygon has two points, and
    the level looked up for its second point is that of the way's second
    node id. *)
Lemma processGeometry_unresolved_node_level :
  indexNodeLevels corridorData emptyState = Some stairsIndexed /\
  List.map node_id (outerPath (dataSet corridorData) (EWay corridor)) = [1; 3] /\
  levelForNode (m_nodeLevelMap stairsIndexed) 1 = 0 /\
  levelForNode (m_nodeLevelMap stairsIndexed) 3 = 0 /\
  levelForNode (m_nodeLevelMap stairsIndexed) 2 = 10 /\
  m_objVertices <$> processGeometry corridorData (EWay corridor) 0 (lineLayer 2) stairsIndexed
  = Some (vertexLine 0 (mapHeightToNav 0) (-1) +:+ vertexLine 0 (mapHeightToNav 0) 1
          +:+ vertexLine 10 (mapHeightToNav 10) (-1) +:+ vertexLine 10 (mapHeightToNav 10) 1) /\
  (mapHeightToNav 10 == 3)%Q /\ (mapHeightToNav 0 == 0)%Q.
Proof. repeat split; vm_compute; reflexivity. Qed.

(** Scenario 6: the two segments at the door emit nothing, the segment
    from node 3 to node 4 emits its wall from level 0 to level 10. *)
Example processGeometry_wall_with_door :
  processGeometry wallData (EWay wallWithDoor) 0 (extrudeLayer 3) emptyState
  = Some {| m_nodeLevelMap := ∅; m_vertexOffset := 5;
            m_objVertices := vertexLine 20 (mapHeightToNav 0) 0 +:+ vertexLine 30 (mapHeightToNav 0) 0
                             +:+ vertexLine 20 (mapHeightToNav 10) 0
                             +:+ vertexLine 30 (mapHeightToNav 10) 0;
            m_objFaces := faceLine 1 2 3 +:+ faceLine 2 4 3;
            m_gsetData := "" |}.
Proof. vm_compute. reflexivity. Qed.

(** C4, where the code departs from it.  The outer path of the element is
    empty, so there is no segment and nothing to emit; the loop bound
    [way.size() - 1] wraps around instead and the first round reads
    [way[0]] of an empty vector.  So it is for a way none of whose nodes
    is in the data set, and for a relation that is not a multipolygon. *)
Lemma processGeometry_extrude_empty_path :
  outerPath (dataSet wallData) (EWay wallOutside) = [] /\
  wrap64 (Z.of_nat (length (outerPath (dataSet wallData) (EWay wallOutside))) - 1)
  = 18446744073709551615 /\
  processGeometry wallData (EWay wallOutside) 0 (extrudeLayer 3) emptyState = None /\
  outerPath (dataSet wallData) (ERelation buildingRelation) = [] /\
  processGeometry wallData (ERelation buildingRelation) 0 (extrudeLayer 3) emptyState = None.
Proof. repeat split; vm_compute; reflexivity. Qed.

End NavMeshBuilderExamples.

(** ** The geometry passes of the navigation mesh builder on well-formed
    input *)

Module NavMeshGeometryFacts.
Import Qt OSM Map NavMeshBuilder NavMeshBuilderFacts.

Section Facts.
Context `{OSM.Externals} `{Env}.

Lemma addStrokeVertices_lines (poly : QPolygonF) (elem : Element) (floorLevel : Z)
      (f : QPointF -> Z) (vs : list QPointF) :
  forall st,
    (forall p, In p vs ->
               strokeVertexLevel poly elem floorLevel (m_nodeLevelMap st) p = Some (f p)) ->
    addStrokeVertices poly elem floorLevel vs st
    = Some {| m_nodeLevelMap := m_nodeLevelMap st; m_vertexOffset := m_vertexOffset st;
              m_objVertices := m_objVertices st +:+ strokeLines f vs;
              m_objFaces := m_objFaces st; m_gsetData := m_gsetData st |}.
Proof.
  induction vs as [|p r IH]; intros st Hlv.
  - simpl. rewrite append_nil_r. now destruct st.
  - cbn [addStrokeVertices]. rewrite (Hlv p) by now left.
    rewrite IH by (intros q Hq; apply Hlv; now right).
    cbn. now rewrite append_assoc.
Qed.

Lemma addStripFaces_vertices (n : nat) :
  forall i st, m_objVertices (addStripFaces n i st) = m_objVertices st.
Proof.
  induction n as [|n IH]; intros i st; [reflexivity|].
  cbn [addStripFaces]. rewrite IH. now destruct (negb (i mod 2 =? 0)).
Qed.

(** A way with exactly two node ids, both in the data set, has the
    two-point polygon of its nodes. *)
Lemma createPolygon_two_nodes (ds : DataSet) (w : Way) (a b : Id) (na nb : Node) :
  way_nodes w = [a; b] ->
  lookup_id node_id (nodes ds) a = Some na ->
  lookup_id node_id (nodes ds) b = Some nb ->
  createPolygon ds (EWay w)
  = [ {| x := lonF (coordinate na); y := latF (coordinate na) |};
      {| x := lonF (coordinate nb); y := latF (coordinate nb) |} ].
Proof.
  intros Hw Ha Hb. unfold createPolygon. cbn [outerPath]. rewrite Hw.
  cbn [appendNodesFromWay]. rewrite Ha. cbn [app]. rewrite Hb. cbn.
  destruct (node_id na =? node_id na), (node_id nb =? node_id na); reflexivity.
Qed.

(** The line pass on a stair way: a way with exactly two node ids, both in
    the data set, whose levels in the index differ and are not ambiguous.
    Every stroke vertex is written on the level of the end point it is
    closer to (the second one at equal distance). *)
Lemma processLine_stair_way (m_data : MapData) (w : Way) (a b : Id) (na nb : Node)
      (floorLevel : Z) (res : MapCSSResultLayer) (prop : MapCSSDeclaration) (st : State) :
  way_nodes w = [a; b] ->
  lookup_id node_id (nodes (dataSet m_data)) a = Some na ->
  lookup_id node_id (nodes (dataSet m_data)) b = Some nb ->
  hasLineProperties res = true ->
  declaration_Width res = Some prop ->
  Qltb 0 (penWidth (EWay w) prop) = true ->
  levelForNode (m_nodeLevelMap st) a <> levelForNode (m_nodeLevelMap st) b ->
  levelForNode (m_nodeLevelMap st) a <> INT_MIN ->
  levelForNode (m_nodeLevelMap st) b <> INT_MIN ->
  let pa := mapGeoToNav_point {| x := lonF (coordinate na); y := latF (coordinate na) |} in
  let pb := mapGeoToNav_point {| x := lonF (coordinate nb); y := latF (coordinate nb) |} in
  exists st',
    processLine m_data (EWay w) floorLevel res st = Some st' /\
    m_objVertices st'
    = m_objVertices st
      +:+ strokeLines (fun p => if closerTo pa pb p
                                then levelForNode (m_nodeLevelMap st) a
                                else levelForNode (m_nodeLevelMap st) b)
                      (stroke [pa; pb] (penWidth (EWay w) prop)).
Proof.
  intros Hw Ha Hb Hline Hprop Hpw Hne H1 H2 pa pb.
  unfold processLine. rewrite Hline, Hprop, Hpw.
  rewrite (createPolygon_two_nodes _ _ _ _ _ _ Hw Ha Hb). cbn [List.map].
  fold pa pb.
  erewrite addStrokeVertices_lines.
  - eexists. split; [reflexivity|]. cbn [m_objVertices addToVertexOffset].
    rewrite addStripFaces_vertices. reflexivity.
  - intros p _. unfold strokeVertexLevel. rewrite Hw. cbn [lookup list_lookup].
    replace (negb (levelForNode (m_nodeLevelMap st) a =? levelForNode (m_nodeLevelMap st) b))
      with true by (symmetry; apply negb_true_iff, Z.eqb_neq; assumption).
    replace (negb (levelForNode (m_nodeLevelMap st) a =? INT_MIN))
      with true by (symmetry; apply negb_true_iff, Z.eqb_neq; assumption).
    replace (negb (levelForNode (m_nodeLevelMap st) b =? INT_MIN))
      with true by (symmetry; apply negb_true_iff, Z.eqb_neq; assumption).
    reflexivity.
Qed.

(** The line pass on any other way with exactly two node ids, and on every
    element whose polygon has not exactly two points or that is not a way:
    every stroke vertex is written on the current floor. *)
Lemma strokeVertexLevel_floor (poly : QPolygonF) (elem : Element) (floorLevel : Z)
      (m : gmap Z Z) (p : QPointF) :
  (length poly <> 2%nat \/ (forall w, elem <> EWay w) \/
   (exists w a b, elem = EWay w /\ way_nodes w = [a; b] /\
                  (levelForNode m a = levelForNode m b \/ levelForNode m a = INT_MIN \/
                   levelForNode m b = INT_MIN))) ->
  strokeVertexLevel poly elem floorLevel m p = Some floorLevel.
Proof.
  intros [Hlen|[Hway|(w & a & b & -> & Hw & Hlv)]].
  - unfold strokeVertexLevel. destruct poly as [|p0 [|p1 [|p2 poly]]]; try reflexivity.
    now contradiction Hlen.
  - unfold strokeVertexLevel. destruct poly as [|p0 [|p1 [|p2 poly]]]; try reflexivity.
    destruct elem as [|n0|w0|r0]; try reflexivity. exfalso. now apply (Hway w0).
  - unfold strokeVertexLevel. destruct poly as [|p0 [|p1 [|p2 poly]]]; try reflexivity.
    rewrite Hw. cbn [lookup list_lookup].
    destruct (levelForNode m a =? levelForNode m b) eqn:E1; [reflexivity|].
    destruct (levelForNode m a =? INT_MIN) eqn:E2; [reflexivity|].
    destruct (levelForNode m b =? INT_MIN) eqn:E3; [reflexivity|].
    exfalso. destruct Hlv as [Hlv|[Hlv|Hlv]]; lia.
Qed.

(** *** The extrude pass *)

Lemma extrudeLoop_from (floorLevel : Z) (way : list Node) :
  Z.of_nat (length way) < 2 ^ 64 ->
  forall rest pre a fuel st,
    way = pre ++ a :: rest -> (length rest < fuel)%nat ->
    extrudeLoop fuel (Z.of_nat (length pre)) way floorLevel st
    = Some (fold_left (wallStep floorLevel) (segments (a :: rest)) st).
Proof.
  intros Hsize. induction rest as [|b rest IH]; intros pre a fuel st Hway Hfuel.
  - destruct fuel as [|fuel]; [lia|]. cbn [extrudeLoop segments fold_left].
    assert (Hlen : length way = S (length pre)).
    { rewrite Hway, length_app. simpl. lia. }
    unfold wrap64. rewrite Z.mod_small by lia.
    replace (Z.of_nat (length pre) <? Z.of_nat (length way) - 1) with false
      by (symmetry; apply Z.ltb_ge; lia).
    reflexivity.
  - destruct fuel as [|fuel]; [lia|]. cbn [extrudeLoop].
    assert (Hlen : length way = S (S (length pre + length rest))).
    { rewrite Hway, length_app. simpl. lia. }
    unfold wrap64 at 1. rewrite Z.mod_small by lia.
    replace (Z.of_nat (length pre) <? Z.of_nat (length way) - 1) with true
      by (symmetry; apply Z.ltb_lt; lia).
    rewrite Nat2Z.id.
    replace (Z.to_nat (Z.of_nat (length pre) + 1)) with (S (length pre)) by lia.
    assert (Ha : way !! length pre = Some a).
    { rewrite Hway. now apply list_lookup_middle. }
    assert (Hb : way !! S (length pre) = Some b).
    { rewrite Hway. replace (pre ++ a :: b :: rest) with ((pre ++ [a]) ++ b :: rest)
        by now rewrite <- app_assoc.
      apply list_lookup_middle. rewrite length_app. simpl. lia. }
    rewrite Ha, Hb.
    replace (Z.of_nat (length pre) + 1) with (Z.of_nat (length (pre ++ [a])))
      by (rewrite length_app; simpl; lia).
    assert (Hway' : way = (pre ++ [a]) ++ b :: rest) by (rewrite Hway; now rewrite <- app_assoc).
    change (segments (a :: b :: rest)) with ((a, b) :: segments (b :: rest)).
    cbn [fold_left]. unfold wallStep at 2. cbn [fst snd].
    destruct (isDoor a || isDoor b); apply IH; (assumption || simpl in Hfuel; lia).
Qed.

(** X16.  The extrude pass on an element with a node in its outer path:
    it ends, and it has gone through the consecutive segments of the path
    in order; every segment either of whose end nodes is a door adds
    nothing, every other segment adds its wall (four vertices and two
    faces), from the height of the floor to the height of the level one
    storey (10) above. *)
Lemma processExtrude_walls (m_data : MapData) (elem : Element) (floorLevel : Z)
      (res : MapCSSResultLayer) (prop : MapCSSDeclaration) (st : State) :
  hasExtrudeProperties res = true ->
  declaration_Extrude res = Some prop ->
  Qltb 0 (doubleValue prop) = true ->
  outerPath (dataSet m_data) elem <> [] ->
  Z.of_nat (length (outerPath (dataSet m_data) elem)) < 2 ^ 64 ->
  processExtrude m_data elem floorLevel res st
  = Some (fold_left (wallStep floorLevel) (segments (outerPath (dataSet m_data) elem)) st).
Proof.
  intros Hex Hprop Hpos Hne Hsize. unfold processExtrude. rewrite Hex, Hprop, Hpos.
  destruct (outerPath (dataSet m_data) elem) as [|a rest] eqn:E; [congruence|].
  apply (extrudeLoop_from floorLevel (a :: rest) Hsize rest [] a); [reflexivity|simpl; lia].
Qed.

Lemma addWall_output (a b : Node) (floorLevel : Z) (st : State) :
  let p1 := mapGeoToNav (coordinate a) in
  let p2 := mapGeoToNav (coordinate b) in
  let o := m_vertexOffset st in
  addWall a b floorLevel st
  = {| m_nodeLevelMap := m_nodeLevelMap st;
       m_vertexOffset := o + 4;
       m_objVertices :=
         m_objVertices st
         +:+ vertexLine (x p1) (mapHeightToNav floorLevel) (y p1)
         +:+ vertexLine (x p2) (mapHeightToNav floorLevel) (y p2)
         +:+ vertexLine (x p1) (mapHeightToNav (floorLevel + 10)) (y p1)
         +:+ vertexLine (x p2) (mapHeightToNav (floorLevel + 10)) (y p2);
       m_objFaces :=
         m_objFaces st +:+ faceLine (wrap64 o) (wrap64 (o + 1)) (wrap64 (o + 2))
         +:+ faceLine (wrap64 (o + 1)) (wrap64 (o + 3)) (wrap64 (o + 2));
       m_gsetData := m_gsetData st |}.
Proof.
  intros p1 p2 o. unfold addWall, addToVertexOffset, addFace, addVertex.
  cbn [m_nodeLevelMap m_vertexOffset m_objVertices m_objFaces m_gsetData].
  fold p1 p2 o. now rewrite !append_assoc.
Qed.

End Facts.

Lemma indexNodeLevels_index_witness :
  exists st',
    indexNodeLevels NavMeshBuilderSamples.stairsData NavMeshBuilderSamples.emptyState = Some st' /\
    forall n : Id,
      (forall l, seenAt NavMeshBuilderSamples.stairsData n l -> is_Some (m_nodeLevelMap st' !! n)) /\
      (forall l, seenAt NavMeshBuilderSamples.stairsData n l ->
                 (forall l', seenAt NavMeshBuilderSamples.stairsData n l' -> l' = l) ->
                 m_nodeLevelMap st' !! n = Some l /\ levelForNode (m_nodeLevelMap st') n = l) /\
      (forall l l', seenAt NavMeshBuilderSamples.stairsData n l ->
                    seenAt NavMeshBuilderSamples.stairsData n l' -> l <> l' ->
                    m_nodeLevelMap st' !! n = Some INT_MIN /\
                    levelForNode (m_nodeLevelMap st') n = INT_MIN) /\
      ((forall l, ~ seenAt NavMeshBuilderSamples.stairsData n l) ->
       m_nodeLevelMap st' !! n = None /\ levelForNode (m_nodeLevelMap st') n = 0).
Proof.
  apply (indexNodeLevels_index NavMeshBuilderSamples.stairsData NavMeshBuilderSamples.emptyState).
  - repeat constructor; discriminate.
  - reflexivity.
Defined.

End NavMeshGeometryFacts.

(** ** The floor level change model *)

Module FloorLevelChangeModelFacts.
Import OSM Map FloorLevelChangeModel.

Section Facts.
Context `{Env} `{StdSort}.

Lemma level_before_asym (a b : Z) : level_before a b = true -> level_before b a = false.
Proof.
  intros Hab. destruct (level_before b a) eqn:Hba; [|reflexivity].
  pose proof (level_before_trans _ _ _ Hab Hba) as Haa.
  rewrite level_before_irrefl in Haa. discriminate.
Qed.

Lemma level_incomparable (a b : Z) :
  level_before a b = false -> level_before b a = false -> a = b.
Proof.
  intros Hab Hba. destruct (Z.eq_dec a b) as [|Hne]; [assumption|].
  destruct (level_before_total a b Hne); congruence.
Qed.

Lemma MapLevel_lt_swo : StrictWeakOrder MapLevel_lt.
Proof.
  unfold MapLevel_lt. split.
  - intros a. apply level_before_irrefl.
  - intros a b c. apply level_before_trans.
  - intros a b c H1 H2 H3 H4.
    rewrite (level_incomparable _ _ H1 H2), (level_incomparable _ _ H3 H4).
    split; apply level_before_irrefl.
Qed.

Lemma strictlySorted_sorted_by (l : list MapLevel) : strictlySorted l -> sorted_by MapLevel_lt l.
Proof.
  unfold strictlySorted, sorted_by. induction 1 as [|a l Hl IH Ha]; constructor; [assumption|].
  rewrite List.Forall_forall in Ha |- *. intros b Hb.
  apply level_before_asym. exact (Ha b Hb).
Qed.

Lemma strictlySorted_NoDup (l : list MapLevel) :
  strictlySorted l -> List.NoDup (List.map numericLevel l).
Proof.
  unfold strictlySorted. induction 1 as [|a l Hl IH Ha]; simpl; constructor; [|assumption].
  intros Hin. apply in_map_iff in Hin. destruct Hin as (b & Hkey & Hb).
  rewrite List.Forall_forall in Ha. specialize (Ha b Hb). unfold MapLevel_lt in Ha.
  rewrite Hkey, level_before_irrefl in Ha. discriminate.
Qed.

Lemma unique_from_strict (l : list MapLevel) :
  forall prev,
    sorted_by MapLevel_lt l ->
    List.Forall (fun b => MapLevel_lt b prev = false) l ->
    strictlySorted (unique_from prev l) /\
    List.Forall (fun b => MapLevel_lt prev b = true) (unique_from prev l).
Proof.
  unfold sorted_by, strictlySorted.
  induction l as [|b r IH]; intros prev Hs Hp; simpl; [split; constructor|].
  inversion Hs as [|? ? Hr Hb]; subst. inversion Hp as [|? ? Hbp Hrp]; subst.
  unfold MapLevel_eq. destruct (numericLevel prev =? numericLevel b) eqn:E.
  - now apply IH.
  - destruct (IH b Hr Hb) as [IH1 IH2].
    assert (Hpb : MapLevel_lt prev b = true).
    { unfold MapLevel_lt in *.
      destruct (level_before_total (numericLevel prev) (numericLevel b)); [lia|assumption|congruence]. }
    split; constructor; try assumption.
    rewrite List.Forall_forall in IH2 |- *. intros c Hc.
    unfold MapLevel_lt in *. eapply level_before_trans; [exact Hpb|now apply IH2].
Qed.

Lemma unique_strict (l : list MapLevel) : sorted_by MapLevel_lt l -> strictlySorted (unique l).
Proof.
  intros Hs. destruct l as [|a r]; [constructor|]. simpl.
  inversion Hs as [|? ? Hr Ha]; subst.
  destruct (unique_from_strict r a Hr Ha) as [H1 H2]. now constructor.
Qed.

Lemma unique_from_keys (l : list MapLevel) :
  forall prev k,
    (k = numericLevel prev \/ In k (List.map numericLevel (unique_from prev l))) <->
    (k = numericLevel prev \/ In k (List.map numericLevel l)).
Proof.
  induction l as [|b r IH]; intros prev k; simpl; [tauto|].
  unfold MapLevel_eq. destruct (numericLevel prev =? numericLevel b) eqn:E.
  - rewrite IH. apply Z.eqb_eq in E. rewrite E. intuition congruence.
  - simpl. specialize (IH b k). intuition congruence.
Qed.

Lemma unique_keys (l : list MapLevel) (k : Z) :
  In k (List.map numericLevel (unique l)) <-> In k (List.map numericLevel l).
Proof.
  destruct l as [|a r]; simpl; [tauto|].
  pose proof (unique_from_keys r a k). intuition congruence.
Qed.

(** The numeric levels that are stored are those that were appended. *)
Lemma stored_keys (l : list MapLevel) (k : Z) :
  In k (List.map numericLevel (unique (std_sort MapLevel_lt l)))
  <-> In k (List.map numericLevel l).
Proof.
  rewrite unique_keys.
  pose proof (Permutation_map numericLevel (std_sort_perm _ MapLevel_lt l)) as Hp.
  split; intros Hin.
  - exact (Permutation_in _ (Permutation_sym Hp) Hin).
  - exact (Permutation_in _ Hp Hin).
Qed.

Lemma stored_strict (l : list MapLevel) : strictlySorted (unique (std_sort MapLevel_lt l)).
Proof. apply unique_strict, std_sort_sorted, MapLevel_lt_swo. Qed.

(** In every state the model goes through the level list is strictly
    sorted. *)
Lemma reachable_strictlySorted (st : Model) : reachable st -> strictlySorted (m_levels st).
Proof.
  induction 1 as [|element st _ IH|level st _ IH|fm st _ IH|st _ IH].
  - constructor.
  - unfold setElement. destruct (Element_eqb (m_element st) element); [exact IH|].
    cbn [m_levels]. destruct (isLevelChangeElement element); [apply stored_strict|constructor].
  - unfold setCurrentFloorLevel. now destruct (m_currentFloorLevel st =? level).
  - exact IH.
  - constructor.
Qed.

Lemma appendFullFloorLevel_knows (fm : option FloorLevelModel) (levels : list MapLevel) (l : Z) :
  knowsLevel fm l ->
  exists ml, appendFullFloorLevel fm levels l = levels ++ [ml] /\ numericLevel ml = l.
Proof.
  destruct fm as [m|]; simpl.
  - intros [Hrow Hlevel]. exists (mapLevelAt m (rowForLevel m l)).
    replace (0 <=? rowForLevel m l) with true by (symmetry; apply Z.leb_le; assumption).
    now split.
  - intros _. exists (MapLevel_ctor l). split; [reflexivity|apply MapLevel_ctor_level].
Qed.

Lemma appendFull_fold_keys (g : Z -> Z) (ixs : list Z) :
  forall levels,
    List.map numericLevel (fold_left (fun levels i => appendFullFloorLevel None levels (g i)) ixs levels)
    = List.map numericLevel levels ++ List.map g ixs.
Proof.
  induction ixs as [|i r IH]; intros levels; simpl; [now rewrite app_nil_r|].
  rewrite IH, map_app. simpl. rewrite MapLevel_ctor_level. now rewrite <- app_assoc.
Qed.

Lemma appendFloorLevel_fold_keys (ps : list Z) :
  forall levels,
    List.map numericLevel (fold_left (appendFloorLevel None) ps levels)
    = List.map numericLevel levels ++ flat_map fullLevelsOf ps.
Proof.
  induction ps as [|p r IH]; intros levels; simpl; [now rewrite app_nil_r|].
  rewrite IH. unfold appendFloorLevel, fullLevelsOf.
  destruct (isFullLevel p); simpl; rewrite !map_app; simpl;
    rewrite !MapLevel_ctor_level, <- !app_assoc; reflexivity.
Qed.

(** Without a floor level model the appended levels are [levelsAppended]. *)
Lemma appendedLevels_keys (element : Element) :
  List.map numericLevel (appendedLevels None element) = levelsAppended element.
Proof.
  unfold appendedLevels, levelsAppended.
  rewrite appendFloorLevel_fold_keys, appendFull_fold_keys.
  destruct (0 <? toUInt (Element_tagValue element "building:levels")).
  - rewrite appendFull_fold_keys. simpl. now rewrite <- app_assoc.
  - reflexivity.
Qed.

(** C7 (amended).  After [setElement] on a level change element the level
    list is sorted in the order of [MapLevel::operator<] and no two of its
    entries have the same numeric level.  When the element is a new one and
    no floor level model is set, its numeric levels are those of the
    building ranges and of the parsed level list, a parsed level that is
    not a full level standing for the full levels below and above it.
    For an element tagged [level=-1;0;1;2] without building level tags,
    whose levels the floor level model (if any) has, the list holds
    exactly the levels -10, 0, 10 and 20 and [hasMultipleLevelChanges] is
    true. *)
Theorem setElement_levels (element : Element) (st : Model) :
  reachable st ->
  isLevelChangeElement element = true ->
  sorted_by MapLevel_lt (m_levels (setElement element st)) /\
  List.NoDup (List.map numericLevel (m_levels (setElement element st))) /\
  (m_element st <> element -> m_floorLevelModel st = None ->
   forall l, In l (List.map numericLevel (m_levels (setElement element st)))
             <-> In l (levelsAppended element)) /\
  (m_element st <> element ->
   Element_tagValue element "building:levels" = "" ->
   Element_tagValue element "building:levels:underground" = "" ->
   Element_tagValue element "level" = "-1;0;1;2" ->
   toUInt "" = 0 ->
   parse "-1;0;1;2" element = [-10; 0; 10; 20] ->
   List.Forall (knowsLevel (m_floorLevelModel st)) [-10; 0; 10; 20] ->
   Permutation (List.map numericLevel (m_levels (setElement element st))) [-10; 0; 10; 20] /\
   hasMultipleLevelChanges (setElement element st) = true).
Proof.
  intros Hreach Hchange.
  pose proof (reachable_strictlySorted _ (reachable_setElement element st Hreach)) as Hstrict.
  split; [now apply strictlySorted_sorted_by|].
  split; [now apply strictlySorted_NoDup|].
  assert (Hnew : m_element st <> element ->
                 m_levels (setElement element st)
                 = unique (std_sort MapLevel_lt (appendedLevels (m_floorLevelModel st) element))).
  { intros Hne. unfold setElement, Element_eqb.
    rewrite bool_decide_eq_false_2 by assumption. cbn [m_levels]. now rewrite Hchange. }
  split.
  - intros Hne Hfm l. rewrite (Hnew Hne), Hfm, stored_keys, appendedLevels_keys. reflexivity.
  - intros Hne Hbl Hul Hlevel Huint Hparse Hknows.
    assert (Hkeys : exists mls,
               appendedLevels (m_floorLevelModel st) element = mls /\
               List.map numericLevel mls = [-10; 0; 10; 20]).
    { unfold appendedLevels. rewrite Hbl, Hul, Huint.
      change (0 <? 0) with false. cbv iota.
      change (countDown 0) with (@nil Z). cbn [fold_left].
      unfold Element_tagValue2. rewrite Hlevel.
      change (negb (isEmpty "-1;0;1;2")) with true. cbv iota.
      rewrite Hparse. cbn [fold_left]. unfold appendFloorLevel.
      change (isFullLevel (-10)) with true. change (isFullLevel 0) with true.
      change (isFullLevel 10) with true. change (isFullLevel 20) with true. cbv iota.
      inversion Hknows as [|? ? K1 Hk1]; subst. inversion Hk1 as [|? ? K2 Hk2]; subst.
      inversion Hk2 as [|? ? K3 Hk3]; subst. inversion Hk3 as [|? ? K4 _]; subst.
      destruct (appendFullFloorLevel_knows _ [] _ K1) as (m1 & -> & E1).
      destruct (appendFullFloorLevel_knows _ ([] ++ [m1]) _ K2) as (m2 & -> & E2).
      destruct (appendFullFloorLevel_knows _ (([] ++ [m1]) ++ [m2]) _ K3) as (m3 & -> & E3).
      destruct (appendFullFloorLevel_knows _ ((([] ++ [m1]) ++ [m2]) ++ [m3]) _ K4) as (m4 & -> & E4).
      eexists. split; [reflexivity|]. simpl. now rewrite E1, E2, E3, E4. }
    destruct Hkeys as (mls & Happ & Hmls).
    assert (Hperm : Permutation (List.map numericLevel (m_levels (setElement element st)))
                                [-10; 0; 10; 20]).
    { apply Permutation.NoDup_Permutation.
      - now apply strictlySorted_NoDup.
      - repeat constructor; simpl; intuition lia.
      - intros l. rewrite (Hnew Hne), stored_keys, Happ, Hmls. reflexivity. }
    split; [exact Hperm|].
    unfold hasMultipleLevelChanges.
    apply Permutation_length in Hperm. rewrite length_map in Hperm. now rewrite Hperm.
Qed.

End Facts.
End FloorLevelChangeModelFacts.

Module FloorLevelChangeModelExamples.
Import OSM Map FloorLevelChangeModel FloorLevelChangeModelFacts FloorLevelChangeModelSamples.

Example parseLevels_elevator : parseLevels "-1;0;1;2" = [-10; 0; 10; 20].
Proof. reflexivity. Qed.

Example parseLevels_half : parseLevels "0.5" = [5].
Proof. reflexivity. Qed.

Example setElement_elevator :
  List.map numericLevel (m_levels (setElement elevator (setCurrentFloorLevel 0 initial)))
  = [20; 10; 0; -10].
Proof. vm_compute. reflexivity. Qed.

(** C7, as stated, fails: for stairs tagged [level=0.5] the parsed level
    list is the level 5 alone, and so is the union the claim describes;
    the model holds the two full levels 0 and 10 next to it instead. *)
Lemma setElement_half_level_not_as_specified :
  isLevelChangeElement halfLevelStairs = true /\
  levelsAsSpecified halfLevelStairs = [5] /\
  List.map numericLevel (m_levels (setElement halfLevelStairs initial)) = [10; 0] /\
  ~ (forall l, In l (List.map numericLevel (m_levels (setElement halfLevelStairs initial)))
               <-> In l (levelsAsSpecified halfLevelStairs)).
Proof.
  split; [reflexivity|]. split; [vm_compute; reflexivity|].
  split; [vm_compute; reflexivity|].
  replace (List.map numericLevel (m_levels (setElement halfLevelStairs initial)))
    with [10; 0] by (vm_compute; reflexivity).
  replace (levelsAsSpecified halfLevelStairs) with [5] by (vm_compute; reflexivity).
  intros Hiff. destruct (Hiff 5) as [_ Hin]. simpl in Hin. lia.
Qed.

Lemma setElement_levels_witness :
  sorted_by MapLevel_lt (m_levels (setElement elevator initial)) /\
  List.NoDup (List.map numericLevel (m_levels (setElement elevator initial))) /\
  (forall l, In l (List.map numericLevel (m_levels (setElement elevator initial)))
             <-> In l (levelsAppended elevator)) /\
  Permutation (List.map numericLevel (m_levels (setElement elevator initial))) [-10; 0; 10; 20] /\
  hasMultipleLevelChanges (setElement elevator initial) = true.
Proof.
  destruct (setElement_levels elevator initial reachable_initial eq_refl)
    as (Hsorted & Hnodup & Hkeys & Hexample).
  split; [exact Hsorted|]. split; [exact Hnodup|].
  split; [apply Hkeys; [discriminate|reflexivity]|].
  apply Hexample; try reflexivity; [discriminate|].
  repeat constructor.
Defined.

End FloorLevelChangeModelExamples.

(* ================================================================== *)
(** * Part III: further properties of the code                         *)
(* ================================================================== *)

(** ** The OSM element model: lookups, bounding boxes, outer paths *)

Module OSMFurtherFacts.
Import OSM OSMFacts OSMSamples.

Lemma sortedById_suffix {A : Type} (id_of : A -> Id) (pre suf : list A) :
  sortedById id_of (pre ++ suf) -> sortedById id_of suf.
Proof.
  induction pre as [|a pre IH]; simpl; [trivial|].
  intros Hs. apply StronglySorted_inv in Hs. now apply IH.
Qed.

Lemma lower_bound_sorted {A : Type} (id_of : A -> Id) (l : list A) (i : Id) :
  sortedById id_of l ->
  exists pre, l = pre ++ lower_bound id_of l i /\
              Forall (fun x => id_of x < i) pre /\
              Forall (fun x => i <= id_of x) (lower_bound id_of l i).
Proof.
  induction 1 as [|a l Hl IH Ha]; simpl.
  - exists []. repeat split; constructor.
  - destruct (id_of a <? i) eqn:E.
    + destruct IH as (pre & Hpre & Hlt & Hge). exists (a :: pre). repeat split.
      * simpl. now rewrite <- Hpre.
      * constructor; [now apply Z.ltb_lt|assumption].
      * assumption.
    + apply Z.ltb_ge in E. exists []. repeat split; [constructor|].
      constructor; [assumption|].
      rewrite List.Forall_forall in Ha |- *. intros x Hx. specialize (Ha x Hx). lia.
Qed.

Lemma lookup_id_sorted_cases {A : Type} (id_of : A -> Id) (l : list A) (i : Id) :
  sortedById id_of l ->
  match lookup_id id_of l i with
  | Some x => In x l /\ id_of x = i
  | None => forall x, In x l -> id_of x <> i
  end.
Proof.
  intros Hs. destruct (lower_bound_sorted id_of l i Hs) as (pre & Hl & Hlt & Hge).
  unfold lookup_id. destruct (lower_bound id_of l i) as [|x r] eqn:E.
  - intros y Hy. rewrite Hl, app_nil_r in Hy.
    rewrite List.Forall_forall in Hlt. specialize (Hlt y Hy). lia.
  - destruct (id_of x =? i) eqn:Ex.
    + apply Z.eqb_eq in Ex. split; [|assumption]. rewrite Hl. apply in_or_app. right. now left.
    + apply Z.eqb_neq in Ex. intros y Hy. rewrite Hl in Hy. apply in_app_or in Hy.
      rewrite List.Forall_forall in Hlt, Hge. destruct Hy as [Hy|Hy].
      * specialize (Hlt y Hy). lia.
      * assert (Hxi : i <= id_of x) by (apply Hge; now left).
        destruct Hy as [<-|Hy]; [lia|].
        rewrite Hl in Hs. apply sortedById_suffix in Hs.
        apply StronglySorted_inv in Hs. destruct Hs as [_ Hs].
        rewrite List.Forall_forall in Hs. specialize (Hs y Hy). lia.
Qed.

(** X1.  The lookup idiom [std::lower_bound] followed by the test
    [it != end && it->id == id], on a vector sorted by id: it finds an
    element with the id when the vector has one, and finds none only when
    the vector has none. *)
Theorem lookup_id_sorted {A : Type} (id_of : A -> Id) (l : list A) (i : Id) :
  sortedById id_of l ->
  match lookup_id id_of l i with
  | Some x => In x l /\ id_of x = i
  | None => forall x, In x l -> id_of x <> i
  end.
Proof. apply lookup_id_sorted_cases. Qed.


(** *** Bounding boxes *)

Lemma unite_invalid_l (b1 b2 : BoundingBox) :
  BoundingBox_isValid b1 = false -> unite b1 b2 = b2.
Proof. intros Hb. unfold unite. now rewrite Hb. Qed.

Lemma Coordinate_isValid_spec (c : Coordinate) :
  Coordinate_isValid c = true <-> latitude c <> INT32_MAX /\ longitude c <> INT32_MAX.
Proof.
  unfold Coordinate_isValid. rewrite andb_true_iff, !negb_true_iff, !Z.eqb_neq. reflexivity.
Qed.

Lemma unite_valid (b1 b2 : BoundingBox) :
  BoundingBox_isValid b1 = true -> BoundingBox_isValid b2 = true ->
  BoundingBox_isValid (unite b1 b2) = true /\
  forall c, covers b1 c \/ covers b2 c -> covers (unite b1 b2) c.
Proof.
  intros H1 H2. unfold unite. rewrite H1, H2. cbn [negb].
  unfold BoundingBox_isValid in *. apply andb_true_iff in H1, H2.
  destruct H1 as [H1a H1b], H2 as [H2a H2b].
  apply Coordinate_isValid_spec in H1a, H1b, H2a, H2b.
  split.
  - apply andb_true_iff. split; apply Coordinate_isValid_spec;
      cbn [bbox_min bbox_max latitude longitude];
      revert H1a H1b H2a H2b; generalize INT32_MAX; intros; lia.
  - clear H1a H1b H2a H2b. intros c. unfold covers.
    cbn [bbox_min bbox_max latitude longitude]. lia.
Qed.

(** X2.  [unite]: an invalid first box gives the second box, a valid
    first and an invalid second box give the first; of two valid boxes it
    gives a valid box, the same in either argument order, that covers
    what either box covers and lies within every box that covers the
    corners of both. *)
Theorem unite_covers (b1 b2 : BoundingBox) :
  (BoundingBox_isValid b1 = false -> unite b1 b2 = b2) /\
  (BoundingBox_isValid b1 = true -> BoundingBox_isValid b2 = false -> unite b1 b2 = b1) /\
  (BoundingBox_isValid b1 = true -> BoundingBox_isValid b2 = true ->
   BoundingBox_isValid (unite b1 b2) = true /\
   unite b1 b2 = unite b2 b1 /\
   (forall c, covers b1 c \/ covers b2 c -> covers (unite b1 b2) c) /\
   (forall b,
       covers b (bbox_min b1) -> covers b (bbox_max b1) ->
       covers b (bbox_min b2) -> covers b (bbox_max b2) ->
       covers b (bbox_min (unite b1 b2)) /\ covers b (bbox_max (unite b1 b2)))).
Proof.
  split; [apply unite_invalid_l|]. split.
  - intros H1 H2. unfold unite. now rewrite H1, H2.
  - intros H1 H2. split; [now apply unite_valid|]. split; [|split].
    + unfold unite. rewrite H1, H2. cbn [negb].
      now rewrite (Z.min_comm (latitude (bbox_min b1))), (Z.min_comm (longitude (bbox_min b1))),
        (Z.max_comm (latitude (bbox_max b1))), (Z.max_comm (longitude (bbox_max b1))).
    + now apply unite_valid.
    + intros b. unfold unite, covers. rewrite H1, H2.
      cbn [negb bbox_min bbox_max latitude longitude]. clear H1 H2. lia.
Qed.

(** *** The bounding box of a way *)

Lemma recompute_fold (ds : DataSet) (ids : list Id) :
  forall b,
    fold_left (fun bbox nodeId =>
                 match lookup_id node_id (nodes ds) nodeId with
                 | None => bbox
                 | Some n => unite bbox {| bbox_min := coordinate n; bbox_max := coordinate n |}
                 end) ids b
    = fold_left (fun bbox n => unite bbox (pointBox n)) (resolve ds ids) b.
Proof.
  induction ids as [|i r IH]; intros b; [reflexivity|].
  rewrite resolve_cons. cbn [fold_left]. destruct (lookup_id node_id (nodes ds) i); apply IH.
Qed.

Lemma pointBox_valid (n : Node) :
  Coordinate_isValid (coordinate n) = true -> BoundingBox_isValid (pointBox n) = true.
Proof. intros Hn. unfold BoundingBox_isValid, pointBox. cbn. now rewrite Hn. Qed.

Lemma pointBox_covers (n : Node) : covers (pointBox n) (coordinate n).
Proof. unfold covers, pointBox. cbn. lia. Qed.

Lemma unite_fold_valid (ns : list Node) :
  Forall (fun n => Coordinate_isValid (coordinate n) = true) ns ->
  forall b, BoundingBox_isValid b = true ->
    BoundingBox_isValid (fold_left (fun bbox n => unite bbox (pointBox n)) ns b) = true /\
    (forall c, covers b c -> covers (fold_left (fun bbox n => unite bbox (pointBox n)) ns b) c) /\
    (forall n, In n ns ->
               covers (fold_left (fun bbox n => unite bbox (pointBox n)) ns b) (coordinate n)).
Proof.
  induction 1 as [|n ns Hn Hns IH]; intros b Hb; cbn [fold_left].
  - split; [assumption|split; [trivial|intros n []]].
  - destruct (unite_valid b (pointBox n) Hb (pointBox_valid n Hn)) as [Hv Hc].
    destruct (IH _ Hv) as (Hv' & Hc' & Hin'). split; [assumption|split].
    + intros c Hcov. apply Hc'. apply Hc. now left.
    + intros m [<-|Hm]; [|now apply Hin'].
      apply Hc'. apply Hc. right. apply pointBox_covers.
Qed.

(** X3.  [recomputeBoundingBox] of a way, all nodes of the data set
    having valid coordinates: a way none of whose node ids is in the data
    set gets the invalid default box; otherwise the box is valid and
    covers the coordinate of every node of the way that is in the data
    set. *)
Theorem recomputeBoundingBox_way_covers (ds : DataSet) (w : Way) :
  Forall (fun n => Coordinate_isValid (coordinate n) = true) (nodes ds) ->
  (resolve ds (way_nodes w) = [] -> recomputeBoundingBox_way ds w = BoundingBox_default) /\
  (resolve ds (way_nodes w) <> [] ->
   BoundingBox_isValid (recomputeBoundingBox_way ds w) = true /\
   forall n, In n (resolve ds (way_nodes w)) ->
             covers (recomputeBoundingBox_way ds w) (coordinate n)).
Proof.
  intros Hvalid. unfold recomputeBoundingBox_way. rewrite recompute_fold.
  assert (Hres : Forall (fun n => Coordinate_isValid (coordinate n) = true)
                        (resolve ds (way_nodes w))).
  { rewrite List.Forall_forall in Hvalid |- *. intros n Hn. apply Hvalid.
    clear Hvalid. revert Hn. generalize (way_nodes w). intros ids.
    induction ids as [|i r IH]; [intros []|]. rewrite resolve_cons.
    destruct (lookup_id node_id (nodes ds) i) as [m|] eqn:E; [|exact IH].
    intros [<-|Hn]; [now apply lookup_id_Some in E|now apply IH]. }
  destruct (resolve ds (way_nodes w)) as [|n0 ns]; split; try congruence; [reflexivity|].
  intros _. cbn [fold_left]. apply Forall_cons in Hres. destruct Hres as [Hn0 Hns].
  rewrite unite_invalid_l by reflexivity.
  destruct (unite_fold_valid ns Hns (pointBox n0) (pointBox_valid n0 Hn0)) as (Hv & Hc & Hin).
  split; [assumption|]. intros n [<-|Hn]; [apply Hc, pointBox_covers|now apply Hin].
Qed.


(** *** The outer path of a way *)

Lemma resolve_sorted (ds : DataSet) (ids : list Id) :
  sortedById node_id (nodes ds) ->
  map node_id (resolve ds ids)
  = List.filter (fun i => bool_decide (i ∈ map node_id (nodes ds))) ids.
Proof.
  intros Hs. induction ids as [|i r IH]; [reflexivity|].
  rewrite resolve_cons. cbn [List.filter].
  pose proof (lookup_id_sorted_cases node_id (nodes ds) i Hs) as Hl.
  destruct (lookup_id node_id (nodes ds) i) as [n|].
  - destruct Hl as [Hin Hid]. rewrite bool_decide_eq_true_2.
    + cbn [map]. now rewrite Hid, IH.
    + apply list_elem_of_In, in_map_iff. now exists n.
  - rewrite bool_decide_eq_false_2; [exact IH|].
    intros Hin. apply list_elem_of_In, in_map_iff in Hin. destruct Hin as (n & Hid & Hn).
    now apply (Hl n Hn).
Qed.

Lemma resolve_In (ds : DataSet) (ids : list Id) (n : Node) :
  In n (resolve ds ids) -> In n (nodes ds) /\ In (node_id n) ids.
Proof.
  induction ids as [|i r IH]; [intros []|]. rewrite resolve_cons.
  destruct (lookup_id node_id (nodes ds) i) as [m|] eqn:E.
  - intros [<-|Hn].
    + apply lookup_id_Some in E. destruct E as [-> Hin]. split; [assumption|now left].
    + destruct (IH Hn). split; [assumption|now right].
  - intros Hn. destruct (IH Hn). split; [assumption|now right].
Qed.

(** X4.  The outer path of a way, the node vector being sorted by id:
    its node ids are the way's node ids that the data set has a node for,
    in way order (ids without a node are dropped, nothing fails); its nodes
    are nodes of the data set, and it is no longer than the way. *)
Theorem outerPath_way (ds : DataSet) (w : Way) :
  sortedById node_id (nodes ds) ->
  map node_id (outerPath ds (EWay w))
  = List.filter (fun i => bool_decide (i ∈ map node_id (nodes ds))) (way_nodes w) /\
  (forall n, In n (outerPath ds (EWay w)) -> In n (nodes ds)) /\
  (length (outerPath ds (EWay w)) <= length (way_nodes w))%nat.
Proof.
  intros Hs. change (outerPath ds (EWay w)) with (resolve ds (way_nodes w)).
  split; [now apply resolve_sorted|]. split.
  - intros n Hn. now apply resolve_In in Hn.
  - rewrite <- (length_map node_id), resolve_sorted by assumption. apply List.filter_length_le.
Qed.

(** *** Stitching ways that are listed head to tail *)

Lemma chained_tail (w : Way) (ws : list Way) : chained (w :: ws) -> chained ws.
Proof. destruct ws; [trivial|]. now intros [_ H]. Qed.

Lemma chained_app_r (ws1 ws2 : list Way) : chained (ws1 ++ ws2) -> chained ws2.
Proof.
  induction ws1 as [|w ws1 IH]; [trivial|]. intros Hc. apply IH.
  now apply (chained_tail w).
Qed.

Lemma stitchLoop_chained (ds : DataSet) (start : Id) (w0 : Way) :
  forall rest fuel ns lastNode,
    match rest with [] => True | w1 :: _ => front w1 = lastNode end ->
    chained rest ->
    exists taken remaining,
      rest = taken ++ remaining /\
      stitchLoop fuel ds ns start lastNode (w0 :: rest)
      = (ns ++ concat (map (fun w => resolve ds (way_nodes w)) taken), w0 :: remaining).
Proof.
  induction rest as [|w1 r IH]; intros fuel ns lastNode Hfront Hchain.
  - exists [], []. split; [reflexivity|]. cbn [map concat]. rewrite app_nil_r.
    destruct fuel as [|fuel]; [reflexivity|].
    cbn [stitchLoop appendNextPath appendNextPath_from]. reflexivity.
  - destruct fuel as [|fuel].
    + exists [], (w1 :: r). split; [reflexivity|]. cbn [map concat stitchLoop].
      now rewrite app_nil_r.
    + cbn [stitchLoop appendNextPath appendNextPath_from].
      rewrite Hfront, Z.eqb_refl. cbn [app]. rewrite appendNodesFromWay_app.
      destruct (negb (back w1 =? 0) && negb (back w1 =? start)).
      * destruct (IH fuel (ns ++ resolve ds (way_nodes w1)) (back w1)) as (taken & remaining & Hr & Hs).
        { destruct r as [|w2 r']; [trivial|]. now destruct Hchain. }
        { now apply (chained_tail w1). }
        exists (w1 :: taken), remaining. split; [now rewrite Hr|].
        rewrite Hs. cbn [map concat]. now rewrite <- app_assoc.
      * exists [w1], r. split; [reflexivity|]. cbn [map concat]. now rewrite app_nil_r.
Qed.

Lemma stitchWays_chained (ds : DataSet) :
  forall n ws, (length ws <= n)%nat -> chained ws ->
    forall fuel ns, (length ws <= fuel)%nat ->
      stitchWays fuel ds ns ws = ns ++ concat (map (fun w => resolve ds (way_nodes w)) ws).
Proof.
  induction n as [|n IH]; intros ws Hn Hchain fuel ns Hfuel.
  - destruct ws; [|simpl in Hn; lia]. destruct fuel; simpl; now rewrite app_nil_r.
  - destruct ws as [|w rest]; [destruct fuel; simpl; now rewrite app_nil_r|].
    destruct fuel as [|fuel]; [simpl in Hfuel; lia|].
    cbn [stitchWays]. rewrite appendNodesFromWay_app.
    destruct (stitchLoop_chained ds (front w) w rest (length (w :: rest))
                (ns ++ resolve ds (way_nodes w)) (back w)) as (taken & remaining & Hr & Hs).
    { destruct rest; [trivial|]. now destruct Hchain. }
    { now apply (chained_tail w). }
    rewrite Hs. cbn [tl].
    assert (Hlen : (length remaining <= length rest)%nat).
    { rewrite Hr, length_app. lia. }
    rewrite IH.
    + rewrite Hr. cbn [map concat]. rewrite map_app, concat_app, <- !app_assoc. reflexivity.
    + simpl in Hn. lia.
    + rewrite Hr in Hchain. apply chained_tail in Hchain. now apply chained_app_r in Hchain.
    + simpl in Hfuel. lia.
Qed.

(** X5.  The outer path of a multipolygon whose outer ways are listed
    head to tail (each starts at the node id the one before it ends at) is
    the nodes of the ways one way after the other, in member order, none
    of them reversed. *)
Theorem outerPath_chained (ds : DataSet) (r : Relation) :
  Element_tagValue (ERelation r) "type" = "multipolygon" ->
  chained (collectOuterWays ds (members r)) ->
  outerPath ds (ERelation r)
  = concat (map (fun w => resolve ds (way_nodes w)) (collectOuterWays ds (members r))).
Proof.
  intros Htype Hchain. unfold outerPath. rewrite Htype. cbn [String.eqb negb].
  change (String.eqb "multipolygon" "multipolygon") with true. cbn [negb].
  now rewrite (stitchWays_chained ds _ _ (le_n _) Hchain).
Qed.

(** X6.  The outer path of a multipolygon with two outer ways: the
    second way is appended reversed exactly when it ends, and does not
    start, at the node id the first way ends at; in every other case it is
    appended in its own direction (continuing the first way, or as a new
    loop). *)
Theorem outerPath_two_ways (ds : DataSet) (r : Relation) (w1 w2 : Way) :
  Element_tagValue (ERelation r) "type" = "multipolygon" ->
  collectOuterWays ds (members r) = [w1; w2] ->
  outerPath ds (ERelation r)
  = resolve ds (way_nodes w1)
    ++ resolve ds (if negb (front w2 =? back w1) && (back w2 =? back w1)
                   then rev (way_nodes w2) else way_nodes w2).
Proof.
  intros Htype Hways. unfold outerPath. rewrite Htype.
  change (String.eqb "multipolygon" "multipolygon") with true. cbn [negb].
  rewrite Hways. cbn [length stitchWays stitchLoop appendNextPath appendNextPath_from app].
  rewrite !appendNodesFromWay_app. cbn [app].
  destruct (front w2 =? back w1) eqn:E1; cbn [negb andb].
  - destruct (negb (back w2 =? 0) && negb (back w2 =? front w1)); cbn [tl]; reflexivity.
  - destruct (back w2 =? back w1) eqn:E2.
    + destruct (negb (front w2 =? 0) && negb (front w2 =? front w1)); cbn [tl]; reflexivity.
    + change (negb (0 =? 0) && negb (0 =? front w1)) with false. cbn [tl].
      rewrite appendNodesFromWay_app. cbn. reflexivity.
Qed.


(** *** Tag lookup *)

(** X7.  [tagValue]: the value of the first tag with the key, also
    when later tags repeat the key; the empty string when no tag has the
    key. *)
Theorem tagValue_first_match (tags_ : list Tag) (k : string) :
  (forall pre t post,
      tags_ = pre ++ t :: post -> key t = k -> Forall (fun t' => key t' <> k) pre ->
      tagValue tags_ k = value t) /\
  (Forall (fun t => key t <> k) tags_ -> tagValue tags_ k = "").
Proof.
  split.
  - intros pre t post -> Hk Hpre. induction Hpre as [|t' pre Ht' _ IH]; cbn [app tagValue].
    + rewrite Hk, String.eqb_refl. reflexivity.
    + apply String.eqb_neq in Ht'. now rewrite Ht'.
  - induction 1 as [|t r Ht _ IH]; [reflexivity|].
    cbn [tagValue]. apply String.eqb_neq in Ht. now rewrite Ht.
Qed.

(** *** Witnesses *)

Local Ltac sorted_sample :=
  unfold sortedById; repeat (constructor; [|repeat constructor; simpl; lia]); constructor.

Lemma sampleDataSet_sorted : sortedById node_id (nodes sampleDataSet).
Proof. sorted_sample. Defined.

Lemma lookup_id_sorted_witness :
  (In (sampleNode 3) (nodes sampleDataSet) /\ node_id (sampleNode 3) = 3) /\
  (forall x, In x (nodes sampleDataSet) -> node_id x <> 9).
Proof.
  split.
  - exact (lookup_id_sorted node_id (nodes sampleDataSet) 3 sampleDataSet_sorted).
  - exact (lookup_id_sorted node_id (nodes sampleDataSet) 9 sampleDataSet_sorted).
Defined.

Lemma recomputeBoundingBox_way_covers_witness :
  BoundingBox_isValid (recomputeBoundingBox_way sampleDataSet (sampleWay 12 [1; 2; 3])) = true /\
  forall n, In n (resolve sampleDataSet [1; 2; 3]) ->
            covers (recomputeBoundingBox_way sampleDataSet (sampleWay 12 [1; 2; 3])) (coordinate n).
Proof.
  apply (recomputeBoundingBox_way_covers sampleDataSet (sampleWay 12 [1; 2; 3])).
  - repeat constructor.
  - discriminate.
Defined.

Lemma outerPath_way_witness :
  map node_id (outerPath sampleDataSet (EWay gapWay))
  = List.filter (fun i => bool_decide (i ∈ map node_id (nodes sampleDataSet))) [1; 7; 3] /\
  (forall n, In n (outerPath sampleDataSet (EWay gapWay)) ->
             In n (nodes sampleDataSet)) /\
  (length (outerPath sampleDataSet (EWay gapWay)) <= 3)%nat.
Proof. exact (outerPath_way sampleDataSet gapWay sampleDataSet_sorted). Defined.

Example outerPath_way_missing_node :
  map node_id (outerPath sampleDataSet (EWay gapWay)) = [1; 3].
Proof. reflexivity. Qed.

Lemma outerPath_chained_witness :
  outerPath splitRing (ERelation (sampleMultipolygon [20; 21]))
  = concat (map (fun w => resolve splitRing (way_nodes w))
                (collectOuterWays splitRing (members (sampleMultipolygon [20; 21])))).
Proof.
  apply (outerPath_chained splitRing (sampleMultipolygon [20; 21])).
  - reflexivity.
  - simpl. split; [reflexivity|exact I].
Defined.

Example outerPath_split_ring :
  map node_id (outerPath splitRing (ERelation (sampleMultipolygon [20; 21]))) = [1; 2; 3; 3; 4; 1].
Proof. reflexivity. Qed.

Lemma outerPath_two_ways_witness :
  outerPath splitRing (ERelation (sampleMultipolygon [20; 22]))
  = resolve splitRing [1; 2; 3] ++ resolve splitRing (rev [1; 4; 3]).
Proof.
  apply (outerPath_two_ways splitRing (sampleMultipolygon [20; 22])
           (sampleWay 20 [1; 2; 3]) (sampleWay 22 [1; 4; 3])); reflexivity.
Defined.

Example outerPath_reversed_piece :
  map node_id (outerPath splitRing (ERelation (sampleMultipolygon [20; 22]))) = [1; 2; 3; 3; 4; 1].
Proof. reflexivity. Qed.

Lemma unite_covers_witness :
  unite BoundingBox_default boxB = boxB /\
  unite boxA BoundingBox_default = boxA /\
  BoundingBox_isValid (unite boxA boxB) = true /\
  unite boxA boxB = unite boxB boxA /\
  (forall c, covers boxA c \/ covers boxB c -> covers (unite boxA boxB) c) /\
  (forall b,
      covers b (bbox_min boxA) -> covers b (bbox_max boxA) ->
      covers b (bbox_min boxB) -> covers b (bbox_max boxB) ->
      covers b (bbox_min (unite boxA boxB)) /\ covers b (bbox_max (unite boxA boxB))).
Proof.
  split; [exact (proj1 (unite_covers BoundingBox_default boxB) eq_refl)|].
  split; [exact (proj1 (proj2 (unite_covers boxA BoundingBox_default)) eq_refl eq_refl)|].
  exact (proj2 (proj2 (unite_covers boxA boxB)) eq_refl eq_refl).
Defined.

Lemma tagValue_first_match_witness :
  tagValue repeatedTags "level" = "0" /\ tagValue repeatedTags "door" = "".
Proof.
  split.
  - apply (proj1 (tagValue_first_match repeatedTags "level")
             [ {| key := "name"; value := "Hall" |} ] {| key := "level"; value := "0" |}
             [ {| key := "level"; value := "1" |} ]).
    + reflexivity.
    + reflexivity.
    + repeat constructor; discriminate.
  - apply (proj2 (tagValue_first_match repeatedTags "door")).
    repeat constructor; discriminate.
Defined.

End OSMFurtherFacts.

(** ** The hit detector: soundness and the polyline test *)

Module HitDetectorFurtherFacts.
Import Qt Scene HitDetector HitDetectorFacts.
Local Open Scope Q_scope.

Lemma qmin_le (a b wd : Q) : qmin a b <= wd <-> a <= wd \/ b <= wd.
Proof.
  unfold qmin. destruct (Qltb b a) eqn:E.
  - apply Qltb_true in E. split; [now right|]. intros [Ha|Hb]; [|assumption].
    apply Qlt_le_weak. eapply Qlt_le_trans; eassumption.
  - apply Qltb_false in E. split; [now left|]. intros [Ha|Hb]; [assumption|].
    eapply Qle_trans; eassumption.
Qed.

Section Facts.
Context `{Env} `{!PayloadMethods} `{StdSort}.

Lemma minDistance_le (scenePos : QPointF) (wd : Q) (rest : list QPointF) :
  forall prev dist,
    match minDistance prev rest scenePos dist with
    | Some m =>
        m <= wd <->
        (exists d0, dist = Some d0 /\ d0 <= wd) \/
        (exists line, In line (segmentsFrom prev rest) /\
                      SceneGeometry_distanceToLine line scenePos <= wd)
    | None => dist = None /\ rest = []
    end.
Proof.
  induction rest as [|p r IH]; intros prev dist; cbn [minDistance segmentsFrom].
  - destruct dist as [d0|]; [|now split]. split.
    + intros Hm. left. now exists d0.
    + intros [(d & Hd & Hle)|(line & [] & _)]. now injection Hd as <-.
  - specialize (IH p (Some (match dist with
                            | Some d0 => qmin d0 (SceneGeometry_distanceToLine {| p1 := prev; p2 := p |} scenePos)
                            | None => SceneGeometry_distanceToLine {| p1 := prev; p2 := p |} scenePos
                            end))).
    destruct (minDistance p r scenePos _) as [m|]; [|destruct IH; discriminate].
    rewrite IH. clear IH. split.
    + intros [(d & Hd & Hle)|(line & Hin & Hle)].
      * injection Hd as <-. destruct dist as [d0|].
        -- apply qmin_le in Hle. destruct Hle as [Hle|Hle].
           ++ left. now exists d0.
           ++ right. eexists. split; [now left|exact Hle].
        -- right. eexists. split; [now left|exact Hle].
      * right. exists line. split; [now right|exact Hle].
    + intros [(d0 & -> & Hle)|(line & [<-|Hin] & Hle)].
      * left. eexists. split; [reflexivity|]. apply qmin_le. now left.
      * left. eexists. split; [reflexivity|]. destruct dist; [apply qmin_le; now right|exact Hle].
      * right. now exists line.
Qed.

(** X9.  The hit test of a polyline: the point is on the line exactly
    when its distance to one of the segments between consecutive points
    of the path is at most the pen width in scene units plus the casing
    pen width as a scene distance; a path of fewer than two points has no
    segment and is never hit. *)
Theorem polylineContainsPoint_segments (item : PolylineItem) (scenePos : QPointF) (view : View) :
  polylineContainsPoint item scenePos view = true <->
  exists line,
    In line (pathSegments (polyline_path item)) /\
    SceneGeometry_distanceToLine line scenePos
    <= mapMetersToScene view (pen_widthF (polyline_pen item))
       + mapScreenDistanceToSceneDistance view (pen_widthF (polyline_casingPen item)).
Proof.
  unfold polylineContainsPoint, pathSegments.
  destruct (polyline_path item) as [|p0 [|p1 rest]].
  - split; [discriminate|]. now intros (line & [] & _).
  - split; [discriminate|]. now intros (line & [] & _).
  - pose proof (minDistance_le scenePos
                  (mapMetersToScene view (pen_widthF (polyline_pen item))
                   + mapScreenDistanceToSceneDistance view (pen_widthF (polyline_casingPen item)))
                  (p1 :: rest) p0 None) as Hm.
    destruct (minDistance p0 (p1 :: rest) scenePos None) as [m|]; [|destruct Hm; discriminate].
    rewrite Qle_bool_iff, Hm. split.
    + intros [(d0 & Hd & _)|Hex]; [discriminate|exact Hex].
    + intros Hex. now right.
Qed.

Lemma itemsAt_from_nil (pos : QPointF) (view : View) (l : list SceneGraphItem) :
  forall i, itemsAt_from i pos l view = [] ->
            List.Forall (fun item => isCandidate pos view item = false) l.
Proof.
  induction l as [|item r IH]; intros i Hnil; [constructor|].
  cbn [itemsAt_from] in Hnil. destruct (isCandidate pos view item) eqn:E; [discriminate|].
  constructor; [assumption|]. now apply (IH (S i)).
Qed.

(** X8.  What [itemAt] returns is always one of the candidates: an item
    of the scene graph, at the position the result names, that has a render
    phase, whose bounding rectangle contains the point and whose shape
    test succeeds.  It returns the null result only when no item of the
    scene graph is a candidate. *)
Theorem itemAt_candidate (pos : QPointF) (sg : SceneGraph) (view : View) :
  match itemAt pos sg view with
  | Some c =>
      In c (itemsAt pos sg view) /\
      items sg !! ptr_index c = Some (ptr_item c) /\
      isCandidate pos view (ptr_item c) = true
  | None => List.Forall (fun item => isCandidate pos view item = false) (items sg)
  end.
Proof.
  assert (Hcand : forall c, In c (itemsAt pos sg view) ->
                            In c (itemsAt pos sg view) /\
                            items sg !! ptr_index c = Some (ptr_item c) /\
                            isCandidate pos view (ptr_item c) = true).
  { intros c Hc. split; [assumption|]. apply itemsAt_from_spec in Hc.
    destruct Hc as [[k [Hi Hk]] Hcand]. simpl in Hi. subst k. now split. }
  unfold itemAt. destruct (itemsAt pos sg view) as [|a [|b l]] eqn:E.
  - now apply (itemsAt_from_nil pos view (items sg) 0%nat).
  - apply Hcand. now left.
  - destruct (last (a :: b :: l)) as [top|] eqn:Elast.
    + destruct (Qle_bool (1 # 2) (itemFillAlpha top)).
      * apply Hcand. apply list_elem_of_In. apply last_Some_elem_of. exact Elast.
      * destruct (sorted_head_leastArea (a :: b :: l)) as (c & Hc & Hleast & _); [discriminate|].
        rewrite Hc. now apply Hcand.
    + apply last_None in Elast. discriminate.
Qed.

(** *** The label test *)

(** X10.  The hit test of a label asks whether the screen position lies
    in the label's hit box, moved so that its centre is where the view
    puts it on the screen.  For a label whose text is not laid out for a
    width the hit box is the bounding rectangle; for one that is, it has
    the same height, top and horizontal centre and is as wide as the text
    advance (or the icon, if wider) plus the larger of frame width and
    halo radius plus the casing width. *)
Theorem labelContainsPoint_hitBox (item : LabelItem) (screenPos : QPointF) (view : View) :
  labelContainsPoint item screenPos view
  = QRectF_contains
      (QRectF_moveCenter (labelHitBox item)
                         (mapSceneToScreen view (QRectF_center (labelHitBox item))))
      screenPos /\
  (Qltb 0 (textWidth item) = false -> labelHitBox item = boundingRect (Label item)) /\
  (Qltb 0 (textWidth item) = true ->
   w (labelHitBox item) == labelHitWidth item /\
   h (labelHitBox item) == h (boundingRect (Label item)) /\
   yp (labelHitBox item) == yp (boundingRect (Label item)) /\
   x (QRectF_center (labelHitBox item)) == x (QRectF_center (boundingRect (Label item)))).
Proof.
  split; [|split].
  - unfold labelContainsPoint, labelHitBox, labelHitWidth.
    destruct (Qltb 0 (textWidth item)); reflexivity.
  - intros Hw. unfold labelHitBox. now rewrite Hw.
  - intros Hw. unfold labelHitBox. rewrite Hw.
    unfold QRectF_adjusted, QRectF_center. cbn [w h xp yp x y].
    repeat split; field.
Qed.

End Facts.
End HitDetectorFurtherFacts.

Module HitDetectorFurtherSamples.
Import Qt Scene HitDetector HitDetectorFacts Samples HitDetectorFurtherFacts.
Local Open Scope Q_scope.

Lemma labelContainsPoint_hitBox_witness :
  labelContainsPoint wrappedLabel samplePos tt
  = QRectF_contains
      (QRectF_moveCenter (labelHitBox wrappedLabel)
                         (mapSceneToScreen tt (QRectF_center (labelHitBox wrappedLabel))))
      samplePos /\
  w (labelHitBox wrappedLabel) == labelHitWidth wrappedLabel /\
  h (labelHitBox wrappedLabel) == h (boundingRect (Label wrappedLabel)) /\
  yp (labelHitBox wrappedLabel) == yp (boundingRect (Label wrappedLabel)) /\
  x (QRectF_center (labelHitBox wrappedLabel))
  == x (QRectF_center (boundingRect (Label wrappedLabel))).
Proof.
  split.
  - exact (proj1 (labelContainsPoint_hitBox wrappedLabel samplePos tt)).
  - exact (proj2 (proj2 (labelContainsPoint_hitBox wrappedLabel samplePos tt)) eq_refl).
Defined.

Example labelHitBox_wrapped :
  labelHitWidth wrappedLabel == 7 /\ w (boundingRect (Label wrappedLabel)) == 10 /\
  labelContainsPoint wrappedLabel {| x := 1; y := 4 |} tt = false /\
  labelContainsPoint wrappedLabel {| x := 2; y := 4 |} tt = true.
Proof. repeat split. Qed.
End HitDetectorFurtherSamples.

(** ** The painter renderer: the painter state and culling *)

Module PainterRendererFurtherFacts.
Import Qt Scene PainterRenderer PainterRendererFacts.
Local Open Scope Q_scope.

Section Facts.
Context `{Env} `{!PayloadMethods}.

Lemma saveDepth_app (a b : list PaintOp) :
  forall d, saveDepth d (a ++ b) = match saveDepth d a with
                                   | Some d' => saveDepth d' b
                                   | None => None
                                   end.
Proof.
  induction a as [|op a IH]; intros d; [reflexivity|].
  destruct op; cbn [app saveDepth]; try apply IH.
  destruct d; [reflexivity|apply IH].
Qed.

Lemma nested_app (a b : list PaintOp) : nested a -> nested b -> nested (a ++ b).
Proof. intros Ha Hb d. now rewrite saveDepth_app, Ha. Qed.

Lemma nested_nil : nested [].
Proof. intros d. reflexivity. Qed.

Lemma nested_bracket (ops : list PaintOp) : nested ops -> nested (Save :: ops ++ [Restore]).
Proof. intros Hn d. cbn [saveDepth]. now rewrite saveDepth_app, Hn. Qed.

Lemma paintsNested_refl (st : RenderState) : paintsNested st st.
Proof. exists []. split; [now rewrite app_nil_r|apply nested_nil]. Qed.

Lemma paintsNested_trans (a b c : RenderState) :
  paintsNested a b -> paintsNested b c -> paintsNested a c.
Proof.
  intros (o1 & H1 & N1) (o2 & H2 & N2). exists (o1 ++ o2).
  split; [now rewrite H2, H1, app_assoc|now apply nested_app].
Qed.

Lemma painted_paint (op : PaintOp) (st : RenderState) : painted (paint op st) = painted st ++ [op].
Proof. reflexivity. Qed.

Lemma painted_setPayload (i : nat) (p : Payload) (st : RenderState) :
  painted (setPayload i p st) = painted st.
Proof. unfold setPayload. now destruct (store st !! i). Qed.

Local Ltac nested_ops :=
  rewrite ?painted_paint, ?painted_setPayload, ?painted_paint;
  repeat rewrite <- app_assoc; eexists; split; [reflexivity|]; intros d; reflexivity.

Lemma renderLabel_nested (view : View) (i : nat) (item : LabelItem) (st : RenderState) :
  paintsNested st (renderLabel view i item st).
Proof.
  unfold paintsNested, renderLabel. destruct (negb (hasFineBbox item)).
  - destruct (computeFineBbox item) as [item' fontSet]. destruct fontSet;
      repeat match goal with |- context [if ?b then _ else _] => destruct b end;
      repeat (rewrite ?painted_paint, ?painted_setPayload);
      repeat rewrite <- app_assoc; eexists; (split; [reflexivity|]); intros d; reflexivity.
  - repeat match goal with |- context [if ?b then _ else _] => destruct b end;
      repeat (rewrite ?painted_paint, ?painted_setPayload);
      repeat rewrite <- app_assoc; eexists; (split; [reflexivity|]); intros d; reflexivity.
Qed.

Lemma renderItem_nested (view : View) (phase : RenderPhase) (i : nat) (st : RenderState) :
  paintsNested st (renderItem view phase i st).
Proof.
  unfold renderItem. destruct (store st !! i) as [item|]; [|apply paintsNested_refl].
  destruct (negb (renderPhases (payload item) phase)); [apply paintsNested_refl|].
  destruct (payload item) as [p|p|p|p|].
  - unfold renderPolygon. destruct phase; rewrite !painted_paint || idtac;
      (eexists; split; [rewrite !painted_paint, <- !app_assoc; reflexivity|intros d; reflexivity]).
  - unfold renderMultiPolygon. destruct phase;
      (eexists; split; [rewrite !painted_paint, <- !app_assoc; reflexivity|intros d; reflexivity]).
  - unfold renderPolyline. destruct phase;
      (eexists; split; [rewrite !painted_paint, <- !app_assoc; reflexivity|intros d; reflexivity]).
  - apply renderLabel_nested.
  - apply paintsNested_refl.
Qed.

Lemma fold_left_nested {A : Type} (f : RenderState -> A -> RenderState) :
  (forall st a, paintsNested st (f st a)) ->
  forall l st, paintsNested st (fold_left f l st).
Proof.
  intros Hf. induction l as [|a l IH]; intros st; [apply paintsNested_refl|].
  cbn [fold_left]. eapply paintsNested_trans; [apply Hf|apply IH].
Qed.

Lemma beginPhase_nested (view : View) (phase : RenderPhase) (st : RenderState) :
  paintsNested st (beginPhase view phase st).
Proof.
  destruct phase;
    (eexists; split; [unfold beginPhase; rewrite !painted_paint, <- !app_assoc; reflexivity
                     |intros d; reflexivity]).
Qed.

Lemma renderLayer_nested (view : View) (st : RenderState) (lo : nat * nat) :
  paintsNested st (renderLayer view st lo).
Proof.
  unfold renderLayer. apply fold_left_nested. intros st' phase. unfold renderPhase_.
  eapply paintsNested_trans; [apply beginPhase_nested|].
  apply (fold_left_nested (fun st i => renderItem view phase i st)).
  intros st'' i. apply renderItem_nested.
Qed.

(** X11.  A render pass leaves the painter's state stack as it found
    it: what it paints starts with a [save] and ends with the matching
    [restore], and in between every [save] (one per label drawn) is
    followed by its [restore] before the next one. *)
Theorem render_save_restore (sg : SceneGraph) (view : View) (before : list PaintOp) :
  exists ops,
    painted (render sg view before) = before ++ Save :: ops ++ [Restore] /\ nested ops.
Proof.
  unfold render, endRender, beginRender. rewrite painted_paint.
  set (st0 := renderBackground view (backgroundColor sg)
                (paint Save {| store := items sg; painted := before |})).
  assert (Hst0 : painted st0 = before ++ [Save; FillRect {| xp := 0; yp := 0; w := screenWidth view;
                                                          h := screenHeight view |}
                                                       (backgroundColor sg)]).
  { unfold st0, renderBackground. rewrite !painted_paint. cbn [painted].
    now rewrite <- app_assoc. }
  destruct (fold_left_nested (renderLayer view) (renderLayer_nested view) (layerOffsets sg) st0)
    as (ops1 & Hl & N1).
  set (st1 := fold_left (renderLayer view) (layerOffsets sg) st0) in *.
  assert (Hfg : exists ops2, painted (renderForeground view (backgroundColor sg) st1)
                            = painted st1 ++ ops2 /\ nested ops2).
  { unfold renderForeground. eexists. split.
    - rewrite !painted_paint, <- !app_assoc. reflexivity.
    - intros d. reflexivity. }
  destruct Hfg as (ops2 & Hf & N2).
  exists ((FillRect {| xp := 0; yp := 0; w := screenWidth view; h := screenHeight view |}
                    (backgroundColor sg) :: ops1) ++ ops2).
  split.
  - rewrite Hf, Hl, Hst0. rewrite <- !app_assoc. reflexivity.
  - apply nested_app; [|assumption]. intros d. cbn [saveDepth]. apply N1.
Qed.


(** *** Items out of view *)

Lemma selectItem_culled (view : View) (st : RenderState) (i : nat) :
  List.Forall (fun item => inView view item = false) (store st) ->
  selectItem view st i = [].
Proof.
  intros Hall. unfold selectItem. destruct (store st !! i) as [item|] eqn:E; [|reflexivity].
  rewrite List.Forall_forall in Hall.
  assert (Hv : inView view item = false).
  { apply Hall. apply list_elem_of_In. eapply list_elem_of_lookup_2. exact E. }
  unfold inView in Hv. apply orb_false_iff in Hv. destruct Hv as [Hs Hh].
  rewrite Hs. destruct (inHUDSpace (payload item)); [|reflexivity].
  cbn [andb] in Hh. now rewrite Hh.
Qed.

Lemma batch_culled (view : View) (st : RenderState) (l : list nat) :
  List.Forall (fun item => inView view item = false) (store st) ->
  List.concat (List.map (selectItem view st) l) = [].
Proof.
  intros Hall. induction l as [|i l IH]; [reflexivity|].
  cbn [List.map List.concat]. now rewrite selectItem_culled, IH.
Qed.

Lemma renderLayer_culled (view : View) (st : RenderState) (lo : nat * nat) :
  List.Forall (fun item => inView view item = false) (store st) ->
  renderLayer view st lo
  = fold_left (renderPhase_ view []) [FillPhase; CasingPhase; StrokePhase; LabelPhase] st.
Proof. intros Hall. unfold renderLayer. now rewrite batch_culled. Qed.

Lemma layerSetup_store (view : View) (st : RenderState) :
  store (fold_left (renderPhase_ view []) [FillPhase; CasingPhase; StrokePhase; LabelPhase] st)
  = store st.
Proof. reflexivity. Qed.

Lemma layerSetup_painted (view : View) (st st' : RenderState) :
  painted st' = painted st ->
  painted (fold_left (renderPhase_ view []) [FillPhase; CasingPhase; StrokePhase; LabelPhase] st')
  = painted (fold_left (renderPhase_ view []) [FillPhase; CasingPhase; StrokePhase; LabelPhase] st).
Proof. intros Hp. cbn [fold_left renderPhase_ beginPhase painted paint]. now rewrite Hp. Qed.

Lemma renderLayers_culled (view : View) (los : list (nat * nat)) :
  forall st st',
    List.Forall (fun item => inView view item = false) (store st) ->
    store st' = [] -> painted st' = painted st ->
    store (fold_left (renderLayer view) los st) = store st /\
    painted (fold_left (renderLayer view) los st) = painted (fold_left (renderLayer view) los st').
Proof.
  induction los as [|lo los IH]; intros st st' Hall Hnil Hp; cbn [fold_left].
  - split; [reflexivity|now symmetry].
  - assert (Hall' : List.Forall (fun item => inView view item = false) (store st')).
    { rewrite Hnil. constructor. }
    rewrite (renderLayer_culled view st lo Hall), (renderLayer_culled view st' lo Hall').
    destruct (IH (fold_left (renderPhase_ view []) [FillPhase; CasingPhase; StrokePhase; LabelPhase] st)
                 (fold_left (renderPhase_ view []) [FillPhase; CasingPhase; StrokePhase; LabelPhase] st'))
      as [Hs Hq].
    + now rewrite layerSetup_store.
    + now rewrite layerSetup_store.
    + now apply layerSetup_painted.
    + split; [now rewrite Hs, layerSetup_store|exact Hq].
Qed.

(** X12.  When no item of the scene graph is in view (neither test of
    the selection holds for it), a render pass writes to no item, not even
    a label's bounding box cache, and paints what it paints for the scene
    graph without its items: the background, the set-up of each phase of
    each layer, and the foreground. *)
Theorem render_culled (sg : SceneGraph) (view : View) (before : list PaintOp) :
  List.Forall (fun item => inView view item = false) (items sg) ->
  store (render sg view before) = items sg /\
  painted (render sg view before) = painted (render (withoutItems sg) view before).
Proof.
  intros Hall. unfold render, endRender, renderForeground, renderBackground, beginRender.
  cbn [store painted paint withoutItems layerOffsets backgroundColor items].
  destruct (renderLayers_culled view (layerOffsets sg)
              (paint (FillRect {| xp := 0; yp := 0; w := screenWidth view; h := screenHeight view |}
                               (backgroundColor sg))
                     (paint Save {| store := items sg; painted := before |}))
              (paint (FillRect {| xp := 0; yp := 0; w := screenWidth view; h := screenHeight view |}
                               (backgroundColor sg))
                     (paint Save {| store := []; painted := before |}))) as [Hs Hp];
    [exact Hall|reflexivity|reflexivity|].
  split; [exact Hs|]. now rewrite Hp.
Qed.

End Facts.
End PainterRendererFurtherFacts.

Module PainterRendererFurtherSamples.
Import Qt Scene PainterRenderer Samples PainterRendererFurtherFacts.
Local Open Scope Q_scope.

Lemma render_culled_witness :
  store (render offscreen tt []) = items offscreen /\
  painted (render offscreen tt []) = painted (render (withoutItems offscreen) tt []).
Proof.
  apply (render_culled offscreen tt []).
  repeat constructor.
Defined.

End PainterRendererFurtherSamples.

(** ** The navigation mesh builder: index order, lines, links, polygons *)

Module NavMeshBuilderFurtherFacts.
Import Qt OSM Map NavMeshBuilder NavMeshBuilderFacts NavMeshGeometryFacts OSMFacts.

(** *** The level index and the order of the level map *)

Lemma mergeLevel_comm (e : option Z) (l1 l2 : Z) :
  mergeLevel (mergeLevel e l1) l2 = mergeLevel (mergeLevel e l2) l1.
Proof.
  unfold mergeLevel. generalize INT_MIN. intros M. destruct e as [l0|];
    repeat match goal with
           | |- context [if ?a =? ?b then _ else _] => destruct (Z.eqb_spec a b)
           end; try reflexivity; try congruence.
Qed.

Lemma mergeLevel_fold_perm (ls1 ls2 : list Z) :
  Permutation ls1 ls2 -> forall e, fold_left mergeLevel ls1 e = fold_left mergeLevel ls2 e.
Proof.
  induction 1 as [|l ls1 ls2 _ IH|l1 l2 ls|ls1 ls2 ls3 _ IH1 _ IH2]; intros e; cbn [fold_left].
  - reflexivity.
  - apply IH.
  - now rewrite mergeLevel_comm.
  - now rewrite IH1.
Qed.

Lemma levelsOf_perm (n : Id) (c1 c2 : list (Id * Z)) :
  Permutation c1 c2 -> Permutation (levelsOf n c1) (levelsOf n c2).
Proof.
  unfold levelsOf.
  induction 1 as [|c l1 l2 _ IH|a b l|l1 l2 l3 _ IH1 _ IH2]; cbn [List.filter List.map].
  - constructor.
  - destruct (fst c =? n); cbn [List.map]; [now constructor|assumption].
  - destruct (fst a =? n), (fst b =? n); cbn [List.map]; try apply Permutation_refl.
    apply perm_swap.
  - eapply Permutation_trans; eassumption.
Qed.

Lemma applyCalls_perm (m : gmap Z Z) (c1 c2 : list (Id * Z)) :
  Permutation c1 c2 -> applyCalls m c1 = applyCalls m c2.
Proof.
  intros Hp. apply map_eq. intros n. rewrite !applyCalls_lookup.
  apply mergeLevel_fold_perm. now apply levelsOf_perm.
Qed.

Lemma flat_map_perm {A B : Type} (f : A -> list B) (l1 l2 : list A) :
  Permutation l1 l2 -> Permutation (flat_map f l1) (flat_map f l2).
Proof.
  induction 1 as [|a l1 l2 _ IH|a b l|l1 l2 l3 _ IH1 _ IH2]; cbn [flat_map].
  - constructor.
  - now apply Permutation_app_head.
  - rewrite !app_assoc. apply Permutation_app_tail, Permutation_app_comm.
  - eapply Permutation_trans; eassumption.
Qed.

Section Facts.
Context `{OSM.Externals} `{Env}.

(** X13.  The node level index does not depend on the order in which
    the entries of the level map are visited: on a level map without null
    elements the pass ends, and with the entries in any other order it
    ends with the same index. *)
Theorem indexNodeLevels_order (m_data1 m_data2 : MapData) (st : State) :
  List.Forall (fun entry => noNull (snd entry)) (levelMap m_data1) ->
  Permutation (levelMap m_data1) (levelMap m_data2) ->
  indexNodeLevels m_data1 st = indexNodeLevels m_data2 st /\
  is_Some (indexNodeLevels m_data1 st).
Proof.
  intros Hnn Hperm. unfold indexNodeLevels.
  assert (Hnn2 : List.Forall (fun entry => noNull (snd entry)) (levelMap m_data2)).
  { rewrite List.Forall_forall in Hnn |- *. intros e He. apply Hnn.
    apply (Permutation_in _ (Permutation_sym Hperm) He). }
  rewrite !indexLevels_calls by assumption.
  rewrite (applyCalls_perm _ _ _ (flat_map_perm levelCalls _ _ Hperm)).
  split; [reflexivity|eexists; reflexivity].
Qed.


(** *** The line pass on a way with two nodes *)

Lemma addStripFaces_offset (n : nat) :
  forall i st, m_vertexOffset (addStripFaces n i st) = m_vertexOffset st.
Proof.
  induction n as [|n IH]; intros i st; [reflexivity|].
  cbn [addStripFaces]. rewrite IH. now destruct (negb (i mod 2 =? 0)).
Qed.

(** X14.  The line pass on a way with exactly two node ids, both in the
    data set, and a positive width: it ends; it writes one vertex line per
    stroke vertex, on the level of the end node the vertex is closer to
    (the second one at equal distance) when the two nodes are on different,
    unambiguous levels, and on the current floor otherwise; the vertex
    offset grows by the number of stroke vertices; the level index and the
    link output are left alone. *)
Theorem processLine_two_node_way (m_data : MapData) (w : Way) (a b : Id) (na nb : Node)
        (floorLevel : Z) (res : MapCSSResultLayer) (prop : MapCSSDeclaration) (st : State) :
  way_nodes w = [a; b] ->
  lookup_id node_id (nodes (dataSet m_data)) a = Some na ->
  lookup_id node_id (nodes (dataSet m_data)) b = Some nb ->
  hasLineProperties res = true ->
  declaration_Width res = Some prop ->
  Qltb 0 (penWidth (EWay w) prop) = true ->
  let pa := mapGeoToNav_point (nodePoint na) in
  let pb := mapGeoToNav_point (nodePoint nb) in
  let vertices := stroke [pa; pb] (penWidth (EWay w) prop) in
  exists st',
    processLine m_data (EWay w) floorLevel res st = Some st' /\
    m_objVertices st'
    = m_objVertices st
      +:+ strokeLines (stairLevel (m_nodeLevelMap st) a b pa pb floorLevel) vertices /\
    m_vertexOffset st' = m_vertexOffset st + Z.of_nat (length vertices) /\
    m_nodeLevelMap st' = m_nodeLevelMap st /\ m_gsetData st' = m_gsetData st.
Proof.
  intros Hw Ha Hb Hline Hprop Hpw pa pb vertices.
  unfold processLine. rewrite Hline, Hprop, Hpw.
  rewrite (createPolygon_two_nodes _ _ _ _ _ _ Hw Ha Hb). cbn [List.map].
  fold (nodePoint na) (nodePoint nb). fold pa pb. fold vertices.
  erewrite (addStrokeVertices_lines [pa; pb] (EWay w) floorLevel
              (stairLevel (m_nodeLevelMap st) a b pa pb floorLevel)).
  - eexists. split; [reflexivity|].
    cbn [m_objVertices m_vertexOffset m_nodeLevelMap m_gsetData addToVertexOffset].
    rewrite addStripFaces_vertices, addStripFaces_offset.
    repeat split.
    + clear. generalize (Z.to_nat (Z.of_nat (length vertices) - 2)). intros n.
      generalize 0 at 1. set (s0 := {| m_nodeLevelMap := _ |}).
      assert (Hs0 : m_nodeLevelMap s0 = m_nodeLevelMap st) by reflexivity.
      clearbody s0. revert s0 Hs0.
      induction n as [|n IH]; intros s0 Hs0 i; [assumption|].
      cbn [addStripFaces]. apply IH. now destruct (negb (i mod 2 =? 0)).
    + clear. generalize (Z.to_nat (Z.of_nat (length vertices) - 2)). intros n.
      generalize 0 at 1. set (s0 := {| m_nodeLevelMap := _ |}).
      assert (Hs0 : m_gsetData s0 = m_gsetData st) by reflexivity.
      clearbody s0. revert s0 Hs0.
      induction n as [|n IH]; intros s0 Hs0 i; [assumption|].
      cbn [addStripFaces]. apply IH. now destruct (negb (i mod 2 =? 0)).
  - intros p _. unfold strokeVertexLevel, stairLevel. rewrite Hw. cbn [lookup list_lookup].
    cbv zeta. match goal with |- context [if ?c then _ else _] => destruct c end; reflexivity.
Qed.


(** *** The faces of the line pass *)

Lemma addStripFaces_faces (n : nat) :
  forall i st,
    m_objFaces (addStripFaces n i st)
    = m_objFaces st +:+ facesText (stripFaces (m_vertexOffset st) i n).
Proof.
  induction n as [|n IH]; intros i st; cbn [addStripFaces stripFaces facesText].
  - now rewrite append_nil_r.
  - rewrite IH. destruct (negb (i mod 2 =? 0));
      cbn [addFace m_objFaces m_vertexOffset facesText]; now rewrite append_assoc.
Qed.

Lemma stripFaces_within (o : Z) (n : nat) :
  forall i, Forall (faceWithin (o + i) (o + i + Z.of_nat n + 1)) (stripFaces o i n).
Proof.
  induction n as [|n IH]; intros i; cbn [stripFaces]; constructor.
  - destruct (negb (i mod 2 =? 0)); unfold faceWithin; lia.
  - specialize (IH (i + 1)). rewrite List.Forall_forall in IH |- *.
    intros [[a b] c] Hf. specialize (IH _ Hf). unfold faceWithin in *. lia.
Qed.

Lemma stripFaces_length (o : Z) (n : nat) : forall i, length (stripFaces o i n) = n.
Proof. induction n as [|n IH]; intros i; cbn [stripFaces length]; [reflexivity|now rewrite IH]. Qed.

(** X15.  The faces of the line pass on such a way: for a stroke of
    [count] vertices it writes [count - 2] faces, those of the triangle
    strip over them, and every face has three different corners among the
    vertices this stroke has just been given (numbered from the vertex
    offset before the pass to [count - 1] above it). *)
Theorem processLine_strip_faces (m_data : MapData) (w : Way) (a b : Id) (na nb : Node)
        (floorLevel : Z) (res : MapCSSResultLayer) (prop : MapCSSDeclaration) (st : State) :
  way_nodes w = [a; b] ->
  lookup_id node_id (nodes (dataSet m_data)) a = Some na ->
  lookup_id node_id (nodes (dataSet m_data)) b = Some nb ->
  hasLineProperties res = true ->
  declaration_Width res = Some prop ->
  Qltb 0 (penWidth (EWay w) prop) = true ->
  let count := length (stroke [mapGeoToNav_point (nodePoint na); mapGeoToNav_point (nodePoint nb)]
                              (penWidth (EWay w) prop)) in
  let faces := stripFaces (m_vertexOffset st) 0 (count - 2) in
  exists st',
    processLine m_data (EWay w) floorLevel res st = Some st' /\
    m_objFaces st' = m_objFaces st +:+ facesText faces /\
    length faces = (count - 2)%nat /\
    ((2 <= count)%nat ->
     Forall (faceWithin (m_vertexOffset st) (m_vertexOffset st + Z.of_nat count - 1)) faces).
Proof.
  intros Hw Ha Hb Hline Hprop Hpw count faces.
  unfold processLine. rewrite Hline, Hprop, Hpw.
  rewrite (createPolygon_two_nodes _ _ _ _ _ _ Hw Ha Hb). cbn [List.map].
  fold (nodePoint na) (nodePoint nb).
  erewrite (addStrokeVertices_lines _ (EWay w) floorLevel
              (stairLevel (m_nodeLevelMap st) a b (mapGeoToNav_point (nodePoint na))
                          (mapGeoToNav_point (nodePoint nb)) floorLevel)).
  - eexists. split; [reflexivity|]. fold count.
    cbn [m_objFaces addToVertexOffset]. rewrite addStripFaces_faces.
    cbn [m_objFaces m_vertexOffset].
    replace (Z.to_nat (Z.of_nat count - 2)) with (count - 2)%nat by lia. fold faces.
    split; [reflexivity|]. split; [apply stripFaces_length|].
    intros Hc. pose proof (stripFaces_within (m_vertexOffset st) (count - 2) 0) as Hw'.
    fold faces in Hw'.
    replace (m_vertexOffset st + 0) with (m_vertexOffset st) in Hw' by lia.
    replace (m_vertexOffset st + Z.of_nat (count - 2) + 1)
      with (m_vertexOffset st + Z.of_nat count - 1) in Hw' by lia.
    exact Hw'.
  - intros p _. unfold strokeVertexLevel, stairLevel. rewrite Hw. cbn [lookup list_lookup].
    cbv zeta. match goal with |- context [if ?c then _ else _] => destruct c end; reflexivity.
Qed.

(** *** Links *)

Lemma addElevatorLinks_fold (p : QPointF) (levels : list Z) :
  forall st, addElevatorLinks p levels st = fold_left (elevatorLink p) (consecutive levels) st.
Proof.
  induction levels as [|l0 r IH]; intros st; [reflexivity|].
  destruct r as [|l1 r']; [reflexivity|].
  change (addElevatorLinks p (l0 :: l1 :: r') st)
    with (addElevatorLinks p (l1 :: r') (elevatorLink p st (l0, l1))).
  change (consecutive (l0 :: l1 :: r')) with ((l0, l1) :: consecutive (l1 :: r')).
  cbn [fold_left]. apply IH.
Qed.

Lemma consecutive_length (levels : list Z) :
  length (consecutive levels) = (length levels - 1)%nat.
Proof.
  induction levels as [|l0 r IH]; [reflexivity|].
  destruct r as [|l1 r']; [reflexivity|].
  change (consecutive (l0 :: l1 :: r')) with ((l0, l1) :: consecutive (l1 :: r')).
  cbn [length] in *. rewrite IH. lia.
Qed.

(** X17.  A link layer with area properties (and no line properties):
    one bidirectional elevator connection at the centre of the element
    for every pair of consecutive levels of its parsed level list, from
    the height of the one to the height of the next, so one connection
    fewer than levels; with fewer than two levels, none. *)
Theorem processLink_elevator (m_data : MapData) (elem : Element) (floorLevel : Z)
        (linkDir : LinkDirection) (res : MapCSSResultLayer) (st : State) :
  hasAreaProperties res = true ->
  hasLineProperties res = false ->
  let levels := LevelParser_parse (Element_tagValue elem "level") elem in
  processLink m_data elem floorLevel linkDir res st
  = Some (fold_left (elevatorLink (mapGeoToNav (center elem))) (consecutive levels) st) /\
  length (consecutive levels) = (length levels - 1)%nat.
Proof.
  intros Harea Hline levels. split; [|apply consecutive_length].
  unfold processLink. rewrite Harea, Hline. fold levels.
  assert (Hst : (if (1 <? length levels)%nat
                 then addElevatorLinks (mapGeoToNav (center elem)) levels st else st)
                = fold_left (elevatorLink (mapGeoToNav (center elem))) (consecutive levels) st).
  { destruct (1 <? length levels)%nat eqn:E; [apply addElevatorLinks_fold|].
    apply Nat.ltb_ge in E. destruct levels as [|l0 [|l1 r]]; try reflexivity.
    simpl in E. lia. }
  rewrite Hst. now destruct elem.
Qed.

(** X18.  A link layer with line properties (and no area properties) on
    a way with exactly two node ids, both in the data set: one escalator
    connection from the first node's position, at the height of its
    level, to the second node's position at the height of its level, in
    the direction of the layer, when the two nodes are on different,
    unambiguous levels; nothing otherwise. *)
Theorem processLink_escalator (m_data : MapData) (w : Way) (a b : Id) (na nb : Node)
        (floorLevel : Z) (linkDir : LinkDirection) (res : MapCSSResultLayer) (st : State) :
  way_nodes w = [a; b] ->
  lookup_id node_id (nodes (dataSet m_data)) a = Some na ->
  lookup_id node_id (nodes (dataSet m_data)) b = Some nb ->
  hasAreaProperties res = false ->
  hasLineProperties res = true ->
  let l1 := levelForNode (m_nodeLevelMap st) a in
  let l2 := levelForNode (m_nodeLevelMap st) b in
  let pa := mapGeoToNav_point (nodePoint na) in
  let pb := mapGeoToNav_point (nodePoint nb) in
  processLink m_data (EWay w) floorLevel linkDir res st
  = Some (if negb (l1 =? l2) && negb (l1 =? INT_MIN) && negb (l2 =? INT_MIN)
          then addOffMeshConnection (x pa) (mapHeightToNav l1) (y pa)
                                    (x pb) (mapHeightToNav l2) (y pb) linkDir Escalator st
          else st).
Proof.
  intros Hw Ha Hb Harea Hline l1 l2 pa pb.
  unfold processLink. rewrite Harea, Hline, Hw. fold l1 l2.
  destruct (negb (l1 =? l2) && negb (l1 =? INT_MIN) && negb (l2 =? INT_MIN)); [|reflexivity].
  rewrite (createPolygon_two_nodes _ _ _ _ _ _ Hw Ha Hb). reflexivity.
Qed.

(** *** Polygons *)

Lemma takeSubPolygon_simple (pathBegin : Id) (rest : list Node) :
  forall first,
    Forall (fun n => node_id n <> pathBegin) (removelast rest) ->
    takeSubPolygon pathBegin first rest = (List.map nodePoint rest, []).
Proof.
  induction rest as [|n r IH]; intros first Hmid; [reflexivity|].
  cbn [takeSubPolygon List.map]. destruct r as [|n' r'].
  - cbn [length Nat.eqb negb andb]. rewrite !andb_false_r. reflexivity.
  - cbn [removelast] in Hmid. apply Forall_cons in Hmid. destruct Hmid as [Hn Hmid].
    apply Z.eqb_neq in Hn. rewrite Hn. cbn [andb].
    now rewrite (IH false Hmid).
Qed.

(** X19.  [createPolygon] on an outer path in which the id of the first
    node does not come back before the last node (an open line or a
    simple ring): the polygon is the path point by point, in path order;
    nothing is split off or united. *)
Theorem createPolygon_simple (ds : DataSet) (e : Element) (n0 : Node) (rest : list Node) :
  outerPath ds e = n0 :: rest ->
  Forall (fun n => node_id n <> node_id n0) (removelast rest) ->
  createPolygon ds e = List.map nodePoint (n0 :: rest).
Proof.
  intros Hpath Hmid. unfold createPolygon. rewrite Hpath.
  cbn [length mergeSubPolygons takeSubPolygon List.map].
  destruct rest as [|n1 r].
  - cbn [length Nat.eqb negb andb]. rewrite !andb_false_r. reflexivity.
  - cbn [andb negb]. rewrite andb_false_r.
    rewrite (takeSubPolygon_simple (node_id n0) (n1 :: r) false Hmid).
    cbn [length mergeSubPolygons]. reflexivity.
Qed.

Lemma addVertices_fold (floorLevel : Z) (vs : list QPointF) :
  forall st,
    fold_left (fun st v => addVertex (x v) (mapHeightToNav floorLevel) (y v) st) vs st
    = {| m_nodeLevelMap := m_nodeLevelMap st; m_vertexOffset := m_vertexOffset st;
         m_objVertices := m_objVertices st +:+ strokeLines (fun _ => floorLevel) vs;
         m_objFaces := m_objFaces st; m_gsetData := m_gsetData st |}.
Proof.
  induction vs as [|v r IH]; intros st; cbn [fold_left strokeLines].
  - rewrite append_nil_r. now destruct st.
  - rewrite IH. cbn [addVertex m_nodeLevelMap m_vertexOffset m_objVertices m_objFaces m_gsetData].
    now rewrite append_assoc.
Qed.

(** X27. The area pass of [processGeometry], for a layer with area
    properties and a positive fill opacity and a triangulation whose index
    vector holds whole triples: it writes one vertex line per triangulated
    vertex, at the height of the floor level, one face line per index
    triple, each index shifted by the vertex offset the pass started with,
    and advances the vertex offset by the number of vertices; the node
    levels and the link data stay as they were. *)
Theorem processArea_output (m_data : MapData) (elem : Element) (floorLevel : Z)
        (res : MapCSSResultLayer) (prop : MapCSSDeclaration) (st : State) :
  hasAreaProperties res = true ->
  declaration_FillOpacity res = Some prop ->
  Qltb 0 (doubleValue prop) = true ->
  let triSet := qTriangulate (List.map (List.map mapGeoToNav_point) (areaPath m_data elem)) in
  (length (tri_indices triSet) mod 3 = 0)%nat ->
  processArea m_data elem floorLevel res st
  = {| m_nodeLevelMap := m_nodeLevelMap st;
       m_vertexOffset := m_vertexOffset st + Z.of_nat (length (tri_vertices triSet));
       m_objVertices := m_objVertices st +:+ strokeLines (fun _ => floorLevel) (tri_vertices triSet);
       m_objFaces := m_objFaces st
                     +:+ facesText (shiftedTriples (m_vertexOffset st) (tri_indices triSet));
       m_gsetData := m_gsetData st |}.
Proof.
  intros Harea Hprop Hpos triSet _. unfold processArea. rewrite Harea, Hprop, Hpos.
  fold (areaPath m_data elem). fold triSet. rewrite addVertices_fold.
  set (st1 := {| m_nodeLevelMap := m_nodeLevelMap st |}).
  assert (Hfaces : forall n l s, (length l <= n)%nat ->
             (fix faces (l : list Z) (st : State) {struct l} : State :=
                match l with
                | i :: j :: k :: r =>
                    faces r (addFace (i + m_vertexOffset st) (j + m_vertexOffset st)
                                     (k + m_vertexOffset st) st)
                | _ => st
                end) l s
             = {| m_nodeLevelMap := m_nodeLevelMap s; m_vertexOffset := m_vertexOffset s;
                  m_objVertices := m_objVertices s;
                  m_objFaces := m_objFaces s +:+ facesText (shiftedTriples (m_vertexOffset s) l);
                  m_gsetData := m_gsetData s |}).
  { induction n as [|n IH]; intros l s Hl.
    - destruct l; [|simpl in Hl; lia]. cbn. rewrite append_nil_r. now destruct s.
    - destruct l as [|i [|j [|k r]]]; try (cbn; rewrite append_nil_r; now destruct s).
      rewrite IH by (simpl in Hl |- *; lia).
      cbn [addFace m_nodeLevelMap m_vertexOffset m_objVertices m_objFaces m_gsetData
           shiftedTriples facesText].
      now rewrite append_assoc. }
  rewrite (Hfaces (length (tri_indices triSet)) _ _ (le_n _)).
  reflexivity.
Qed.
End Facts.
End NavMeshBuilderFurtherFacts.

Module NavMeshBuilderFurtherExamples.
Import Qt OSM Map NavMeshBuilder NavMeshBuilderFacts NavMeshGeometryFacts OSMFacts.
Import NavMeshBuilderSamples NavMeshBuilderLinkSamples NavMeshBuilderFurtherFacts OSMSamples.

Lemma indexNodeLevels_order_witness :
  indexNodeLevels stairsData emptyState = indexNodeLevels stairsDataSwapped emptyState /\
  is_Some (indexNodeLevels stairsData emptyState).
Proof.
  apply (indexNodeLevels_order stairsData stairsDataSwapped emptyState).
  - repeat constructor; discriminate.
  - apply perm_swap.
Defined.

Lemma processLine_two_node_way_witness :
  exists st',
    processLine stairsData (EWay stairs) 0 (lineLayer 2) stairsIndexed = Some st' /\
    m_objVertices st'
    = m_objVertices stairsIndexed
      +:+ strokeLines
            (stairLevel (m_nodeLevelMap stairsIndexed) 1 2
               (mapGeoToNav_point (nodePoint (nodeAt 1 0 [])))
               (mapGeoToNav_point (nodePoint (nodeAt 2 10 []))) 0)
            (stroke [mapGeoToNav_point (nodePoint (nodeAt 1 0 []));
                     mapGeoToNav_point (nodePoint (nodeAt 2 10 []))]
                    (penWidth (EWay stairs) {| doubleValue := 2 |})) /\
    m_vertexOffset st'
    = m_vertexOffset stairsIndexed
      + Z.of_nat (length (stroke [mapGeoToNav_point (nodePoint (nodeAt 1 0 []));
                                  mapGeoToNav_point (nodePoint (nodeAt 2 10 []))]
                                 (penWidth (EWay stairs) {| doubleValue := 2 |}))) /\
    m_nodeLevelMap st' = m_nodeLevelMap stairsIndexed /\ m_gsetData st' = m_gsetData stairsIndexed.
Proof.
  apply (processLine_two_node_way stairsData stairs 1 2 (nodeAt 1 0 []) (nodeAt 2 10 []) 0
           (lineLayer 2) {| doubleValue := 2 |} stairsIndexed); reflexivity.
Defined.

Lemma processLink_escalator_witness :
  processLink stairsData (EWay stairs) 0 Backward (linkLayer "link_backward") stairsIndexed
  = Some (addOffMeshConnection 0 (mapHeightToNav 0) 0 10 (mapHeightToNav 10) 0
                               Backward Escalator stairsIndexed).
Proof.
  exact (processLink_escalator stairsData stairs 1 2 (nodeAt 1 0 []) (nodeAt 2 10 []) 0 Backward
           (linkLayer "link_backward") stairsIndexed
           eq_refl eq_refl eq_refl eq_refl eq_refl).
Defined.

Example processLink_escalator_backward :
  m_gsetData <$> processLink stairsData (EWay stairs) 0 Backward (linkLayer "link_backward")
                             stairsIndexed
  = Some ("c 10/1 3/1 0/1  0/1 0/1 0/1 0.6 0 3 8" +:+ nl).
Proof. vm_compute. reflexivity. Qed.


Lemma processLink_elevator_witness :
  @processLink sampleExternals levelNavEnv stairsData (EWay shaft) 0 Bidirectional areaLayer
               emptyState
  = Some (fold_left (@elevatorLink levelNavEnv (@mapGeoToNav levelNavEnv (center (EWay shaft))))
                    (consecutive (@LevelParser_parse levelNavEnv
                                    (Element_tagValue (EWay shaft) "level") (EWay shaft)))
                    emptyState) /\
  length (consecutive (@LevelParser_parse levelNavEnv
                         (Element_tagValue (EWay shaft) "level") (EWay shaft)))
  = (length (@LevelParser_parse levelNavEnv (Element_tagValue (EWay shaft) "level") (EWay shaft))
     - 1)%nat.
Proof.
  apply (@processLink_elevator sampleExternals levelNavEnv stairsData (EWay shaft) 0
           Bidirectional areaLayer emptyState); reflexivity.
Defined.

Example processLink_elevator_shaft :
  @m_gsetData <$> @processLink sampleExternals levelNavEnv stairsData (EWay shaft) 0
                               Bidirectional areaLayer emptyState
  = Some ("c 4/1 0/1 2/1  4/1 3/1 2/1 0.6 1 2 8" +:+ nl
          +:+ "c 4/1 3/1 2/1  4/1 6/1 2/1 0.6 1 2 8" +:+ nl).
Proof. vm_compute. reflexivity. Qed.

Lemma createPolygon_simple_witness :
  createPolygon sampleDataSet (EWay (sampleWay 10 [1; 2; 3; 1]))
  = List.map nodePoint (map sampleNode [1; 2; 3; 1]).
Proof.
  apply (createPolygon_simple sampleDataSet (EWay (sampleWay 10 [1; 2; 3; 1]))
           (sampleNode 1) (map sampleNode [2; 3; 1])).
  - reflexivity.
  - repeat constructor; discriminate.
Defined.

Lemma processExtrude_walls_witness :
  processExtrude wallData (EWay wallWithDoor) 0 (extrudeLayer 3) emptyState
  = Some (fold_left (wallStep 0)
                    (segments (outerPath (dataSet wallData) (EWay wallWithDoor))) emptyState).
Proof.
  apply (processExtrude_walls wallData (EWay wallWithDoor) 0 (extrudeLayer 3)
           {| doubleValue := 3 |} emptyState).
  - reflexivity.
  - reflexivity.
  - reflexivity.
  - discriminate.
  - simpl. lia.
Defined.


Lemma processLine_strip_faces_witness :
  exists st',
    processLine stairsData (EWay stairs) 0 (lineLayer 2) stairsIndexed = Some st' /\
    m_objFaces st' = m_objFaces stairsIndexed +:+ facesText (stripFaces 1 0 2) /\
    length (stripFaces 1 0 2) = 2%nat /\
    ((2 <= 4)%nat -> Forall (faceWithin 1 4) (stripFaces 1 0 2)).
Proof.
  exact (processLine_strip_faces stairsData stairs 1 2 (nodeAt 1 0 []) (nodeAt 2 10 []) 0
           (lineLayer 2) {| doubleValue := 2 |} stairsIndexed
           eq_refl eq_refl eq_refl eq_refl eq_refl eq_refl).
Defined.

Example processLine_stairs_faces :
  m_objFaces <$> processLine stairsData (EWay stairs) 0 (lineLayer 2) stairsIndexed
  = Some (faceLine 2 1 3 +:+ faceLine 2 3 4).
Proof. vm_compute. reflexivity. Qed.

Lemma processArea_output_witness :
  @processArea triangleNavEnv stairsData (EWay room) 10 fillLayer emptyState
  = {| m_nodeLevelMap := ∅;
       m_vertexOffset := 1 + 4;
       m_objVertices :=
         "" +:+ @strokeLines triangleNavEnv (fun _ => 10)
                  (@tri_vertices (@qTriangulate triangleNavEnv
                     (List.map (List.map (@mapGeoToNav_point triangleNavEnv))
                               (areaPath stairsData (EWay room)))));
       m_objFaces := "" +:+ @facesText triangleNavEnv (shiftedTriples 1 [0; 1; 2]);
       m_gsetData := "" |}.
Proof.
  apply (@processArea_output triangleNavEnv stairsData (EWay room) 10 fillLayer
           {| doubleValue := 1 |} emptyState); reflexivity.
Defined.

Example processArea_room :
  @m_objFaces <$> Some (@processArea triangleNavEnv stairsData (EWay room) 10
                                     fillLayer emptyState)
  = Some ("f 1 2 3" +:+ nl).
Proof. vm_compute. reflexivity. Qed.

End NavMeshBuilderFurtherExamples.

(** ** The floor level change model: destination, rows, title *)

Module FloorLevelChangeModelFurtherFacts.
Import OSM Map FloorLevelChangeModel FloorLevelChangeModelFacts.

Section Facts.
Context `{Env} `{StdSort}.

(** X20.  In every state the model goes through, when
    [hasSingleLevelChange] holds: [hasMultipleLevelChanges] holds too, the
    model has exactly two levels, the current floor and one other,
    [destinationLevel] is that other level, so it differs from the current
    floor, and [destinationLevelName] is its name. *)
Theorem hasSingleLevelChange_destination (st : Model) :
  reachable st ->
  hasSingleLevelChange st = true ->
  hasMultipleLevelChanges st = true /\
  destinationLevel st <> m_currentFloorLevel st /\
  exists here there,
    Permutation (m_levels st) [here; there] /\
    numericLevel here = m_currentFloorLevel st /\
    numericLevel there = destinationLevel st /\
    name there = destinationLevelName st.
Proof.
  intros Hreach Hsingle.
  pose proof (strictlySorted_NoDup _ (reachable_strictlySorted st Hreach)) as Hnd.
  unfold hasSingleLevelChange, hasMultipleLevelChanges, destinationLevel, destinationLevelName in *.
  destruct (m_levels st) as [|l0 [|l1 [|l2 r]]]; try discriminate.
  split; [reflexivity|].
  cbn [List.map] in Hnd. apply List.NoDup_cons_iff in Hnd. destruct Hnd as [Hne _].
  assert (Hdiff : numericLevel l0 <> numericLevel l1).
  { intros Heq. apply Hne. now left. }
  destruct (numericLevel l0 =? m_currentFloorLevel st) eqn:E0.
  - apply Z.eqb_eq in E0. split; [congruence|].
    exists l0, l1. repeat split; [apply Permutation_refl|assumption].
  - cbn [orb] in Hsingle. apply Z.eqb_eq in Hsingle. apply Z.eqb_neq in E0.
    split; [assumption|]. exists l1, l0. repeat split; [apply perm_swap|assumption].
Qed.

(** X21.  In every state the model goes through, the model holds
    levels only for a level change element: when its element is none, the
    level list is empty, neither a single nor multiple level changes are
    reported, the destination level is 0 and its name empty, the model has
    no rows and no row of the current floor. *)
Theorem levels_only_for_level_change (st : Model) :
  reachable st ->
  isLevelChangeElement (m_element st) = false ->
  m_levels st = [] /\
  hasSingleLevelChange st = false /\ hasMultipleLevelChanges st = false /\
  destinationLevel st = 0 /\ destinationLevelName st = "" /\
  rowCount false st = 0 /\ currentFloorLevelRow st = -1.
Proof.
  intros Hreach Hno.
  assert (Hnil : m_levels st = []).
  { induction Hreach as [|element st Hreach IH|level st Hreach IH|fm st Hreach IH|st Hreach IH].
    - reflexivity.
    - unfold setElement in *. destruct (Element_eqb (m_element st) element); [now apply IH|].
      cbn [m_levels m_element] in *. now rewrite Hno.
    - unfold setCurrentFloorLevel in *.
      destruct (m_currentFloorLevel st =? level); now apply IH.
    - now apply IH.
    - reflexivity. }
  unfold hasSingleLevelChange, hasMultipleLevelChanges, destinationLevel, destinationLevelName,
    rowCount, currentFloorLevelRow.
  rewrite Hnil. repeat split.
Qed.

(** *** Levels with a floor level model *)

Lemma appendFullFloorLevel_from (fm : FloorLevelModel) (levels : list MapLevel) (l : Z) :
  List.Forall (fromFloorLevelModel fm) levels ->
  List.Forall (fromFloorLevelModel fm) (appendFullFloorLevel (Some fm) levels l).
Proof.
  intros Hall. unfold appendFullFloorLevel. destruct (0 <=? rowForLevel fm l) eqn:E; [|assumption].
  apply Forall_app. split; [assumption|]. constructor; [|constructor].
  exists l. split; [now apply Z.leb_le|reflexivity].
Qed.

Lemma appendedLevels_from (fm : FloorLevelModel) (element : Element) :
  List.Forall (fromFloorLevelModel fm) (appendedLevels (Some fm) element).
Proof.
  assert (Hfold : forall (g : Z -> Z) ixs levels,
             List.Forall (fromFloorLevelModel fm) levels ->
             List.Forall (fromFloorLevelModel fm)
               (fold_left (fun levels i => appendFullFloorLevel (Some fm) levels (g i)) ixs levels)).
  { intros g ixs. induction ixs as [|i r IH]; intros levels Hl; [assumption|].
    cbn [fold_left]. apply IH. now apply appendFullFloorLevel_from. }
  assert (Hfold2 : forall ps levels,
             List.Forall (fromFloorLevelModel fm) levels ->
             List.Forall (fromFloorLevelModel fm) (fold_left (appendFloorLevel (Some fm)) ps levels)).
  { intros ps. induction ps as [|p r IH]; intros levels Hl; [assumption|].
    cbn [fold_left]. apply IH. unfold appendFloorLevel.
    destruct (isFullLevel p); repeat apply appendFullFloorLevel_from; assumption. }
  unfold appendedLevels. apply Hfold2.
  apply (Hfold (fun i => to_int32 (wrap32 (- i) * 10))).
  destruct (0 <? toUInt (Element_tagValue element "building:levels")); [|constructor].
  apply (Hfold (fun i => to_int32 (i * 10))). constructor.
Qed.

Lemma unique_from_incl (l : list MapLevel) :
  forall prev ml, In ml (unique_from prev l) -> In ml l.
Proof.
  induction l as [|b r IH]; intros prev ml; cbn [unique_from]; [trivial|].
  destruct (MapLevel_eq prev b).
  - intros Hin. right. now apply (IH prev).
  - intros [<-|Hin]; [now left|right; now apply (IH b)].
Qed.

Lemma unique_incl (l : list MapLevel) (ml : MapLevel) : In ml (unique l) -> In ml l.
Proof.
  destruct l as [|a r]; [trivial|]. cbn [unique].
  intros [<-|Hin]; [now left|right; now apply (unique_from_incl r a)].
Qed.

(** X22.  With a floor level model set, every level [setElement]
    stores for a new element is a level of that model (its level at the
    row it gives for some numeric level); levels the model has no row for
    are left out. *)
Theorem setElement_levels_from_model (element : Element) (st : Model) (fm : FloorLevelModel) :
  m_floorLevelModel st = Some fm ->
  m_element st <> element ->
  List.Forall (fromFloorLevelModel fm) (m_levels (setElement element st)).
Proof.
  intros Hfm Hne. unfold setElement, Element_eqb.
  rewrite bool_decide_eq_false_2 by assumption. cbn [m_levels]. rewrite Hfm.
  destruct (isLevelChangeElement element); [|constructor].
  pose proof (appendedLevels_from fm element) as Hall.
  rewrite List.Forall_forall in Hall |- *. intros ml Hml.
  apply unique_incl in Hml.
  apply (Permutation_in _ (Permutation_sym (std_sort_perm _ MapLevel_lt _))) in Hml.
  now apply Hall.
Qed.

(** *** The row of the current floor *)

Lemma findLevel_spec (l : Z) (levels : list MapLevel) :
  forall i,
    (findLevel l levels i = -1 /\ forall ml, In ml levels -> numericLevel ml <> l) \/
    (exists k ml, findLevel l levels i = i + Z.of_nat k /\ levels !! k = Some ml /\
                  numericLevel ml = l).
Proof.
  induction levels as [|ml r IH]; intros i; cbn [findLevel].
  - left. split; [reflexivity|intros ml []].
  - destruct (numericLevel ml =? l) eqn:E.
    + right. exists 0%nat, ml. apply Z.eqb_eq in E. repeat split; [lia|assumption].
    + apply Z.eqb_neq in E. destruct (IH (i + 1)) as [[Hf Hall]|(k & ml' & Hf & Hk & Hl)].
      * left. split; [assumption|]. intros ml' [<-|Hin]; [assumption|now apply Hall].
      * right. exists (S k), ml'. repeat split; [lia|assumption|assumption].
Qed.

(** X23.  In every state the model goes through,
    [currentFloorLevelRow] is -1 or a row of the model, and it is the one
    row that [data] marks as the current floor: a row has
    [CurrentFloorRole] true, or the current floor as its [FloorLevelRole],
    exactly when it is [currentFloorLevelRow]. *)
Theorem currentFloorLevelRow_current (st : Model) :
  reachable st ->
  (0 <= rowCount false st) /\
  (currentFloorLevelRow st = -1 \/ 0 <= currentFloorLevelRow st < rowCount false st) /\
  (forall row : nat,
      data (Some row) CurrentFloorRole st = Some (OfBool true)
      <-> currentFloorLevelRow st = Z.of_nat row) /\
  (forall row : nat, data (Some row) FloorLevelRole st = Some (OfInt (m_currentFloorLevel st))
                     <-> currentFloorLevelRow st = Z.of_nat row).
Proof.
  intros Hreach.
  pose proof (strictlySorted_NoDup _ (reachable_strictlySorted st Hreach)) as Hnd.
  unfold currentFloorLevelRow, rowCount, data.
  assert (Hrow : forall row : nat,
             (exists ml, m_levels st !! row = Some ml /\ numericLevel ml = m_currentFloorLevel st)
             <-> findLevel (m_currentFloorLevel st) (m_levels st) 0 = Z.of_nat row).
  { intros row.
    destruct (findLevel_spec (m_currentFloorLevel st) (m_levels st) 0)
      as [[Hf Hall]|(k & ml & Hf & Hk & Hl)].
    - rewrite Hf. split; [|lia]. intros (ml & Hml & Hl). exfalso.
      apply (Hall ml); [|assumption]. apply list_elem_of_In. eapply list_elem_of_lookup_2. exact Hml.
    - rewrite Hf. split.
      + intros (ml' & Hml' & Hl').
        assert (Hkr : k = row).
        { apply (NoDup_lookup (List.map numericLevel (m_levels st)) k row (m_currentFloorLevel st)).
          - now apply NoDup_ListNoDup.
          - rewrite list_lookup_fmap, Hk. cbn. now rewrite Hl.
          - rewrite list_lookup_fmap, Hml'. cbn. now rewrite Hl'. }
        lia.
      + intros Heq. assert (k = row) by lia. subst k. now exists ml. }
  split; [lia|]. split.
  - destruct (findLevel_spec (m_currentFloorLevel st) (m_levels st) 0)
      as [[Hf _]|(k & ml & Hf & Hk & _)]; [now left|right].
    apply lookup_lt_Some in Hk. lia.
  - split; intros row; rewrite <- Hrow.
    + destruct (m_levels st !! row) as [ml|]; cbn [fmap option_fmap option_map].
      * split.
        -- intros Heq. injection Heq as Heq. apply Z.eqb_eq in Heq. now exists ml.
        -- intros (ml' & Hml' & Hl). injection Hml' as <-. apply Z.eqb_eq in Hl. now rewrite Hl.
      * split; [discriminate|]. now intros (ml' & Hml' & _).
    + destruct (m_levels st !! row) as [ml|]; cbn [fmap option_fmap option_map].
      * split.
        -- intros Heq. injection Heq as Heq. now exists ml.
        -- intros (ml' & Hml' & Hl). injection Hml' as <-. now rewrite Hl.
      * split; [discriminate|]. now intros (ml' & Hml' & _).
Qed.

(** *** The title *)

(** X24.  [title] against [isLevelChangeElement]: an element titled
    as an elevator is a level change element; one titled as a staircase is
    one too, unless it is tagged [stairs=yes] without an [indoor] tag; a
    level change element without title is one by its [highway] tag, of a
    value other than [elevator]. *)
Theorem title_level_change (st : Model) :
  (title st = TitleElevator -> isLevelChangeElement (m_element st) = true) /\
  (title st = TitleStaircase ->
   isLevelChangeElement (m_element st) = true \/
   (Element_tagValue (m_element st) "stairs" = "yes" /\
    Element_tagValue (m_element st) "indoor" = "")) /\
  (title st = NoTitle -> isLevelChangeElement (m_element st) = true ->
   Element_tagValue (m_element st) "highway" <> "" /\
   Element_tagValue (m_element st) "highway" <> "elevator").
Proof.
  unfold title, isLevelChangeElement, isEmpty.
  set (e := m_element st).
  destruct (String.eqb_spec (Element_tagValue e "highway") "elevator") as [Hh|Hh];
  destruct (String.eqb_spec (Element_tagValue e "highway") "") as [Hh0|Hh0];
  destruct (String.eqb (Element_tagValue e "elevator") "");
  destruct (String.eqb (Element_tagValue e "building:part") "elevator");
  destruct (String.eqb (Element_tagValue e "building") "elevator");
  destruct (String.eqb (Element_tagValue e "room") "elevator");
  destruct (String.eqb (Element_tagValue e "levelpart") "elevator_platform");
  destruct (String.eqb (Element_tagValue e "stairwell") "");
  destruct (String.eqb_spec (Element_tagValue e "stairs") "yes") as [Hs|Hs];
  destruct (String.eqb (Element_tagValue e "room") "stairs");
  destruct (String.eqb_spec (Element_tagValue e "indoor") "") as [Hi|Hi];
  cbn [negb orb andb]; repeat split; intros; try discriminate; try congruence;
    try (left; reflexivity); try (right; split; assumption).
Qed.

(** *** How the setters compose *)

(** X25.  Setting the element a second time changes nothing; setting
    the element and setting the current floor commute; setting the current
    floor a second time changes nothing, and it never changes the level
    list. *)
Theorem setElement_composes (element : Element) (level : Z) (st : Model) :
  setElement element (setElement element st) = setElement element st /\
  setElement element (setCurrentFloorLevel level st)
  = setCurrentFloorLevel level (setElement element st) /\
  setCurrentFloorLevel level (setCurrentFloorLevel level st) = setCurrentFloorLevel level st /\
  m_levels (setCurrentFloorLevel level st) = m_levels st.
Proof.
  split; [|split; [|split]].
  - unfold setElement, Element_eqb. destruct (bool_decide (m_element st = element)) eqn:E.
    + now rewrite E.
    + cbn [m_element]. now rewrite bool_decide_eq_true_2.
  - unfold setElement, setCurrentFloorLevel, Element_eqb.
    destruct (m_currentFloorLevel st =? level) eqn:El;
      destruct (bool_decide (m_element st = element)) eqn:Ee;
      cbn [m_element m_currentFloorLevel m_levels m_floorLevelModel];
      rewrite ?El, ?Ee; reflexivity.
  - unfold setCurrentFloorLevel. destruct (m_currentFloorLevel st =? level) eqn:El.
    + now rewrite El.
    + cbn [m_currentFloorLevel]. now rewrite Z.eqb_refl.
  - unfold setCurrentFloorLevel. now destruct (m_currentFloorLevel st =? level).
Qed.

End Facts.
End FloorLevelChangeModelFurtherFacts.

Module FloorLevelChangeModelFurtherExamples.
Import OSM Map FloorLevelChangeModel FloorLevelChangeModelFacts.
Import FloorLevelChangeModelSamples FloorLevelChangeModelFurtherFacts.

Lemma hasSingleLevelChange_destination_witness :
  hasMultipleLevelChanges (setElement halfLevelStairs initial) = true /\
  destinationLevel (setElement halfLevelStairs initial)
  <> m_currentFloorLevel (setElement halfLevelStairs initial) /\
  exists here there,
    Permutation (m_levels (setElement halfLevelStairs initial)) [here; there] /\
    numericLevel here = m_currentFloorLevel (setElement halfLevelStairs initial) /\
    numericLevel there = destinationLevel (setElement halfLevelStairs initial) /\
    name there = destinationLevelName (setElement halfLevelStairs initial).
Proof.
  apply (hasSingleLevelChange_destination (setElement halfLevelStairs initial)).
  - apply reachable_setElement, reachable_initial.
  - vm_compute. reflexivity.
Defined.

Example destinationLevel_half_level_stairs :
  destinationLevel (setElement halfLevelStairs initial) = 10.
Proof. vm_compute. reflexivity. Qed.

Lemma levels_only_for_level_change_witness :
  m_levels (setElement bench (setElement elevator initial)) = [] /\
  hasSingleLevelChange (setElement bench (setElement elevator initial)) = false /\
  hasMultipleLevelChanges (setElement bench (setElement elevator initial)) = false /\
  destinationLevel (setElement bench (setElement elevator initial)) = 0 /\
  destinationLevelName (setElement bench (setElement elevator initial)) = "" /\
  rowCount false (setElement bench (setElement elevator initial)) = 0 /\
  currentFloorLevelRow (setElement bench (setElement elevator initial)) = -1.
Proof.
  apply (levels_only_for_level_change (setElement bench (setElement elevator initial))).
  - apply reachable_setElement, reachable_setElement, reachable_initial.
  - reflexivity.
Defined.

Lemma setElement_levels_from_model_witness :
  List.Forall (fromFloorLevelModel twoFloors)
              (m_levels (setElement elevator (setFloorLevelModel twoFloors initial))).
Proof.
  apply (setElement_levels_from_model elevator (setFloorLevelModel twoFloors initial) twoFloors).
  - reflexivity.
  - discriminate.
Defined.

Example setElement_elevator_two_floors :
  m_levels (setElement elevator (setFloorLevelModel twoFloors initial)) = twoFloors.
Proof. vm_compute. reflexivity. Qed.

Lemma currentFloorLevelRow_current_witness :
  (0 <= rowCount false (setElement elevator initial)) /\
  (currentFloorLevelRow (setElement elevator initial) = -1 \/
   0 <= currentFloorLevelRow (setElement elevator initial)
     < rowCount false (setElement elevator initial)) /\
  (forall row : nat,
      data (Some row) CurrentFloorRole (setElement elevator initial) = Some (OfBool true)
      <-> currentFloorLevelRow (setElement elevator initial) = Z.of_nat row) /\
  (forall row : nat,
      data (Some row) FloorLevelRole (setElement elevator initial)
      = Some (OfInt (m_currentFloorLevel (setElement elevator initial)))
      <-> currentFloorLevelRow (setElement elevator initial) = Z.of_nat row).
Proof.
  apply (currentFloorLevelRow_current (setElement elevator initial)).
  apply reachable_setElement, reachable_initial.
Defined.

Example currentFloorLevelRow_elevator :
  currentFloorLevelRow (setElement elevator initial) = 2 /\
  data (Some 2%nat) CurrentFloorRole (setElement elevator initial) = Some (OfBool true) /\
  data (Some 4%nat) CurrentFloorRole (setElement elevator initial) = None.
Proof. repeat split; vm_compute; reflexivity. Qed.

Example title_outdoor_steps :
  title (setElement outdoorSteps initial) = TitleStaircase /\
  isLevelChangeElement outdoorSteps = false /\
  m_levels (setElement outdoorSteps initial) = [].
Proof. repeat split; vm_compute; reflexivity. Qed.

Example title_elevator : title (setElement elevator initial) = TitleElevator.
Proof. vm_compute. reflexivity. Qed.

Lemma title_level_change_witness :
  isLevelChangeElement (m_element (setElement elevator initial)) = true /\
  (isLevelChangeElement (m_element (setElement outdoorSteps initial)) = true \/
   (Element_tagValue (m_element (setElement outdoorSteps initial)) "stairs" = "yes" /\
    Element_tagValue (m_element (setElement outdoorSteps initial)) "indoor" = "")).
Proof.
  split.
  - exact (proj1 (title_level_change (setElement elevator initial)) eq_refl).
  - exact (proj1 (proj2 (title_level_change (setElement outdoorSteps initial))) eq_refl).
Defined.

End FloorLevelChangeModelFurtherExamples.

(** ** MapCSS conditions *)

Module MapCSSFacts.
Import OSM MapCSS.

(** X26.  The three operators of a MapCSS condition on one key: [k!=v]
    matches exactly when [k=v] does not; [k=v] with a non-empty [v]
    matching makes the presence test [k] match; where [k] does not match,
    [k=] with the empty value does; on the null element [k] never matches
    and [k=v] matches only the empty [v]. *)
Theorem matches_operators (k v : string) (state : MapCSSState) :
  matches {| m_key := k; m_value := v; op := NotEqual |} state
  = negb (matches {| m_key := k; m_value := v; op := Equal |} state) /\
  (v <> "" -> matches {| m_key := k; m_value := v; op := Equal |} state = true ->
   matches {| m_key := k; m_value := v; op := OpNone |} state = true) /\
  (matches {| m_key := k; m_value := v; op := OpNone |} state = false ->
   matches {| m_key := k; m_value := ""; op := Equal |} state = true) /\
  (state_element state = Null ->
   matches {| m_key := k; m_value := v; op := OpNone |} state = false /\
   matches {| m_key := k; m_value := v; op := Equal |} state = isEmpty v).
Proof.
  unfold matches, isEmpty. cbn [m_key m_value op]. split; [reflexivity|]. split; [|split].
  - intros Hv Heq. apply String.eqb_eq in Heq. rewrite Heq.
    apply negb_true_iff, String.eqb_neq. exact Hv.
  - intros Hn. apply negb_false_iff in Hn. exact Hn.
  - intros ->. cbn [Element_tagValue]. split; [reflexivity|]. apply String.eqb_sym.
Qed.

Example write_conditions :
  write {| m_key := "door"; m_value := ""; op := OpNone |} = "[door]" /\
  write {| m_key := "indoor"; m_value := "room"; op := Equal |} = "[indoor=room]" /\
  write {| m_key := "access"; m_value := "no"; op := NotEqual |} = "[access!=no]".
Proof. repeat split. Qed.

End MapCSSFacts.

Module MapCSSExamples.
Import OSM MapCSS MapCSSFacts FloorLevelChangeModelSamples.

Lemma matches_operators_witness :
  matches {| m_key := "highway"; m_value := "elevator"; op := OpNone |}
          {| state_element := elevator; zoomLevel := 0; floorLevel := 0 |} = true /\
  matches {| m_key := "door"; m_value := ""; op := Equal |}
          {| state_element := elevator; zoomLevel := 0; floorLevel := 0 |} = true /\
  matches {| m_key := "door"; m_value := "yes"; op := OpNone |}
          {| state_element := Null; zoomLevel := 0; floorLevel := 0 |} = false.
Proof.
  split; [|split].
  - apply (proj1 (proj2 (matches_operators "highway" "elevator"
                           {| state_element := elevator; zoomLevel := 0; floorLevel := 0 |})));
      [discriminate|reflexivity].
  - apply (proj1 (proj2 (proj2 (matches_operators "door" "yes"
                           {| state_element := elevator; zoomLevel := 0; floorLevel := 0 |})))).
    reflexivity.
  - apply (proj2 (proj2 (proj2 (matches_operators "door" "yes"
                           {| state_element := Null; zoomLevel := 0; floorLevel := 0 |})))).
    reflexivity.
Defined.
End MapCSSExamples.
